(** * Overpass search, circle fitting and segment parsing of [scripts/utils.py]

    A shallow embedding of the numerical helpers of the flight-segmentation
    utilities ([get_overpass_point], [get_overpass_track], [fit_circle],
    [ransac_fit_circle], [parse_segment]) together with the properties the
    specification states about them, and of the functions around them
    ([get_takeoff_landing], [get_ec_track], [flight_id2datestr], the event
    functions and [attach_circle_fit]) with properties read off the code.

    Conventions of the embedding:
    - a Python [float] is an exact rational or [NaN]; comparisons with
      [NaN] are false and arithmetic propagates it; the rounding of
      doubles and the infinities are not represented;
    - a coordinate array carries its dtype, [float64] or [int64], and
      [np.full_like] stores its fill value in the dtype of its template;
      the positions of a track are floats and can be [NaN];
    - a [datetime64[ns]] timestamp is an integer number of nanoseconds;
      the missing timestamp [NaT] is not represented;
    - a raised exception is an [Err] value carrying the exception class;
    - the collaborators that live outside the repository (the geodesic
      solver, the Nelder-Mead minimiser, the square root, the seeded
      random generator, the archive of satellite forecasts, pandas
      timestamps and objects the functions only pass on) are operations of
      type classes. *)

From stdpp Require Import gmap strings list sorting.
From Stdlib Require Import QArith Qabs Qround Lia Lqa.
From Stdlib Require Ascii.

#[local] Set Warnings "-register-all".
#[local] Open Scope Z_scope.

(* ===================================================================== *)
(** ** Exceptions and fallible computations *)
(* ===================================================================== *)

(** An exception is identified by the name of its class; the message is
    kept for readability. *)
Record exn := Exn { exn_class : string; exn_msg : string }.

Inductive result (A : Type) : Type :=
| Ok (a : A)
| Err (e : exn).
Arguments Ok {A} a.
Arguments Err {A} e.

#[global] Instance result_ret : MRet result := @Ok.
#[global] Instance result_bind : MBind result :=
  λ A B f m, match m with Ok a => f a | Err e => Err e end.

(** [r] is an exception of class [cls]. *)
Definition raises {A} (r : result A) (cls : string) : Prop :=
  ∃ msg, r = Err (Exn cls msg).

Definition IndexError (msg : string) : exn := Exn "IndexError" msg.
Definition ValueError (msg : string) : exn := Exn "ValueError" msg.
Definition GeodError (msg : string) : exn := Exn "GeodError" msg.

(** [seq[i]] on a Python sequence. *)
Definition subscript {A} (l : list A) (i : nat) : result A :=
  match l !! i with
  | Some x => Ok x
  | None => Err (IndexError "index out of range")
  end.

(** [seq[-1]]. *)
Definition subscript_last {A} (l : list A) : result A :=
  match last l with
  | Some x => Ok x
  | None => Err (IndexError "index out of range")
  end.

(* ===================================================================== *)
(** ** [parse_segment] *)
(* ===================================================================== *)

(** The Python values [parse_segment] distinguishes: tuples, dicts (with
    string keys, as segment records have) and every other object (a
    [slice], a string, a list, ...), which the function never inspects. *)
Inductive pyval : Type :=
| PyObj (repr : string)
| PyTuple (items : list pyval)
| PyDict (d : gmap string pyval).

Definition parse_segment (segment : pyval) : result pyval :=
  match segment with
  | PyTuple items =>
      s0 ← subscript items 0;
      let seg : gmap string pyval := {[ "slice" := s0 ]} in
      seg ← (if bool_decide (2 ≤ length items)%nat
             then s1 ← subscript items 1; Ok (<["kinds" := s1]> seg)
             else Ok seg);
      seg ← (if bool_decide (3 ≤ length items)%nat
             then s2 ← subscript items 2; Ok (<["name" := s2]> seg)
             else Ok seg);
      seg ← (if bool_decide (4 ≤ length items)%nat
             then s3 ← subscript items 3; Ok (<["remarks" := s3]> seg)
             else Ok seg);
      Ok (PyDict seg)
  | PyDict d => Ok (PyDict d)
  | PyObj _ => Ok (PyDict {[ "slice" := segment ]})
  end.

(** The keys a parsed tuple receives, by position. *)
Definition segment_keys : list string := ["slice"; "kinds"; "name"; "remarks"].

(** What the result of [parse_segment] on a tuple must look like: key
    number [i] of [segment_keys] is bound exactly when the tuple has a
    position [i], and then to the item at that position. *)
Definition tuple_fields (items : list pyval) (d : gmap string pyval) : Prop :=
  (∀ i k, segment_keys !! i = Some k → d !! k = items !! i) ∧
  (∀ k, k ∉ segment_keys → d !! k = None).

(* ===================================================================== *)
(** ** Floating-point values *)
(* ===================================================================== *)

(** A float is a finite rational or [NaN].  Infinities are not modelled:
    the only division by zero the functions below can perform on finite
    data is the [0/0] of the mean of an empty array, which is [NaN]. *)
Inductive float : Type :=
| Fin (q : Q)
| NaN.

Definition is_nan (x : float) : bool :=
  match x with NaN => true | Fin _ => false end.

Definition finite (x : float) : Prop :=
  match x with Fin _ => True | NaN => False end.

Definition flift1 (f : Q → Q) (x : float) : float :=
  match x with Fin a => Fin (f a) | NaN => NaN end.

Definition flift2 (f : Q → Q → Q) (x y : float) : float :=
  match x, y with Fin a, Fin b => Fin (f a b) | _, _ => NaN end.

Definition fcmp (c : Q → Q → bool) (x y : float) : bool :=
  match x, y with Fin a, Fin b => c a b | _, _ => false end.

Definition Qlt_bool (a b : Q) : bool := negb (Qle_bool b a).

Definition fadd : float → float → float := flift2 Qplus.
Definition fsub : float → float → float := flift2 Qminus.
Definition fmul : float → float → float := flift2 Qmult.
Definition fabs : float → float := flift1 Qabs.
Definition fdiv (x y : float) : float :=
  match x, y with
  | Fin a, Fin b => if Qeq_bool b 0 then NaN else Fin (a / b)
  | _, _ => NaN
  end.

Definition fle : float → float → bool := fcmp Qle_bool.
Definition flt : float → float → bool := fcmp Qlt_bool.
Definition fge (x y : float) : bool := fle y x.
Definition feq : float → float → bool := fcmp Qeq_bool.

(** Conversion of a float to [timedelta64[ns]], and to an integer dtype,
    truncates towards zero. *)
Definition Qtrunc (q : Q) : Z := Z.quot (Qnum q) (Z.pos (Qden q)).

(** The dtypes of the coordinate arrays: [float64], which [np.asarray]
    gives a sequence of Python floats and which position data usually
    has, and [int64], which it gives a sequence of Python ints.  The data
    of an [int64] array are whole numbers. *)
Inductive dtype : Type := float64 | int64.

(** A one-dimensional numpy array: its dtype and its elements, read as
    doubles. *)
Record ndarray := NdArray { nd_dtype : dtype; nd_data : list float }.

(* ===================================================================== *)
(** ** Collaborators outside the repository *)
(* ===================================================================== *)

(** [geod.inv(lon1, lat1, lon2, lat2)[2]] on scalars: the geodesic
    distance in metres between two finite coordinates. *)
Class Geod := geod_inv_dist : Q → Q → Q → Q → Q.

(** The square root used by [np.std]. *)
Class Sqrt := np_sqrt : Q → Q.

(** What the conversion of a double to [int64] gives when the double is
    [NaN] or its integer part is no [int64]: numpy leaves that to the
    platform. *)
Class Int64Cast := int64_invalid : float → Z.

(** The fields of scipy's [OptimizeResult] the code could look at. *)
Record OptimizeResult (X : Type) : Type :=
  { res_x : X; res_success : bool }.
Arguments res_x {X} _.
Arguments res_success {X} _.

(** [scipy.optimize.minimize(cost, x0, method="Nelder-Mead")] in one and
    in two dimensions.  The one-dimensional search is started at the
    finite point [0.0] and returns a finite point. *)
Class Minimizer :=
  { minimize1 : (Q → float) → Q → OptimizeResult Q;
    minimize2 : (float * float → float) → float * float →
                OptimizeResult (float * float) }.

(** [np.random.default_rng(seed)] and what one call of
    [rng.choice(population, size, replace=False)] draws from a generator
    state when [size <= population]. *)
Class Generator :=
  { rng_state : Type;
    default_rng_state : Z → rng_state;
    choice_draw : rng_state → nat → nat → list nat * rng_state }.

(* ===================================================================== *)
(** ** numpy and pyproj on arrays *)
(* ===================================================================== *)

Definition np_sum (l : list float) : float := foldr fadd (Fin 0) l.

Definition np_mean (l : list float) : float :=
  fdiv (np_sum l) (Fin (inject_Z (Z.of_nat (length l)))).

Definition fsqrt `{Sqrt} : float → float := flift1 np_sqrt.

(** [np.std(d)]: the root of the mean squared deviation from the mean. *)
Definition np_std `{Sqrt} (l : list float) : float :=
  let m := np_mean l in
  fsqrt (np_mean ((λ x, let a := fabs (fsub x m) in fmul a a) <$> l)).

(** The cast of a double to [int64]: truncation towards zero. *)
Definition int64_of `{Int64Cast} (v : float) : Z :=
  match v with
  | Fin q =>
      if bool_decide (- 2 ^ 63 ≤ Qtrunc q < 2 ^ 63) then Qtrunc q
      else int64_invalid v
  | NaN => int64_invalid v
  end.

(** A double stored in an array of dtype [dt] and read back. *)
Definition astype `{Int64Cast} (dt : dtype) (v : float) : float :=
  match dt with
  | float64 => v
  | int64 => Fin (inject_Z (int64_of v))
  end.

(** [np.full_like(a, v)]: an array of the length and the dtype of [a]
    whose elements are [v] cast to that dtype. *)
Definition np_full_like `{Int64Cast} (a : ndarray) (v : float) : ndarray :=
  NdArray (nd_dtype a) (replicate (length (nd_data a)) (astype (nd_dtype a) v)).

(** The scan of [np.argmin]: [mp] is the running minimum found at index
    [mi]; a [NaN] is minimal and ends the scan; otherwise an element
    replaces the minimum when it is not [>=] it. *)
Fixpoint argmin_scan (mp : float) (mi i : nat) (l : list float) : nat :=
  match l with
  | [] => mi
  | x :: l' =>
      if is_nan mp then mi
      else if negb (fge x mp) then argmin_scan x i (S i) l'
      else argmin_scan mp mi (S i) l'
  end.

Definition np_argmin (l : list float) : result nat :=
  match l with
  | [] => Err (ValueError "attempt to get argmin of an empty sequence")
  | x :: l' => Ok (argmin_scan x 0 1 l')
  end.

(** [arr[idxs]] with an integer index array. *)
Fixpoint take_indices {A} (l : list A) (idxs : list nat) : result (list A) :=
  match idxs with
  | [] => Ok []
  | i :: idxs' => x ← subscript l i; xs ← take_indices l idxs'; Ok (x :: xs)
  end.

(** [arr[mask]] with a boolean mask of the same length. *)
Fixpoint mask_select {A} (l : list A) (mask : list bool) : list A :=
  match l, mask with
  | x :: l', m :: mask' =>
      if m then x :: mask_select l' mask' else mask_select l' mask'
  | _, _ => []
  end.

(** Both kinds of indexing keep the dtype of the array. *)
Definition nd_take (a : ndarray) (idxs : list nat) : result ndarray :=
  data ← take_indices (nd_data a) idxs; Ok (NdArray (nd_dtype a) data).

Definition nd_mask (a : ndarray) (mask : list bool) : ndarray :=
  NdArray (nd_dtype a) (mask_select (nd_data a) mask).

(** [len(a)]. *)
Definition nd_len (a : ndarray) : nat := length (nd_data a).

(** The geodesic distance on floats: [NaN] coordinates give [NaN]. *)
Definition geod_dist `{Geod} (lon1 lat1 lon2 lat2 : float) : float :=
  match lon1, lat1, lon2, lat2 with
  | Fin x1, Fin y1, Fin x2, Fin y2 => Fin (geod_inv_dist x1 y1 x2 y2)
  | _, _, _, _ => NaN
  end.

Fixpoint geod_dists `{Geod} (lons1 lats1 lons2 lats2 : list float) : list float :=
  match lons1, lats1, lons2, lats2 with
  | x1 :: l1, y1 :: m1, x2 :: l2, y2 :: m2 =>
      geod_dist x1 y1 x2 y2 :: geod_dists l1 m1 l2 m2
  | _, _, _, _ => []
  end.

(** [geod.inv(lons1, lats1, lons2, lats2)[2]] on arrays: pyproj refuses
    arrays of different lengths. *)
Definition geod_inv `{Geod} (lons1 lats1 lons2 lats2 : list float)
  : result (list float) :=
  if bool_decide (length lons1 = length lats1 ∧ length lats1 = length lons2 ∧
                  length lons2 = length lats2)
  then Ok (geod_dists lons1 lats1 lons2 lats2)
  else Err (GeodError "Array lengths are not the same.").

(* ===================================================================== *)
(** ** Tracks and xarray operations on them *)
(* ===================================================================== *)

(** One sample of a track: a timestamp and a position, whose coordinates
    can be [NaN]. *)
Record sample := Sample { s_time : Z; s_lat : float; s_lon : float }.
Abbreviation track := (list sample).

(** A dataset as the functions that read [ds.lat.values] and
    [ds.lon.values] see it: a track and the dtypes of its two coordinate
    arrays.  The functions that only select, interpolate and hand
    coordinates to the geodesic solver, for which the dtype plays no
    role, take the track alone. *)
Record dataset :=
  Dataset { ds_track : track; lat_dtype : dtype; lon_dtype : dtype }.

Definition lat_values (ds : dataset) : ndarray :=
  NdArray (lat_dtype ds) (s_lat <$> ds_track ds).
Definition lon_values (ds : dataset) : ndarray :=
  NdArray (lon_dtype ds) (s_lon <$> ds_track ds).

(** A row of a dataset derived from a track: its coordinate on the time
    axis (a timestamp, or seconds as a float) and the interpolated
    variables, which can be [NaN]. *)
Record row (T : Type) : Type := Row { r_coord : T; r_lat : float; r_lon : float }.
Arguments Row {T} _ _ _.
Arguments r_coord {T} _.
Arguments r_lat {T} _.
Arguments r_lon {T} _.

Definition rows_of_track (ds : track) : list (row Z) :=
  (λ s, Row (s_time s) (s_lat s) (s_lon s)) <$> ds.

(** [ds.time[[0, -1]]]. *)
Definition time_first_last (ds : track) : result (Z * Z) :=
  t0 ← subscript (s_time <$> ds) 0;
  t1 ← subscript_last (s_time <$> ds);
  Ok (t0, t1).

(** [ds.sel(time=slice(lo, hi))] on a track with increasing timestamps:
    label-based, both ends included. *)
Definition sel_time (ds : track) (lo hi : Z) : track :=
  filter (λ s, lo ≤ s_time s ≤ hi) ds.

(** Linear interpolation of the points [xs] (increasing abscissas) at [x]
    as xarray does it: [NaN] outside the span of the abscissas, the sample
    itself on an exact hit, the chord between the two neighbours
    otherwise.  Next to a sample that is [NaN] xarray gives [NaN] on an
    exact hit as well; the properties below interpolate finite data, or
    hold with either value. *)
Fixpoint interp1d (xs : list (Q * float)) (x : Q) : float :=
  match xs with
  | [] => NaN
  | (x0, y0) :: rest =>
      if Qlt_bool x x0 then NaN
      else if Qeq_bool x x0 then y0
      else match rest with
           | [] => NaN
           | (x1, y1) :: _ =>
               if Qlt_bool x x1
               then fadd (fmul (fdiv (fsub y1 y0) (Fin (x1 - x0))) (Fin (x - x0))) y0
               else interp1d rest x
           end
  end.

(** [ds.interp(time=x, method="linear")] for a dataset whose time axis is
    read through [coord]: the interpolated [lat] and [lon]. *)
Definition interp_at {T} (coord : T → Q) (ds : list (row T)) (x : Q)
  : float * float :=
  (interp1d ((λ r, (coord (r_coord r), r_lat r)) <$> ds) x,
   interp1d ((λ r, (coord (r_coord r), r_lon r)) <$> ds) x).

(** [ds.interp(time=times)]: the dataset resampled onto [times]. *)
Definition interp_onto (ds : list (row Z)) (times : list Z) : list (row Z) :=
  (λ t, let '(la, lo) := interp_at inject_Z ds (inject_Z t) in Row t la lo)
    <$> times.

(* ===================================================================== *)
(** ** [get_overpass_point] and [get_overpass_track] *)
(* ===================================================================== *)

(** [get_overpass_point].  Both target arrays are made like
    [ds.lon.values], so both targets are cast to the dtype of the
    longitudes. *)
Definition get_overpass_point `{Geod} `{Int64Cast}
    (ds : dataset) (target_lat target_lon : float) : result (float * Z) :=
  let lons := lon_values ds in
  let lats := lat_values ds in
  dist ← geod_inv (nd_data lons) (nd_data lats)
            (nd_data (np_full_like lons target_lon))
            (nd_data (np_full_like lons target_lat));
  i ← np_argmin dist;
  d ← subscript dist i;
  t ← subscript (s_time <$> ds_track ds) i;
  Ok (d, t).

(** [np.timedelta64(1000_000_000, "ns")]. *)
Definition t_unit : Z := 1000000000.

(** [ds.assign_coords(time=(ds.time - t_guess) / t_unit)]: the time axis
    in seconds from [t_guess]. *)
Definition seconds_from (t_guess : Z) (ds : list (row Z)) : list (row Q) :=
  (λ r, Row (inject_Z (r_coord r - t_guess) / inject_Z t_unit)%Q
            (r_lat r) (r_lon r)) <$> ds.

(** The cost function of the refinement: the distance between the two
    tracks interpolated at [t] seconds from the coarse estimate. *)
Definition overpass_cost `{Geod} (_a _b : list (row Q)) (t : Q) : float :=
  let a := interp_at id _a t in
  let b := interp_at id _b t in
  geod_dist b.2 b.1 a.2 a.1.

(** The coarse stage: [a], [b], the distance array and the index of its
    minimum.  When the restriction [a] is empty the exception is raised
    here by [argmin]; an xarray that reduces over the empty target axis
    raises its [ValueError] one line earlier, in [interp]. *)
Definition overpass_coarse `{Geod} (a_track b_track : track)
  : result (list (row Z) * list (row Z) * list float * nat) :=
  '(b_first, b_last) ← time_first_last b_track;
  let a := rows_of_track (sel_time a_track b_first b_last) in
  let b := interp_onto (rows_of_track b_track) (r_coord <$> a) in
  dist ← geod_inv (r_lon <$> b) (r_lat <$> b) (r_lon <$> a) (r_lat <$> a);
  i ← np_argmin dist;
  Ok (a, b, dist, i).

(** The refinement stage up to the call of [minimize]: [t_guess], the two
    datasets on the shifted time axis and the optimiser's result. *)
Definition overpass_minimize `{Geod} `{Minimizer}
    (a b : list (row Z)) (i : nat)
  : result (Z * list (row Q) * list (row Q) * OptimizeResult Q) :=
  t_guess ← subscript (r_coord <$> a) i;
  let _a := seconds_from t_guess a in
  let _b := seconds_from t_guess b in
  Ok (t_guess, _a, _b, minimize1 (overpass_cost _a _b) 0%Q).

Definition get_overpass_track `{Geod} `{Minimizer}
    (a_track b_track : track) (optimize : bool) : result (float * Z) :=
  '(a, b, dist, i) ← overpass_coarse a_track b_track;
  if optimize then
    '(t_guess, _a, _b, res) ← overpass_minimize a b i;
    let t := res_x res in
    Ok (overpass_cost _a _b t, t_guess + Qtrunc (t * inject_Z t_unit))
  else
    d ← subscript dist i;
    t ← subscript (r_coord <$> a) i;
    Ok (d, t).

(* ===================================================================== *)
(** ** Generator objects and computations that use them *)
(* ===================================================================== *)

(** Generator objects live in a store; a handle is a position in it.  A
    computation of the interpreter takes a store and yields a value or an
    exception, and the store it leaves behind. *)
Abbreviation heap := (list rng_state).
Definition py `{Generator} (A : Type) : Type := heap → result A * heap.

#[global] Instance py_ret `{Generator} : MRet py := λ A a h, (Ok a, h).
#[global] Instance py_bind `{Generator} : MBind py :=
  λ A B f m h,
    match m h with
    | (Ok a, h') => f a h'
    | (Err e, h') => (Err e, h')
    end.

Definition lift_result `{Generator} {A} (r : result A) : py A := λ h, (r, h).

(** [np.random.default_rng(seed)]: a new generator object. *)
Definition default_rng `{Generator} (seed : Z) : py nat :=
  λ h, (Ok (length h), h ++ [default_rng_state seed]).

(** [rng.choice(population, size, replace=False)]: draws from the
    generator behind the handle and advances it. *)
Definition rng_choice `{Generator} (rng : nat) (population size : nat)
  : py (list nat) :=
  λ h,
    match h !! rng with
    | None => (Err (Exn "ReferenceError" "no such generator"), h)
    | Some st =>
        if bool_decide (population < size)%nat
        then (Err (ValueError "Cannot take a larger sample than population when replace is False"), h)
        else let '(idxs, st') := choice_draw st population size in
             (Ok idxs, <[rng := st']> h)
    end.

(* ===================================================================== *)
(** ** [fit_circle] and [ransac_fit_circle] *)
(* ===================================================================== *)

(** The cost function of [fit_circle]: the standard deviation of the
    distances of the points to the candidate centre [x]. *)
Definition circle_cost `{Geod} `{Sqrt} `{Int64Cast} (lat lon : ndarray)
    (x : float * float) : float :=
  let '(clat, clon) := x in
  np_std (geod_dists (nd_data lon) (nd_data lat)
            (nd_data (np_full_like lon clon)) (nd_data (np_full_like lat clat))).

(** The distances of all points to a centre, as both functions compute
    them: the centre is cast to the dtypes of the coordinate arrays. *)
Definition center_dists `{Geod} `{Int64Cast} (lat lon : ndarray)
    (clat clon : float) : result (list float) :=
  geod_inv (nd_data lon) (nd_data lat)
    (nd_data (np_full_like lon clon)) (nd_data (np_full_like lat clat)).

(** [fit_circle] on [lat = np.asarray(lat)] and [lon = np.asarray(lon)].
    The cost function calls [geod.inv], which raises on arrays of
    different lengths whatever the candidate centre is; that exception
    leaves [minimize] at its first evaluation, which is the first
    [center_dists] below. *)
Definition fit_circle `{Geod} `{Sqrt} `{Minimizer} `{Int64Cast}
    (lat lon : ndarray) : result (float * float * float) :=
  let clat := np_mean (nd_data lat) in
  let clon := np_mean (nd_data lon) in
  _ ← center_dists lat lon clat clon;
  let res := minimize2 (circle_cost lat lon) (clat, clon) in
  let '(clat, clon) := res_x res in
  d ← center_dists lat lon clat clon;
  Ok (clat, clon, np_mean d).

(** A recorded trial: [(n_in, clat, clon, radius)]. *)
Definition trial : Type := nat * float * float * float.

(** [a < b] on two such tuples, as Python compares tuples: the first
    position where the items are not [==] decides. *)
Definition trial_lt (s1 s2 : trial) : bool :=
  let '(n1, a1, b1, r1) := s1 in
  let '(n2, a2, b2, r2) := s2 in
  if negb (n1 =? n2)%nat then (n1 <? n2)%nat
  else if negb (feq a1 a2) then flt a1 a2
  else if negb (feq b1 b2) then flt b1 b2
  else if negb (feq r1 r2) then flt r1 r2
  else false.

(** [sorted]: a stable sort that only asks [<]; every element is placed
    behind the elements it is not smaller than. *)
Fixpoint insort {A} (lt : A → A → bool) (x : A) (l : list A) : list A :=
  match l with
  | [] => [x]
  | y :: l' => if lt x y then x :: l else y :: insort lt x l'
  end.

Definition sorted {A} (lt : A → A → bool) (l : list A) : list A :=
  foldl (λ acc x, insort lt x acc) [] l.

(** [np.abs(radius - d) <= distance_range] for one distance. *)
Definition inlier (radius : float) (distance_range : Q) (d : float) : bool :=
  fle (fabs (fsub radius d)) (Fin distance_range).

(** [np.sum] of a boolean array. *)
Definition count_true (mask : list bool) : nat :=
  length (filter (λ b, b = true) mask).

(** What one trial does once its indices are drawn. *)
Definition score_trial `{Geod} `{Sqrt} `{Minimizer} `{Int64Cast}
    (lat lon : ndarray) (distance_range : Q) (idxs : list nat) : result trial :=
  slat ← nd_take lat idxs;
  slon ← nd_take lon idxs;
  '(clat, clon, radius) ← fit_circle slat slon;
  d ← center_dists lat lon clat clon;
  let n_in := count_true (inlier radius distance_range <$> d) in
  Ok (n_in, clat, clon, radius).

(** The body of the loop, [n] times; [samples] is the list built so far. *)
Fixpoint ransac_loop `{Geod} `{Sqrt} `{Minimizer} `{Generator} `{Int64Cast}
    (rng : nat) (lat lon : ndarray) (distance_range : Q) (n : nat)
    (samples : list trial) : py (list trial) :=
  match n with
  | O => mret samples
  | S n' =>
      idxs ← rng_choice rng (nd_len lat) 3;
      s ← lift_result (score_trial lat lon distance_range idxs);
      ransac_loop rng lat lon distance_range n' (samples ++ [s])
  end.

(** The part after the loop: selection of the winner and the re-fit. *)
Definition ransac_refit `{Geod} `{Sqrt} `{Minimizer} `{Int64Cast}
    (lat lon : ndarray) (distance_range : Q) (samples : list trial)
  : result (float * float * float) :=
  '(n_in_good, clat, clon, radius) ← subscript_last (sorted trial_lt samples);
  d ← center_dists lat lon clat clon;
  let good := inlier radius distance_range <$> d in
  fit_circle (nd_mask lat good) (nd_mask lon good).

(** [ransac_fit_circle] on [lat = np.asarray(lat)] and
    [lon = np.asarray(lon)]. *)
Definition ransac_fit_circle `{Geod} `{Sqrt} `{Minimizer} `{Generator}
    `{Int64Cast} (lat lon : ndarray) (distance_range : Q) (n : nat)
  : py (float * float * float) :=
  rng ← default_rng 12345;
  samples ← ransac_loop rng lat lon distance_range n [];
  lift_result (ransac_refit lat lon distance_range samples).

(* ===================================================================== *)
(** ** [get_takeoff_landing] and [get_ec_track] *)
(* ===================================================================== *)

(** One sample of the altitude record of a flight: a timestamp and the
    altitude above WGS84, which can be [NaN].  The timestamp is a
    datetime in nanoseconds since the epoch: records with a missing
    timestamp ([NaT]) are not represented, and nothing below is said
    about them. *)
Record alt_sample := AltSample { a_time : Z; a_alt : float }.

Definition UnboundLocalError (msg : string) : exn := Exn "UnboundLocalError" msg.

(** [np.datetime64("2024-08-10T00:00:00")] and the other dates of the
    campaign, in nanoseconds since the epoch. *)
Definition date_2024_08_10 : Z := 1723248000000000000.
Definition date_2024_09_05 : Z := 1725494400000000000.
Definition date_2024_09_07 : Z := 1725667200000000000.
Definition date_2024_09_29 : Z := 1727568000000000000.

(** The altitude of the airport of departure, by the first timestamp:
    Memmingen, Sal or Barbados.  The chain of [if]/[elif] has no [else]:
    were no branch taken, the variable would be unbound where it is
    used. *)
Definition airport_takeoff_wgs84 (t_first : Z) : result Z :=
  if bool_decide (t_first < date_2024_08_10) then Ok 681
  else if bool_decide (date_2024_08_10 ≤ t_first ∧ t_first < date_2024_09_07)
  then Ok 90
  else if bool_decide (date_2024_09_07 ≤ t_first) then Ok 9
  else Err (UnboundLocalError "airport_takeoff_wgs84").

(** The altitude of the airport of arrival, by the last timestamp. *)
Definition airport_landing_wgs84 (t_last : Z) : result Z :=
  if bool_decide (t_last < date_2024_09_05) then Ok 90
  else if bool_decide (date_2024_09_05 ≤ t_last ∧ t_last < date_2024_09_29)
  then Ok 9
  else if bool_decide (date_2024_09_29 ≤ t_last) then Ok 681
  else Err (UnboundLocalError "airport_landing_wgs84").

(** [ds["time"].where(ds.alt > threshold, drop=True)]: the timestamps of
    the samples above the threshold, in order. *)
Definition times_above (threshold : Z) (ds : list alt_sample) : list Z :=
  a_time <$> filter (λ s, flt (Fin (inject_Z threshold)) (a_alt s) = true) ds.

(** One minute in nanoseconds; a cast of [timedelta64[ns]] to
    [timedelta64[m]] divides by it, rounding down. *)
Definition ns_per_minute : Z := 60000000000.

Definition get_takeoff_landing (flight_id : string) (ds : list alt_sample)
  : result (Z * Z * Z) :=
  t_first ← subscript (a_time <$> ds) 0;
  airport_takeoff ← airport_takeoff_wgs84 t_first;
  t_last ← subscript_last (a_time <$> ds);
  airport_landing ← airport_landing_wgs84 t_last;
  takeoff ← subscript (times_above airport_takeoff ds) 0;
  landing ← subscript_last (times_above airport_landing ds);
  let duration := (landing - takeoff) `div` ns_per_minute in
  Ok (takeoff, landing, duration).

(** [orcestra.sat.SattrackLoader("EARTHCARE", issue_date, kind="PRE",
    roi=roi).get_track_for_day(valid_date)]: the forecast of the ground
    track for a day, issued on a day, for a region; dates are days since
    the epoch.  It raises when no forecast was issued on that day. *)
Class Sattrack := sattrack_for_day : string → Z → Z → result (list sample).

(** One day in nanoseconds; a cast of [datetime64[ns]] to [datetime64[D]]
    divides by it, rounding down. *)
Definition ns_per_day : Z := 86400000000000.

Definition no_forecast_warning : string :=
  "No sattrack forecast issued on flightday, I will use an older sattrack forecast!".

(** The loop over the issue dates; [warnings] collects what
    [warnings.warn] was given.  Leaving the loop without a [break] leaves
    [ec_track] unbound at the [return]. *)
Fixpoint ec_track_loop `{Sattrack} (roi : string) (valid_date takeoff landing : Z)
    (issue_dates : list Z) (warnings : list string)
  : result (list sample) * list string :=
  match issue_dates with
  | [] => (Err (UnboundLocalError "ec_track"), warnings)
  | issue_date :: rest =>
      match sattrack_for_day roi issue_date valid_date with
      | Ok tr => (Ok (sel_time tr takeoff landing), warnings)
      | Err _ =>
          ec_track_loop roi valid_date takeoff landing rest
                        (warnings ++ [no_forecast_warning])
      end
  end.

(** [get_ec_track]: the track and the warnings issued on the way. *)
Definition get_ec_track `{Sattrack} (flight_id : string) (ds : list alt_sample)
  : result (list sample) * list string :=
  match get_takeoff_landing flight_id ds with
  | Err e => (Err e, [])
  | Ok (takeoff, landing, _) =>
      let valid_date := takeoff `div` ns_per_day in
      let issue_dates := (λ i, valid_date - Z.of_nat i) <$> seq 0 6 in
      let roi := if bool_decide (date_2024_09_07 ≤ valid_date * ns_per_day)
                 then "BARBADOS" else "CAPE_VERDE" in
      ec_track_loop roi valid_date takeoff landing issue_dates []
  end.

(* ===================================================================== *)
(** ** [flight_id2datestr] *)
(* ===================================================================== *)

(** [s.split(sep)] for a separator of one character: the pieces between
    the occurrences of the separator, at least one piece. *)
Fixpoint str_split (sep : Ascii.ascii) (s : string) : list string :=
  match s with
  | EmptyString => [EmptyString]
  | String c s' =>
      if bool_decide (c = sep) then EmptyString :: str_split sep s'
      else match str_split sep s' with
           | p :: ps => String c p :: ps
           | [] => [String c EmptyString]
           end
  end.

(** [s[i:j]], [s[i:]] and [s[:-1]] with indices within range or beyond
    the end: slices never raise. *)
Definition str_slice (i j : nat) (s : string) : string :=
  String.substring i (j - i) s.
Definition str_from (i : nat) (s : string) : string :=
  String.substring i (String.length s - i) s.
Definition str_drop_last (s : string) : string :=
  String.substring 0 (String.length s - 1) s.

(** The character ["-"]. *)
Definition hyphen : Ascii.ascii := Ascii.ascii_of_nat 45.

Definition flight_id2datestr (flight_id : string) : result string :=
  piece ← subscript (str_split hyphen flight_id) 1;
  let d := str_drop_last piece in
  Ok (str_slice 0 4 d +:+ "-" +:+ str_slice 4 6 d +:+ "-" +:+ str_from 6 d).

(* ===================================================================== *)
(** ** Events: [to_dt], [ec_event], [pace_event] and [meteor_event] *)
(* ===================================================================== *)

(** [pd.Timestamp(dt64).to_pydatetime(warn=False)]: the Python datetime
    of a timestamp. *)
Class Pandas :=
  { pydatetime : Type;
    timestamp_to_pydatetime : Z → pydatetime }.

Definition to_dt `{Pandas} (dt64 : Z) : pydatetime :=
  timestamp_to_pydatetime dt64.

(** [round(x)] on a float: the nearest integer, the even one of two
    nearest; [NaN] cannot be converted. *)
Definition round_half_even (q : Q) : Z :=
  let f := Qfloor q in
  match (q - inject_Z f ?= 1 # 2)%Q with
  | Lt => f
  | Gt => f + 1
  | Eq => if Z.even f then f else f + 1
  end.

Definition py_round (x : float) : result Z :=
  match x with
  | Fin q => Ok (round_half_even q)
  | NaN => Err (ValueError "cannot convert float NaN to integer")
  end.

(** [x or default] for an optional list and an optional name: [None] and
    the empty value give the default. *)
Definition list_or {A} (x : option (list A)) (default : list A) : list A :=
  match x with
  | Some (y :: l) => y :: l
  | _ => default
  end.

Definition name_or (x : option string) (default : string) : string :=
  match x with
  | Some (String c s) => String c s
  | _ => default
  end.

(** The dict an event function returns; [meteor_event] adds the position
    of the ship. *)
Record event `{Pandas} : Type :=
  { ev_name : string;
    ev_time : pydatetime;
    ev_kinds : list string;
    ev_distance : Z;
    ev_remarks : list string;
    ev_meteor : option (float * float) }.

Definition ec_event `{Geod} `{Minimizer} `{Pandas}
    (ds ec_track : track) (ec_remarks : option (list string)) : result event :=
  '(dist, time) ← get_overpass_track ds ec_track true;
  distance ← py_round dist;
  Ok {| ev_name := "EC meeting point";
        ev_time := to_dt time;
        ev_kinds := ["ec_underpass"];
        ev_distance := distance;
        ev_remarks := list_or ec_remarks [];
        ev_meteor := None |}.

Definition pace_event `{Geod} `{Minimizer} `{Pandas}
    (ds pace_track : track) (remarks : option (list string)) : result event :=
  '(dist, time) ← get_overpass_track ds pace_track true;
  distance ← py_round dist;
  Ok {| ev_name := "PACE meeting point";
        ev_time := to_dt time;
        ev_kinds := ["pace_underpass"];
        ev_distance := distance;
        ev_remarks := list_or remarks [];
        ev_meteor := None |}.

(** What the event functions need of objects the model does not look
    into: whether an object is true in a condition, and
    [ds.sel(time=obj)] for the slice object of a segment. *)
Class PyObjects :=
  { obj_truthy : string → bool;
    ds_sel : track → pyval → result track }.

(** The truth value of [seg] in [if seg:]. *)
Definition truthy `{PyObjects} (v : pyval) : bool :=
  match v with
  | PyObj r => obj_truthy r
  | PyTuple items => bool_decide (items ≠ [])
  | PyDict d => bool_decide (d ≠ ∅)
  end.

(** [v[key]] for a string key. *)
Definition getitem (v : pyval) (key : string) : result pyval :=
  match v with
  | PyDict d =>
      match d !! key with
      | Some x => Ok x
      | None => Err (Exn "KeyError" key)
      end
  | _ => Err (Exn "TypeError" "indices must be integers or slices, not str")
  end.

(** [if seg: ds = ds.sel(time=parse_segment(seg)["slice"])]. *)
Definition select_segment `{PyObjects} (ds : track) (seg : option pyval)
  : result track :=
  match seg with
  | None => Ok ds
  | Some v =>
      if truthy v
      then parsed ← parse_segment v;
           sl ← getitem parsed "slice";
           ds_sel ds sl
      else Ok ds
  end.

Definition meteor_event `{Geod} `{Minimizer} `{Pandas} `{PyObjects}
    (ds meteor_track : track) (seg : option pyval) (name : option string)
    (remarks : option (list string)) : result event :=
  ds ← select_segment ds seg;
  '(dist, meeting_time) ← get_overpass_track ds meteor_track true;
  distance ← py_round dist;
  let position :=
    interp_at inject_Z (rows_of_track meteor_track) (inject_Z meeting_time) in
  Ok {| ev_name := name_or name "METEOR overpass";
        ev_time := to_dt meeting_time;
        ev_kinds := ["meteor_overpass"];
        ev_distance := distance;
        ev_remarks := list_or remarks [];
        ev_meteor := Some position |}.

(* ===================================================================== *)
(** ** [_attach_circle_fit] and [attach_circle_fit] *)
(* ===================================================================== *)

(** ["circle" in obj] for the object under ["kinds"], which the model
    does not look into; it raises for an object that is no container. *)
Class Containers := py_contains : pyval → string → result bool.

(** [_attach_circle_fit] on a segment record, a dict.  It returns the
    record itself, or a new dict with the entries of the record and three
    floats. *)
Definition _attach_circle_fit `{Geod} `{Sqrt} `{Minimizer} `{Generator}
    `{Int64Cast} `{PyObjects} `{Containers}
    (segment : gmap string pyval) (ds : dataset)
  : py (gmap string pyval + gmap string (pyval + float)) :=
  kinds ← lift_result (getitem (PyDict segment) "kinds");
  is_circle ← lift_result (py_contains kinds "circle");
  if negb is_circle then mret (inl segment)
  else
    sl ← lift_result (getitem (PyDict segment) "slice");
    cdata ← lift_result (ds_sel (ds_track ds) sl);
    '(clat, clon, radius) ←
      ransac_fit_circle (NdArray (lat_dtype ds) (s_lat <$> cdata))
                        (NdArray (lon_dtype ds) (s_lon <$> cdata)) 1000 100;
    mret (inr (<["radius" := inr radius]>
                 (<["clon" := inr clon]>
                    (<["clat" := inr clat]> (inl <$> segment))))).

(** [[_attach_circle_fit(s, ds) for s in segments]]. *)
Fixpoint attach_circle_fit `{Geod} `{Sqrt} `{Minimizer} `{Generator}
    `{Int64Cast} `{PyObjects} `{Containers}
    (segments : list (gmap string pyval)) (ds : dataset)
  : py (list (gmap string pyval + gmap string (pyval + float))) :=
  match segments with
  | [] => mret []
  | s :: rest =>
      r ← _attach_circle_fit s ds;
      rs ← attach_circle_fit rest ds;
      mret (r :: rs)
  end.

(* ===================================================================== *)
(** ** Vocabulary of the properties *)
(* ===================================================================== *)

(** The value of a finite float. *)
Definition Qof (x : float) : Q :=
  match x with Fin q => q | NaN => 0%Q end.

(** Samples and tracks whose positions are finite, and the coordinates of
    such a sample. *)
Definition finite_sample (s : sample) : Prop :=
  finite (s_lat s) ∧ finite (s_lon s).
Definition finite_track (ds : track) : Prop := Forall finite_sample ds.
Definition lat_of (s : sample) : Q := Qof (s_lat s).
Definition lon_of (s : sample) : Q := Qof (s_lon s).

(** Arrays of finite floats and of ints, and a track as a dataset of
    [float64] coordinates. *)
Definition float_array (l : list Q) : ndarray := NdArray float64 (Fin <$> l).
Definition int_array (l : list Z) : ndarray :=
  NdArray int64 ((λ z, Fin (inject_Z z)) <$> l).
Definition float_dataset (ds : track) : dataset := Dataset ds float64 float64.

(** The geodesic distance from a sample at a finite position to a
    target. *)
Definition point_dist `{Geod} (target_lat target_lon : Q) (s : sample) : Q :=
  geod_inv_dist (lon_of s) (lat_of s) target_lon target_lat.

(** The geodesic distance from a sample to a target as stored in an array
    of dtype [dt]. *)
Definition stored_target_dist `{Geod} `{Int64Cast} (dt : dtype)
    (target_lat target_lon : float) (s : sample) : float :=
  geod_dist (s_lon s) (s_lat s) (astype dt target_lon) (astype dt target_lat).

(** A track as the data model has it: timestamps strictly increasing. *)
Definition increasing (ts : list Z) : Prop := StronglySorted Z.lt ts.

(** Abscissas strictly increasing, as rationals. *)
Definition Qincreasing (xs : list Q) : Prop := StronglySorted Qlt xs.

(** A minimiser that reports [ok] as its success flag and is otherwise
    the minimiser [M]. *)
Definition report_success (ok : bool) (M : Minimizer) : Minimizer :=
  {| minimize1 f x0 :=
       {| res_x := res_x (@minimize1 M f x0); res_success := ok |};
     minimize2 f x0 :=
       {| res_x := res_x (@minimize2 M f x0); res_success := ok |} |}.

(** The point of abscissa [x] on the chord from [(x0, y0)] to [(x1, y1)]. *)
Definition chord (x0 y0 x1 y1 x : Q) : Q :=
  ((y1 - y0) / (x1 - x0) * (x - x0) + y0)%Q.

(** Linear interpolation as a relation: [v] is the value of a sample
    whose abscissa is [x], or lies on the chord between two neighbouring
    samples that enclose [x]. *)
Inductive lin_interp : list (Q * Q) → Q → Q → Prop :=
| lin_interp_hit x0 y0 rest x :
    (x == x0)%Q → lin_interp ((x0, y0) :: rest) x y0
| lin_interp_chord x0 y0 x1 y1 rest x :
    (x0 < x)%Q → (x < x1)%Q →
    lin_interp ((x0, y0) :: (x1, y1) :: rest) x (chord x0 y0 x1 y1 x)
| lin_interp_later p rest x v :
    lin_interp rest x v → lin_interp (p :: rest) x v.

(** Finite points as interpolation data. *)
Definition lift_points (pts : list (Q * Q)) : list (Q * float) :=
  (λ p, (p.1, Fin p.2)) <$> pts.

(** The points [(time, f sample)] of a track, for a variable [f]. *)
Definition track_points (f : sample → Q) (ds : track) : list (Q * Q) :=
  (λ s, (inject_Z (s_time s), f s)) <$> ds.

(** Track [b] resampled at the time of the sample [sa], and the distance
    of the resampled position to [sa]. *)
Definition resampled (b_track : track) (sa : sample) : float * float :=
  interp_at inject_Z (rows_of_track b_track) (inject_Z (s_time sa)).

Definition resampled_dist `{Geod} (b_track : track) (sa : sample) : float :=
  let p := resampled b_track sa in
  geod_dist p.2 p.1 (s_lon sa) (s_lat sa).

(** Sum, arithmetic mean and mean squared deviation of finite data. *)
Definition Qsum (l : list Q) : Q := foldr Qplus 0%Q l.

Definition Qmean (l : list Q) : Q :=
  (Qsum l / inject_Z (Z.of_nat (length l)))%Q.

Definition Qvariance (l : list Q) : Q :=
  Qmean ((λ x, Qabs (x - Qmean l) * Qabs (x - Qmean l))%Q <$> l).

(** The points [(lat, lon)] of two parallel lists of finite coordinates. *)
Definition Qpoints (lat lon : list Q) : list (Q * Q) := zip lat lon.


(** The points [(lat, lon)] of two parallel coordinate arrays. *)
Definition points (lat lon : ndarray) : list (float * float) :=
  zip (nd_data lat) (nd_data lon).

(** The distance of a point to a centre as the functions measure it, the
    centre stored in arrays of dtypes [lat_dt] and [lon_dt], and the
    inlier test of a point for a circle [(clat, clon, radius)]. *)
Definition center_dist `{Geod} `{Int64Cast} (lat_dt lon_dt : dtype)
    (clat clon : float) (p : float * float) : float :=
  geod_dist p.2 p.1 (astype lon_dt clon) (astype lat_dt clat).

Definition inlier_point `{Geod} `{Int64Cast} (lat_dt lon_dt : dtype)
    (c : float * float * float) (distance_range : Q) (p : float * float) : bool :=
  let '(clat, clon, radius) := c in
  inlier radius distance_range (center_dist lat_dt lon_dt clat clon p).

Definition inlier_points `{Geod} `{Int64Cast} (c : float * float * float)
    (distance_range : Q) (lat lon : ndarray) : list (float * float) :=
  filter (λ p, inlier_point (nd_dtype lat) (nd_dtype lon) c distance_range p = true)
         (points lat lon).

(** The inliers as the two arrays the re-fit is given. *)
Definition inlier_lat `{Geod} `{Int64Cast} (c : float * float * float)
    (distance_range : Q) (lat lon : ndarray) : ndarray :=
  NdArray (nd_dtype lat) (inlier_points c distance_range lat lon).*1.
Definition inlier_lon `{Geod} `{Int64Cast} (c : float * float * float)
    (distance_range : Q) (lat lon : ndarray) : ndarray :=
  NdArray (nd_dtype lon) (inlier_points c distance_range lat lon).*2.

(** A point at finite coordinates [(lat, lon)] lies within
    [distance_range] of the circle of centre [(clat, clon)] and radius
    [radius]: its geodesic distance to the centre differs from the radius
    by at most [distance_range]. *)
Definition in_ring `{Geod} (clat clon radius distance_range : Q) (p : Q * Q)
  : Prop :=
  (Qabs (radius - geod_inv_dist p.2 p.1 clon clat) <= distance_range)%Q.

#[global] Instance in_ring_dec `{Geod} clat clon radius distance_range p :
  Decision (in_ring clat clon radius distance_range p) :=
  match Qlt_le_dec distance_range
          (Qabs (radius - geod_inv_dist p.2 p.1 clon clat)) with
  | left Hlt => right (λ Hle, Qlt_not_le _ _ Hlt Hle)
  | right Hle => left Hle
  end.

(** The loop of [ransac_fit_circle] on the state of its generator alone:
    the samples (or the exception) and the state after [n] trials. *)
Fixpoint trials_from `{Geod} `{Sqrt} `{Minimizer} `{Generator} `{Int64Cast}
    (st : rng_state) (lat lon : ndarray) (distance_range : Q) (n : nat)
    (samples : list trial) : result (list trial) * rng_state :=
  match n with
  | O => (Ok samples, st)
  | S n' =>
      if bool_decide (nd_len lat < 3)%nat
      then (Err (ValueError "Cannot take a larger sample than population when replace is False"), st)
      else
        let '(idxs, st') := choice_draw st (nd_len lat) 3 in
        match score_trial lat lon distance_range idxs with
        | Ok s => trials_from st' lat lon distance_range n' (samples ++ [s])
        | Err e => (Err e, st')
        end
  end.

(** The index triples of [n] successive draws. *)
Fixpoint draws_from `{Generator} (st : rng_state) (population n : nat)
  : list (list nat) :=
  match n with
  | O => []
  | S n' =>
      let '(idxs, st') := choice_draw st population 3 in
      idxs :: draws_from st' population n'
  end.

(** The lexicographic order of recorded trials with finite entries:
    score first, then [clat], [clon] and [radius]. *)
Definition trial_le (s w : trial) : Prop :=
  match s, w with
  | (n1, Fin a1, Fin b1, Fin r1), (n2, Fin a2, Fin b2, Fin r2) =>
      (n1 < n2)%nat ∨
      (n1 = n2 ∧ ((a1 < a2)%Q ∨
                  ((a1 == a2)%Q ∧ ((b1 < b2)%Q ∨
                                   ((b1 == b2)%Q ∧ (r1 <= r2)%Q)))))
  | _, _ => False
  end.

Definition finite_trial (s : trial) : Prop :=
  let '(_, a, b, r) := s in finite a ∧ finite b ∧ finite r.

(** The circle of a recorded trial. *)
Definition circle_of (s : trial) : float * float * float :=
  let '(_, clat, clon, radius) := s in (clat, clon, radius).

(** [s] is the record of the trial that drew the indices [idxs]: the
    circle fitted to exactly the points at these indices, scored by the
    number of inliers among all points. *)
Definition is_trial `{Geod} `{Sqrt} `{Minimizer} `{Int64Cast}
    (lat lon : ndarray) (distance_range : Q) (idxs : list nat) (s : trial) : Prop :=
  ∃ slat slon c,
    nd_take lat idxs = Ok slat ∧
    nd_take lon idxs = Ok slon ∧
    fit_circle slat slon = Ok c ∧
    circle_of s = c ∧
    s.1.1.1 = length (inlier_points c distance_range lat lon).

(** [s] is the record of a trial on points at finite coordinates, as
    the trial is described: the circle is fitted to exactly the points at
    the indices [idxs], and the score is the number of points, among all,
    whose distance to the centre differs from the radius by at most
    [distance_range]. *)
Definition ring_trial `{Geod} `{Sqrt} `{Minimizer} `{Int64Cast}
    (lat lon : list Q) (distance_range : Q) (idxs : list nat) (s : trial) : Prop :=
  ∃ slat slon clat clon radius,
    Forall2 (λ i x, lat !! i = Some x) idxs slat ∧
    Forall2 (λ i x, lon !! i = Some x) idxs slon ∧
    fit_circle (float_array slat) (float_array slon)
    = Ok (Fin clat, Fin clon, Fin radius) ∧
    s = (length (filter (in_ring clat clon radius distance_range)
                        (Qpoints lat lon)),
         Fin clat, Fin clon, Fin radius).

(** What [rng.choice(population, size, replace=False)] promises: [size]
    distinct indices below [population]. *)
Definition choice_ok `{Generator} : Prop :=
  ∀ st population size,
    (size ≤ population)%nat →
    let idxs := (choice_draw st population size).1 in
    length idxs = size ∧ NoDup idxs ∧ Forall (λ i, (i < population)%nat) idxs.

(** A minimiser that returns a finite point when started at one. *)
Definition minimize2_finite `{Minimizer} : Prop :=
  ∀ f x0, finite x0.1 → finite x0.2 →
          finite (res_x (minimize2 f x0)).1 ∧ finite (res_x (minimize2 f x0)).2.

(** A valid draw of three indices into an array of length [n]. *)
Definition valid_draw (n : nat) (idxs : list nat) : Prop :=
  length idxs = 3%nat ∧ NoDup idxs ∧ Forall (λ i, (i < n)%nat) idxs.

(** The two datasets of the refinement stage, on the time axis in seconds
    from [t_guess], for the kept samples [a_sel] of the first track. *)
Definition shifted_a (t_guess : Z) (a_sel : track) : list (row Q) :=
  seconds_from t_guess (rows_of_track a_sel).

Definition shifted_b (t_guess : Z) (a_sel b_track : track) : list (row Q) :=
  seconds_from t_guess
    (interp_onto (rows_of_track b_track) (r_coord <$> rows_of_track a_sel)).


(** Midnight of the day that is [days] days after 1970-01-01, as a
    [datetime64[ns]]: 2024-08-10 is day 19945, 2024-09-05 day 19971,
    2024-09-07 day 19973 and 2024-09-29 day 19995. *)
Definition midnight (days : Z) : Z := days * 86400 * 1000000000.

(** The altitude of a sample exceeds a threshold ([NaN] never does). *)
Definition above (threshold : Z) (s : alt_sample) : Prop :=
  flt (Fin (inject_Z threshold)) (a_alt s) = true.

(** The region of interest [get_ec_track] asks the forecast for. *)
Definition ec_roi (takeoff : Z) : string :=
  if bool_decide (date_2024_09_07 ≤ takeoff) then "BARBADOS" else "CAPE_VERDE".

(** A character occurs in a string. *)
Fixpoint str_contains (c : Ascii.ascii) (s : string) : bool :=
  match s with
  | EmptyString => false
  | String c' s' => bool_decide (c' = c) || str_contains c s'
  end.

(* ===================================================================== *)
(** ** Rational stand-ins for the collaborators *)
(* ===================================================================== *)

(** Executable instances of the interfaces above, on which the model can
    be run: distances in degrees along the axes, a crude integer square
    root, two direct searches and a counter-based generator. *)

Definition taxicab : Geod :=
  λ lon1 lat1 lon2 lat2, Qred (Qabs (lon1 - lon2) + Qabs (lat1 - lat2)).

Definition floor_sqrt : Sqrt :=
  λ q, inject_Z (Z.sqrt (Qfloor q)).

(** A search that stops at once and returns its initial guess. *)
Definition null_minimizer : Minimizer :=
  {| minimize1 f x0 := {| res_x := x0; res_success := true |};
     minimize2 f x0 := {| res_x := x0; res_success := true |} |}.

(** A direct search with a budget of one probe: it tries the point one
    unit to the right of the guess and, when that is better, returns it
    with its budget used up, that is without having converged. *)
Definition probe_minimizer : Minimizer :=
  {| minimize1 f x0 :=
       if flt (f (x0 + 1)%Q) (f x0)
       then {| res_x := (x0 + 1)%Q; res_success := false |}
       else {| res_x := x0; res_success := true |};
     minimize2 f x0 := {| res_x := x0; res_success := true |} |}.

(** A platform on which an invalid conversion to [int64] gives the least
    [int64]. *)
Definition least_int64 : Int64Cast := λ _, - 2 ^ 63.

(** A generator whose state is a counter: a draw takes the first [size]
    entries of the population rotated by the counter. *)
Definition counter_rng : Generator :=
  {| rng_state := nat;
     default_rng_state seed := Z.to_nat seed;
     choice_draw st population size :=
       (take size (rotate st (seq 0 population)), S st) |}.

(** Example tracks: [track_east] flies east along the equator, one degree
    per second; [track_fixed] stays at longitude 1 over the same two
    seconds; [track_later] is sampled after [track_east] has ended. *)
Definition track_east : track :=
  [Sample 0 (Fin 0) (Fin 0); Sample 2000000000 (Fin 0) (Fin 2)].
Definition track_fixed : track :=
  [Sample 0 (Fin 0) (Fin 1); Sample 2000000000 (Fin 0) (Fin 1)].
Definition track_later : track :=
  [Sample 5000000000 (Fin 0) (Fin 0); Sample 6000000000 (Fin 0) (Fin 1)].

(** Four samples, three of them around a circle and one far off. *)
Definition circle_track : track :=
  [Sample 0 (Fin 0) (Fin 0); Sample 1 (Fin 0) (Fin 1);
   Sample 2 (Fin 1) (Fin 0); Sample 3 (Fin 5) (Fin 5)].

(** An archive of forecasts: the track [tr] for every issue day in
    [issued], nothing for the other days. *)
Definition archive (issued : list Z) (tr : track) : Sattrack :=
  λ roi issue_date valid_date,
    if bool_decide (issue_date ∈ issued) then Ok tr
    else Err (Exn "FileNotFoundError" "no forecast issued").

(** Datetimes as microseconds since the epoch. *)
Definition microseconds : Pandas :=
  {| pydatetime := Z; timestamp_to_pydatetime dt64 := dt64 `div` 1000 |}.

(** Objects that are all true in a condition, and a selection that
    keeps the whole dataset. *)
Definition whole_flight : PyObjects :=
  {| obj_truthy _ := true; ds_sel ds _ := Ok ds |}.

(** An altitude record: on the ground in Sal, up, and down again, on
    2024-08-11; [ec_forecast] is a ground track over that day. *)
Definition hop : list alt_sample :=
  [AltSample 1723334400000000000 (Fin 89);
   AltSample 1723334460000000000 (Fin 500);
   AltSample 1723334590000000000 (Fin 3000);
   AltSample 1723334640000000000 (Fin 89)].

Definition ec_forecast : track :=
  [Sample 1723334400000000000 (Fin 10) (Fin (-25));
   Sample 1723334500000000000 (Fin 11) (Fin (-25));
   Sample 1723334700000000000 (Fin 12) (Fin (-25))].

(** An object under ["kinds"] that is one name contains that name and no
    other; tuples and dicts contain no name. *)
Definition one_kind : Containers :=
  λ v key,
    match v with
    | PyObj r => Ok (bool_decide (r = key))
    | PyTuple _ | PyDict _ => Ok false
    end.

(* ===================================================================== *)
(** ** Properties of [parse_segment] *)
(* ===================================================================== *)

Lemma parse_segment_dict d : parse_segment (PyDict d) = Ok (PyDict d).
Proof. reflexivity. Qed.

Lemma parse_segment_obj r :
  parse_segment (PyObj r) = Ok (PyDict {[ "slice" := PyObj r ]}).
Proof. reflexivity. Qed.

Lemma parse_segment_empty_tuple :
  parse_segment (PyTuple []) = Err (IndexError "index out of range").
Proof. reflexivity. Qed.

Lemma segment_keys_cases i k :
  segment_keys !! i = Some k →
  (i = 0%nat ∧ k = "slice") ∨ (i = 1%nat ∧ k = "kinds") ∨
  (i = 2%nat ∧ k = "name") ∨ (i = 3%nat ∧ k = "remarks").
Proof.
  destruct i as [|[|[|[|i]]]]; simpl; intros H; simplify_eq; auto.
Qed.

Lemma not_segment_key k :
  k ∉ segment_keys →
  k ≠ "slice" ∧ k ≠ "kinds" ∧ k ≠ "name" ∧ k ≠ "remarks".
Proof.
  unfold segment_keys. intros H.
  repeat split; intros ->; apply H; set_solver.
Qed.

Lemma parse_segment_tuple x items :
  ∃ d, parse_segment (PyTuple (x :: items)) = Ok (PyDict d) ∧
       tuple_fields (x :: items) d.
Proof.
  destruct items as [|y [|z [|w rest]]]; simpl;
    (eexists; split; [reflexivity|]); split.
  all: try (intros i k Hk; apply segment_keys_cases in Hk;
            destruct Hk as [[-> ->]|[[-> ->]|[[-> ->]|[-> ->]]]];
            vm_compute; reflexivity).
  all: intros k Hk; apply not_segment_key in Hk;
       destruct Hk as (? & ? & ? & ?);
       repeat (rewrite lookup_insert_ne by done);
       try (rewrite lookup_singleton_ne by done); try apply lookup_empty; done.
Qed.

(** C10, the claim as stated fails on the empty tuple: [segment[0]] raises
    [IndexError], so no dict with the key ["slice"] is returned for this
    tuple input. *)
Lemma parse_segment_empty_tuple_no_dict :
  parse_segment (PyTuple []) = Err (IndexError "index out of range") ∧
  ¬ (∃ d, parse_segment (PyTuple []) = Ok (PyDict d) ∧ is_Some (d !! "slice")).
Proof.
  split; [reflexivity|]. intros (d & Hd & _). discriminate Hd.
Qed.

(** C10, amended: [parse_segment] returns every dict unchanged; on a
    non-empty tuple it returns a dict binding ["slice"], ["kinds"],
    ["name"], ["remarks"] to the positions 0 to 3 that exist, and nothing
    else; on any other object it returns the dict binding ["slice"] to the
    object; on the empty tuple it raises [IndexError]; and it is
    idempotent: parsing a result again changes nothing (on the empty
    tuple both sides raise). *)
Theorem parse_segment_spec :
  (∀ d, parse_segment (PyDict d) = Ok (PyDict d)) ∧
  (∀ x items, ∃ d,
      parse_segment (PyTuple (x :: items)) = Ok (PyDict d) ∧
      tuple_fields (x :: items) d ∧ d !! "slice" = Some x) ∧
  (∀ r, parse_segment (PyObj r) = Ok (PyDict {[ "slice" := PyObj r ]})) ∧
  raises (parse_segment (PyTuple [])) "IndexError" ∧
  (∀ x, parse_segment x ≫= parse_segment = parse_segment x).
Proof.
  split_and!.
  - apply parse_segment_dict.
  - intros x items. destruct (parse_segment_tuple x items) as (d & Hd & Hf).
    exists d. split_and!; [done..|]. destruct Hf as [Hf _].
    apply (Hf 0%nat "slice"). reflexivity.
  - apply parse_segment_obj.
  - eexists. apply parse_segment_empty_tuple.
  - intros [r|[|x items]|d]; try reflexivity.
    destruct (parse_segment_tuple x items) as (d & -> & _). reflexivity.
Qed.

(* ===================================================================== *)
(** ** Comparisons, truncation and [np.argmin] *)
(* ===================================================================== *)

Lemma Qlt_bool_iff (a b : Q) : Qlt_bool a b = true ↔ (a < b)%Q.
Proof.
  unfold Qlt_bool. rewrite negb_true_iff, <- not_true_iff_false, Qle_bool_iff.
  split; [apply Qnot_le_lt | apply Qlt_not_le].
Qed.

Lemma Qlt_bool_false (a b : Q) : Qlt_bool a b = false ↔ (b <= a)%Q.
Proof.
  unfold Qlt_bool. rewrite negb_false_iff. apply Qle_bool_iff.
Qed.

Lemma fge_Fin_false (a b : Q) : negb (fge (Fin a) (Fin b)) = true ↔ (a < b)%Q.
Proof. apply Qlt_bool_iff. Qed.

(** Truncation towards zero keeps a rational between the integers that
    bound it. *)
Lemma Qtrunc_bounds (z1 z2 : Z) (q : Q) :
  (inject_Z z1 <= q)%Q → (q <= inject_Z z2)%Q → z1 ≤ Qtrunc q ≤ z2.
Proof.
  destruct q as [n d]. unfold Qle, Qtrunc, inject_Z. simpl.
  rewrite !Z.mul_1_r. intros H1 H2. split.
  - rewrite <- (Z.quot_mul z1 (Z.pos d)) by lia.
    apply Z.quot_le_mono; lia.
  - rewrite <- (Z.quot_mul z2 (Z.pos d)) by lia.
    apply Z.quot_le_mono; lia.
Qed.

Lemma argmin_scan_cons (m : Q) (mi i : nat) (x : float) (l : list float) :
  argmin_scan (Fin m) mi i (x :: l) =
  if negb (fge x (Fin m)) then argmin_scan x i (S i) l
  else argmin_scan (Fin m) mi (S i) l.
Proof. reflexivity. Qed.

Lemma argmin_scan_spec (l : list Q) : ∀ (m : Q) (mi i : nat) (r : nat),
  r = argmin_scan (Fin m) mi i (Fin <$> l) →
  (r = mi ∧ ∀ d, d ∈ l → (m <= d)%Q) ∨
  (∃ k d, r = (i + k)%nat ∧ l !! k = Some d ∧ (d < m)%Q ∧
          (∀ d', d' ∈ l → (d <= d')%Q) ∧
          (∀ j d', (j < k)%nat → l !! j = Some d' → (d < d')%Q)).
Proof.
  induction l as [|x l IH]; intros m mi i r Hr.
  - left. split; [done|]. intros d Hd. by apply elem_of_nil in Hd.
  - rewrite fmap_cons, argmin_scan_cons in Hr.
    destruct (negb (fge (Fin x) (Fin m))) eqn:Hlt.
    + apply fge_Fin_false in Hlt. right.
      destruct (IH x i (S i) r Hr) as [[-> Hall]|(k & d & -> & Hk & Hd & Hall & Hfirst)].
      * exists 0%nat, x. split_and!; [lia|done|done| |intros; lia].
        intros d' [->|Hd']%elem_of_cons; [lra|by apply Hall].
      * exists (S k), d. split_and!; [lia|done|lra| |].
        -- intros d' [->|Hd']%elem_of_cons; [lra|by apply Hall].
        -- intros [|j] d' Hj Hd'; simpl in Hd'; [simplify_eq; lra|].
           apply (Hfirst j); [lia|done].
    + apply not_true_iff_false in Hlt. rewrite fge_Fin_false in Hlt.
      apply Qnot_lt_le in Hlt.
      destruct (IH m mi (S i) r Hr) as [[-> Hall]|(k & d & -> & Hk & Hd & Hall & Hfirst)].
      * left. split; [done|].
        intros d' [->|Hd']%elem_of_cons; [done|by apply Hall].
      * right. exists (S k), d. split_and!; [lia|done|done| |].
        -- intros d' [->|Hd']%elem_of_cons; [lra|by apply Hall].
        -- intros [|j] d' Hj Hd'; simpl in Hd'; [simplify_eq; lra|].
           apply (Hfirst j); [lia|done].
Qed.

Lemma np_argmin_cons (x : float) (l : list float) :
  np_argmin (x :: l) = Ok (argmin_scan x 0 1 l).
Proof. reflexivity. Qed.

(** On finite data [np.argmin] returns the first index of a least
    element, and fails only on the empty array. *)
Lemma np_argmin_finite (l : list Q) :
  l ≠ [] →
  ∃ i d, np_argmin (Fin <$> l) = Ok i ∧ l !! i = Some d ∧
         (∀ d', d' ∈ l → (d <= d')%Q) ∧
         (∀ j d', (j < i)%nat → l !! j = Some d' → (d < d')%Q).
Proof.
  destruct l as [|x l]; [done|]. intros _.
  destruct (argmin_scan_spec l x 0%nat 1%nat _ eq_refl)
    as [[Hr Hall]|(k & d & Hr & Hk & Hd & Hall & Hfirst)].
  - exists 0%nat, x. split_and!; [by rewrite fmap_cons, np_argmin_cons, Hr|done| |intros; lia].
    intros d' [->|Hd']%elem_of_cons; [lra|by apply Hall].
  - exists (S k), d. split_and!; [by rewrite fmap_cons, np_argmin_cons, Hr|done| |].
    + intros d' [->|Hd']%elem_of_cons; [lra|by apply Hall].
    + intros [|j] d' Hj Hd'; simpl in Hd'; [simplify_eq; lra|].
      apply (Hfirst j); [lia|done].
Qed.

Lemma np_argmin_nil : np_argmin [] = Err (ValueError "attempt to get argmin of an empty sequence").
Proof. reflexivity. Qed.

Lemma subscript_fmap {A B} (f : A → B) (l : list A) i x :
  l !! i = Some x → subscript (f <$> l) i = Ok (f x).
Proof. intros H. unfold subscript. by rewrite list_lookup_fmap, H. Qed.

(* ===================================================================== *)
(** ** [get_overpass_point] *)
(* ===================================================================== *)

Lemma finite_Qof (x : float) : finite x → x = Fin (Qof x).
Proof. by destruct x. Qed.

Lemma astype_float64 `{Int64Cast} (v : float) : astype float64 v = v.
Proof. reflexivity. Qed.

Lemma astype_finite `{Int64Cast} (dt : dtype) (v : float) :
  finite v → finite (astype dt v).
Proof. by destruct dt. Qed.

(** Storing a double of small integer part in an [int64] array truncates
    it. *)
Lemma astype_int64 `{Int64Cast} (q : Q) :
  - 2 ^ 63 ≤ Qtrunc q < 2 ^ 63 →
  astype int64 (Fin q) = Fin (inject_Z (Qtrunc q)).
Proof.
  intros Hq. cbn [astype int64_of]. by rewrite bool_decide_eq_true_2.
Qed.

Section overpass_point.
Context {G : Geod} {I : Int64Cast}.

Lemma geod_dists_target (ds : track) (tlat tlon : float) :
  geod_dists (s_lon <$> ds) (s_lat <$> ds)
             (replicate (length ds) tlon) (replicate (length ds) tlat)
  = (λ s, geod_dist (s_lon s) (s_lat s) tlon tlat) <$> ds.
Proof.
  induction ds as [|s ds IH]; [done|].
  cbn [fmap list_fmap length replicate geod_dists]. f_equal. apply IH.
Qed.

Lemma get_overpass_point_unfold (ds : dataset) (tlat tlon : float) :
  get_overpass_point ds tlat tlon =
  (let dist := stored_target_dist (lon_dtype ds) tlat tlon <$> ds_track ds in
   i ← np_argmin dist;
   d ← subscript dist i;
   t ← subscript (s_time <$> ds_track ds) i;
   Ok (d, t)).
Proof.
  unfold get_overpass_point, geod_inv, np_full_like, lon_values, lat_values.
  cbn [nd_data nd_dtype].
  rewrite !length_replicate, !length_fmap.
  rewrite bool_decide_eq_true_2 by done.
  cbn [mbind result_bind]. by rewrite geod_dists_target.
Qed.

Lemma stored_target_dist_finite (dt : dtype) (tlat tlon : Q) (s : sample) :
  finite_sample s →
  stored_target_dist dt (Fin tlat) (Fin tlon) s
  = Fin (point_dist (Qof (astype dt (Fin tlat))) (Qof (astype dt (Fin tlon))) s).
Proof.
  intros [Hlat Hlon]. unfold stored_target_dist, point_dist, lat_of, lon_of.
  rewrite (finite_Qof _ Hlat), (finite_Qof _ Hlon) at 1.
  by destruct dt.
Qed.

(** The result of [get_overpass_point] on a non-empty track of finite
    positions, in terms of the samples and of the target as it is stored
    in an array of the dtype of the longitudes. *)
Lemma get_overpass_point_argmin (ds : dataset) (tlat tlon : Q) :
  finite_track (ds_track ds) →
  ds_track ds ≠ [] →
  let slat := Qof (astype (lon_dtype ds) (Fin tlat)) in
  let slon := Qof (astype (lon_dtype ds) (Fin tlon)) in
  ∃ i s,
    ds_track ds !! i = Some s ∧
    get_overpass_point ds (Fin tlat) (Fin tlon)
    = Ok (Fin (point_dist slat slon s), s_time s) ∧
    (∀ s', s' ∈ ds_track ds → (point_dist slat slon s <= point_dist slat slon s')%Q) ∧
    (∀ j s', (j < i)%nat → ds_track ds !! j = Some s' →
             (point_dist slat slon s < point_dist slat slon s')%Q).
Proof.
  intros Hfin Hne slat slon.
  assert (Hdist : stored_target_dist (lon_dtype ds) (Fin tlat) (Fin tlon)
                    <$> ds_track ds
                  = Fin <$> (point_dist slat slon <$> ds_track ds)).
  { rewrite <- list_fmap_compose. apply Forall_fmap_ext.
    eapply Forall_impl; [exact Hfin|]. intros s Hs.
    by apply stored_target_dist_finite. }
  destruct (np_argmin_finite (point_dist slat slon <$> ds_track ds))
    as (i & d & Harg & Hi & Hmin & Hfirst).
  { by destruct (ds_track ds). }
  apply list_lookup_fmap_Some in Hi as (s & -> & Hs).
  exists i, s. split_and!; [done| | |].
  - rewrite get_overpass_point_unfold. cbn zeta. rewrite Hdist, Harg.
    cbn [mbind result_bind].
    rewrite (subscript_fmap Fin (point_dist slat slon <$> ds_track ds) i
               (point_dist slat slon s)) by (by rewrite list_lookup_fmap, Hs).
    cbn [mbind result_bind].
    by rewrite (subscript_fmap s_time (ds_track ds) i s).
  - intros s' Hs'. apply Hmin. by apply list_elem_of_fmap_2.
  - intros j s' Hj Hs'. apply (Hfirst j); [done|].
    by rewrite list_lookup_fmap, Hs'.
Qed.
End overpass_point.




(** X26: [np.full_like(ds.lon.values, target_lon)] has the dtype of the
    longitudes, so on a track whose longitudes are an [int64] array the
    target is truncated before the distances are taken: on the track
    [(0,0,t0), (0,1,t1), (0,2,t2)] of whole-number coordinates with target
    [(0, 1.6)] the function returns distance 0 at [t1], the distance to
    the truncated target [(0, 1)], which is less than the distance from
    any sample to the target. *)
Theorem get_overpass_point_int64_target {G : Geod} {I : Int64Cast}
    (t0 t1 t2 : Z) :
  (geod_inv_dist 1 0 1 0 == 0)%Q →
  (0 < geod_inv_dist 0 0 1 0)%Q →
  (0 < geod_inv_dist 2 0 1 0)%Q →
  (0 < geod_inv_dist 0 0 (8 # 5) 0)%Q →
  (0 < geod_inv_dist 1 0 (8 # 5) 0)%Q →
  (0 < geod_inv_dist 2 0 (8 # 5) 0)%Q →
  let ds := Dataset [Sample t0 (Fin 0) (Fin 0); Sample t1 (Fin 0) (Fin 1);
                     Sample t2 (Fin 0) (Fin 2)] int64 int64 in
  ∃ d, get_overpass_point ds (Fin 0) (Fin (8 # 5)) = Ok (Fin d, t1) ∧
       (d == 0)%Q ∧
       ∀ s, s ∈ ds_track ds → (d < point_dist 0 (8 # 5) s)%Q.
Proof.
  intros Hzero Hleft Hright H0 H1 H2 ds.
  destruct (get_overpass_point_argmin ds 0 (8 # 5))
    as (i & s & Hi & Hres & Hmin & _).
  { repeat constructor. }
  { done. }
  cbn zeta in Hres, Hmin.
  rewrite !astype_int64 in Hres, Hmin by (by vm_compute).
  change (Qof (Fin (inject_Z (Qtrunc 0)))) with 0%Q in Hres, Hmin.
  change (Qof (Fin (inject_Z (Qtrunc (8 # 5))))) with 1%Q in Hres, Hmin.
  assert (Hmid : (point_dist 0 1 s <= geod_inv_dist 1 0 1 0)%Q).
  { apply (Hmin (Sample t1 (Fin 0) (Fin 1))). set_solver. }
  assert (Hd : ∃ d, get_overpass_point ds (Fin 0) (Fin (8 # 5)) = Ok (Fin d, t1)
                    ∧ (d == 0)%Q).
  { destruct i as [|[|[|i]]]; simpl in Hi; simplify_eq.
    - cbv [point_dist lat_of lon_of Qof s_lat s_lon] in Hmid. lra.
    - eexists. split; [exact Hres|]. exact Hzero.
    - cbv [point_dist lat_of lon_of Qof s_lat s_lon] in Hmid. lra. }
  destruct Hd as (d & Hd & Hdz). exists d. split_and!; [done..|].
  intros s' Hs'. cbv [ds ds_track] in Hs'.
  repeat (apply elem_of_cons in Hs' as [->|Hs'];
          [cbv [point_dist lat_of lon_of Qof s_lat s_lon]; lra|]).
  by apply elem_of_nil in Hs'.
Qed.

Lemma get_overpass_point_int64_target_witness :
  ∃ d, @get_overpass_point taxicab least_int64
         (Dataset [Sample 5 (Fin 0) (Fin 0); Sample 6 (Fin 0) (Fin 1);
                   Sample 7 (Fin 0) (Fin 2)] int64 int64)
         (Fin 0) (Fin (8 # 5))
       = Ok (Fin d, 6) ∧
       (d == 0)%Q ∧
       ∀ s, s ∈ [Sample 5 (Fin 0) (Fin 0); Sample 6 (Fin 0) (Fin 1);
                 Sample 7 (Fin 0) (Fin 2)] →
            (d < @point_dist taxicab 0 (8 # 5) s)%Q.
Proof.
  apply (@get_overpass_point_int64_target taxicab least_int64 5 6 7);
    reflexivity.
Defined.

(* ===================================================================== *)
(** ** Linear interpolation *)
(* ===================================================================== *)

Lemma Qeq_bool_false (a b : Q) : Qeq_bool a b = false ↔ ¬ (a == b)%Q.
Proof. rewrite <- Qeq_bool_iff. symmetry. apply not_true_iff_false. Qed.

Lemma interp1d_cons (x0 : Q) (y0 : float) (rest : list (Q * float)) (x : Q) :
  interp1d ((x0, y0) :: rest) x =
  if Qlt_bool x x0 then NaN
  else if Qeq_bool x x0 then y0
  else match rest with
       | [] => NaN
       | (x1, y1) :: _ =>
           if Qlt_bool x x1
           then fadd (fmul (fdiv (fsub y1 y0) (Fin (x1 - x0))) (Fin (x - x0))) y0
           else interp1d rest x
       end.
Proof. reflexivity. Qed.

Lemma chord_float (x0 y0 x1 y1 x : Q) :
  (x0 < x1)%Q →
  fadd (fmul (fdiv (fsub (Fin y1) (Fin y0)) (Fin (x1 - x0))) (Fin (x - x0))) (Fin y0)
  = Fin (chord x0 y0 x1 y1 x).
Proof.
  intros Hlt. unfold fdiv, fsub, flift2.
  destruct (Qeq_bool (x1 - x0) 0) eqn:Hz.
  - apply Qeq_bool_iff in Hz. lra.
  - reflexivity.
Qed.

(** Between the first and the last abscissa of increasing points the
    interpolation is finite and is the linear interpolation. *)
Lemma interp1d_inside (pts : list (Q * Q)) (x : Q) :
  Qincreasing (fst <$> pts) →
  (∃ p, pts !! 0%nat = Some p ∧ (p.1 <= x)%Q) →
  (∃ p, last pts = Some p ∧ (x <= p.1)%Q) →
  ∃ v, interp1d (lift_points pts) x = Fin v ∧ lin_interp pts x v.
Proof.
  induction pts as [|[x0 y0] rest IH]; intros Hinc (p & Hp & Hlo) (q & Hq & Hhi).
  { discriminate. }
  simpl in Hp. injection Hp as <-. simpl in Hlo.
  unfold lift_points. rewrite fmap_cons. cbn [fst snd].
  rewrite interp1d_cons.
  destruct (Qlt_bool x x0) eqn:H1.
  { apply Qlt_bool_iff in H1. lra. }
  destruct (Qeq_bool x x0) eqn:H2.
  { apply Qeq_bool_iff in H2. exists y0. split; [done|]. by constructor. }
  apply Qlt_bool_false in H1. apply Qeq_bool_false in H2.
  assert (Hx0 : (x0 < x)%Q).
  { destruct (Qlt_le_dec x0 x) as [?|Hle]; [done|].
    exfalso. apply H2. by apply Qle_antisym. }
  destruct rest as [|[x1 y1] rest].
  { simpl in Hq. injection Hq as <-. simpl in Hhi. lra. }
  rewrite fmap_cons. cbn [fst snd].
  rewrite !fmap_cons in Hinc. cbn [fst] in Hinc.
  apply StronglySorted_cons in Hinc as [Hall Hinc].
  assert (Hx01 : (x0 < x1)%Q) by (by apply Forall_cons in Hall as [? _]).
  destruct (Qlt_bool x x1) eqn:H3.
  - apply Qlt_bool_iff in H3. exists (chord x0 y0 x1 y1 x). split.
    + by apply chord_float.
    + by constructor.
  - apply Qlt_bool_false in H3.
    destruct IH as (v & Hv & Hlin).
    + exact Hinc.
    + exists (x1, y1). done.
    + exists q. split; [|done]. by rewrite last_cons_cons in Hq.
    + exists v. split; [exact Hv|]. by apply lin_interp_later.
Qed.

(** A finite interpolated value is only found between two abscissas of
    the points. *)
Lemma interp1d_Fin_bounds (xs : list (Q * float)) (x v : Q) :
  interp1d xs x = Fin v →
  ∃ p1 p2, p1 ∈ xs ∧ p2 ∈ xs ∧ (p1.1 <= x)%Q ∧ (x <= p2.1)%Q.
Proof.
  induction xs as [|[x0 y0] rest IH]; [discriminate|].
  rewrite interp1d_cons.
  destruct (Qlt_bool x x0) eqn:H1; [discriminate|].
  apply Qlt_bool_false in H1.
  destruct (Qeq_bool x x0) eqn:H2.
  { apply Qeq_bool_iff in H2. intros _.
    exists (x0, y0), (x0, y0). split_and!; [by left|by left|done|simpl; lra]. }
  destruct rest as [|[x1 y1] rest]; [discriminate|].
  destruct (Qlt_bool x x1) eqn:H3.
  - apply Qlt_bool_iff in H3. intros _.
    exists (x0, y0), (x1, y1).
    split_and!; [by left|by right; left|done|simpl; lra].
  - intros Hv. destruct (IH Hv) as (p1 & p2 & Hp1 & Hp2 & Hlo & Hhi).
    exists p1, p2. split_and!; [by right|by right|done|done].
Qed.

(* ===================================================================== *)
(** ** The coarse stage of [get_overpass_track] *)
(* ===================================================================== *)

Lemma StronglySorted_filter {A} (R : relation A) (P : A → Prop)
    `{∀ x, Decision (P x)} (l : list A) :
  StronglySorted R l → StronglySorted R (filter P l).
Proof.
  induction 1 as [|x l Hl IH Hall]; [constructor|].
  rewrite filter_cons. case_decide; [|done].
  constructor; [done|].
  apply Forall_forall. intros y [_ Hy]%list_elem_of_filter.
  by eapply Forall_forall in Hall.
Qed.

(** In an increasing list every element lies between the first and the
    last one. *)
Lemma increasing_bounds (ts : list Z) (t0 t1 t : Z) :
  increasing ts → ts !! 0%nat = Some t0 → last ts = Some t1 → t ∈ ts →
  t0 ≤ t ≤ t1.
Proof.
  intros Hinc. revert t0.
  induction Hinc as [|x l Hl IH Hall]; intros t0 H0 Hlast Ht; [done|].
  simpl in H0. injection H0 as ->.
  destruct l as [|y l].
  { simpl in Hlast. injection Hlast as ->.
    apply list_elem_of_singleton in Ht as ->. lia. }
  rewrite last_cons_cons in Hlast.
  apply elem_of_cons in Ht as [->|Ht].
  - split; [lia|].
    assert (t0 < t1); [|lia].
    eapply Forall_forall in Hall; [exact Hall|].
    by apply last_Some_elem_of.
  - specialize (IH y eq_refl Hlast Ht).
    apply Forall_cons in Hall as [Hxy _]. lia.
Qed.

Lemma time_first_last_nil :
  time_first_last [] = Err (IndexError "index out of range").
Proof. reflexivity. Qed.

Lemma time_first_last_Ok (ds : track) (t0 t1 : Z) :
  time_first_last ds = Ok (t0, t1) ↔
  (s_time <$> ds) !! 0%nat = Some t0 ∧ last (s_time <$> ds) = Some t1.
Proof.
  unfold time_first_last, subscript, subscript_last.
  destruct ((s_time <$> ds) !! 0%nat) as [a|]; cbn [mbind result_bind].
  2: { split; [discriminate|intros [? _]; discriminate]. }
  destruct (last (s_time <$> ds)) as [b|]; cbn [mbind result_bind].
  - split; [intros [= -> ->]; done|intros [[= ->] [= ->]]; done].
  - split; [discriminate|intros [_ ?]; discriminate].
Qed.

Lemma time_first_last_nonempty (ds : track) :
  ds ≠ [] → ∃ t0 t1, time_first_last ds = Ok (t0, t1).
Proof.
  intros Hne. destruct ds as [|s ds]; [done|].
  destruct (last (s_time <$> s :: ds)) as [t1|] eqn:Hl.
  - exists (s_time s), t1. by apply time_first_last_Ok.
  - by apply last_None in Hl.
Qed.

Section overpass_coarse.
Context `{Geod}.

Lemma rows_of_track_coords (ds : track) :
  r_coord <$> rows_of_track ds = s_time <$> ds.
Proof. unfold rows_of_track. by rewrite <- list_fmap_compose. Qed.

Lemma coarse_dists (a_sel b_track : track) :
  let a := rows_of_track a_sel in
  let b := interp_onto (rows_of_track b_track) (r_coord <$> a) in
  geod_inv (r_lon <$> b) (r_lat <$> b) (r_lon <$> a) (r_lat <$> a)
  = Ok (resampled_dist b_track <$> a_sel).
Proof.
  intros a b. unfold geod_inv.
  rewrite bool_decide_eq_true_2.
  2: { unfold b, a, interp_onto, rows_of_track. by rewrite !length_fmap. }
  f_equal. unfold b, a. clear a b.
  induction a_sel as [|s a_sel IH]; [done|].
  cbn [rows_of_track fmap list_fmap interp_onto geod_dists] in *.
  f_equal. apply IH.
Qed.

Lemma overpass_coarse_unfold (a_track b_track : track) (b0 b1 : Z) :
  time_first_last b_track = Ok (b0, b1) →
  overpass_coarse a_track b_track =
  (let a_sel := sel_time a_track b0 b1 in
   i ← np_argmin (resampled_dist b_track <$> a_sel);
   Ok (rows_of_track a_sel,
       interp_onto (rows_of_track b_track) (r_coord <$> rows_of_track a_sel),
       resampled_dist b_track <$> a_sel, i)).
Proof.
  intros Hb. unfold overpass_coarse. rewrite Hb. cbn [mbind result_bind].
  by rewrite coarse_dists.
Qed.

(** When no sample of [a_track] lies in the window of [b_track] the
    coarse stage fails in [argmin]. *)
Lemma overpass_coarse_empty (a_track b_track : track) (b0 b1 : Z) :
  time_first_last b_track = Ok (b0, b1) →
  (∀ s, s ∈ a_track → s_time s < b0 ∨ b1 < s_time s) →
  overpass_coarse a_track b_track
  = Err (ValueError "attempt to get argmin of an empty sequence").
Proof.
  intros Hb Hout. rewrite (overpass_coarse_unfold _ _ _ _ Hb). cbn zeta.
  assert (sel_time a_track b0 b1 = []) as ->; [|done].
  unfold sel_time. induction a_track as [|s l IH]; [done|].
  rewrite filter_cons_False.
  - apply IH. intros s' Hs'. apply Hout. by right.
  - destruct (Hout s); [by left|lia..].
Qed.
End overpass_coarse.

(* ===================================================================== *)
(** ** [get_overpass_track]: tracks that do not overlap *)
(* ===================================================================== *)

(** C3, the claim as stated fails: for two tracks whose time spans do not
    overlap the call does fail, but with the [ValueError] the library
    raises on the empty restriction, not with an [EmptyOverlap]
    condition. *)
Lemma get_overpass_track_no_EmptyOverlap :
  raises (@get_overpass_track taxicab null_minimizer track_east track_later true)
         "ValueError" ∧
  ¬ raises (@get_overpass_track taxicab null_minimizer track_east track_later true)
           "EmptyOverlap".
Proof.
  split; [by eexists|]. intros [msg Hmsg]. discriminate Hmsg.
Qed.

(** C3, amended: when no sample of [a_track] lies in the time window of
    [b_track] (in particular when the time spans do not overlap),
    [get_overpass_track] returns no result for either [optimize] setting:
    a [ValueError] leaves the library calls on the empty restriction
    (here [argmin] on the empty distance array). *)
Theorem get_overpass_track_no_overlap `{Geod} `{Minimizer}
    (a_track b_track : track) (optimize : bool) (b0 b1 : Z) :
  increasing (s_time <$> a_track) →
  time_first_last b_track = Ok (b0, b1) →
  (∀ s, s ∈ a_track → s_time s < b0 ∨ b1 < s_time s) →
  raises (get_overpass_track a_track b_track optimize) "ValueError".
Proof.
  intros _ Hb Hout. unfold get_overpass_track.
  rewrite (overpass_coarse_empty _ _ _ _ Hb Hout). by eexists.
Qed.

Lemma get_overpass_track_no_overlap_witness :
  raises (@get_overpass_track taxicab null_minimizer track_east track_later false)
         "ValueError".
Proof.
  apply (@get_overpass_track_no_overlap taxicab null_minimizer
           track_east track_later false 5000000000 6000000000).
  - repeat constructor.
  - reflexivity.
  - intros s Hs. unfold track_east in Hs.
    apply elem_of_cons in Hs as [->|Hs]; [simpl; lia|].
    apply list_elem_of_singleton in Hs as ->. simpl. lia.
Defined.

(* ===================================================================== *)
(** ** [get_overpass_track]: the coarse estimate *)
(* ===================================================================== *)

Lemma Qincreasing_times (ds : track) :
  increasing (s_time <$> ds) →
  Qincreasing ((λ s, inject_Z (s_time s)) <$> ds).
Proof.
  intros Hinc. rewrite (list_fmap_compose s_time inject_Z).
  eapply (StronglySorted_fmap _ Z.lt Qlt); [|exact Hinc].
  intros x y Hxy. by rewrite <- Zlt_Qlt.
Qed.

Lemma track_points_fst (f : sample → Q) (ds : track) :
  fst <$> track_points f ds = (λ s, inject_Z (s_time s)) <$> ds.
Proof. unfold track_points. by rewrite <- list_fmap_compose. Qed.

Lemma finite_sample_coords (s : sample) :
  finite_sample s → s_lat s = Fin (lat_of s) ∧ s_lon s = Fin (lon_of s).
Proof. intros [Hlat Hlon]. split; by apply finite_Qof. Qed.

Lemma finite_track_elem (ds : track) (s : sample) :
  finite_track ds → s ∈ ds → finite_sample s.
Proof. intros Hfin Hs. by eapply Forall_forall in Hfin. Qed.

Lemma finite_track_sel (ds : track) (lo hi : Z) :
  finite_track ds → finite_track (sel_time ds lo hi).
Proof.
  intros Hfin. apply Forall_forall. intros s Hs.
  apply list_elem_of_filter in Hs as [_ Hs]. by eapply finite_track_elem.
Qed.

(** The rows of a track of finite positions. *)
Lemma rows_of_finite_track (ds : track) :
  finite_track ds →
  rows_of_track ds
  = (λ s, Row (s_time s) (Fin (lat_of s)) (Fin (lon_of s))) <$> ds.
Proof.
  intros Hfin. unfold rows_of_track. apply Forall_fmap_ext.
  eapply Forall_impl; [exact Hfin|].
  intros s [-> ->]%finite_sample_coords. done.
Qed.

Lemma resampled_unfold (b_track : track) (sa : sample) :
  finite_track b_track →
  resampled b_track sa =
  (interp1d (lift_points (track_points lat_of b_track)) (inject_Z (s_time sa)),
   interp1d (lift_points (track_points lon_of b_track)) (inject_Z (s_time sa))).
Proof.
  intros Hfin. unfold resampled, interp_at.
  rewrite rows_of_finite_track by done.
  unfold lift_points, track_points.
  by rewrite <- !list_fmap_compose.
Qed.

(** Inside the window of an increasing track of finite positions the
    resampled position is finite and is the linear interpolation of the
    track. *)
Lemma resampled_inside (b_track : track) (b0 b1 : Z) (sa : sample) :
  finite_track b_track →
  increasing (s_time <$> b_track) →
  time_first_last b_track = Ok (b0, b1) →
  b0 ≤ s_time sa ≤ b1 →
  ∃ la lo,
    resampled b_track sa = (Fin la, Fin lo) ∧
    lin_interp (track_points lat_of b_track) (inject_Z (s_time sa)) la ∧
    lin_interp (track_points lon_of b_track) (inject_Z (s_time sa)) lo.
Proof.
  intros Hfin Hinc [H0 H1]%time_first_last_Ok Hin.
  assert (Hside : ∀ f : sample → Q,
    ∃ v, interp1d (lift_points (track_points f b_track)) (inject_Z (s_time sa))
         = Fin v ∧
         lin_interp (track_points f b_track) (inject_Z (s_time sa)) v).
  { intros f. apply interp1d_inside.
    - rewrite track_points_fst. by apply Qincreasing_times.
    - rewrite list_lookup_fmap in H0.
      destruct (b_track !! 0%nat) as [s0|] eqn:Hs0; [|done].
      injection H0 as <-. exists (inject_Z (s_time s0), f s0). split.
      + unfold track_points. by rewrite list_lookup_fmap, Hs0.
      + simpl. rewrite <- Zle_Qle. lia.
    - rewrite fmap_last in H1.
      destruct (last b_track) as [s1|] eqn:Hs1; [|done].
      injection H1 as <-. exists (inject_Z (s_time s1), f s1). split.
      + unfold track_points. by rewrite fmap_last, Hs1.
      + simpl. rewrite <- Zle_Qle. lia. }
  destruct (Hside lat_of) as (la & Hla & Hlin_la).
  destruct (Hside lon_of) as (lo & Hlo & Hlin_lo).
  exists la, lo. split_and!; [|done..].
  by rewrite resampled_unfold, Hla, Hlo.
Qed.

Section coarse_estimate.
Context `{Geod}.

(** The coarse estimate on overlapping tracks of finite positions, in
    terms of the samples. *)
Lemma overpass_coarse_argmin (a_track b_track : track) (b0 b1 : Z) :
  finite_track a_track →
  finite_track b_track →
  increasing (s_time <$> b_track) →
  time_first_last b_track = Ok (b0, b1) →
  sel_time a_track b0 b1 ≠ [] →
  ∃ i sa la lo,
    sel_time a_track b0 b1 !! i = Some sa ∧
    resampled b_track sa = (Fin la, Fin lo) ∧
    lin_interp (track_points lat_of b_track) (inject_Z (s_time sa)) la ∧
    lin_interp (track_points lon_of b_track) (inject_Z (s_time sa)) lo ∧
    resampled_dist b_track sa = Fin (geod_inv_dist lo la (lon_of sa) (lat_of sa)) ∧
    overpass_coarse a_track b_track
    = Ok (rows_of_track (sel_time a_track b0 b1),
          interp_onto (rows_of_track b_track)
                      (r_coord <$> rows_of_track (sel_time a_track b0 b1)),
          resampled_dist b_track <$> sel_time a_track b0 b1, i) ∧
    (∀ sa', sa' ∈ sel_time a_track b0 b1 →
       ∃ la' lo',
         lin_interp (track_points lat_of b_track) (inject_Z (s_time sa')) la' ∧
         lin_interp (track_points lon_of b_track) (inject_Z (s_time sa')) lo' ∧
         (geod_inv_dist lo la (lon_of sa) (lat_of sa)
          <= geod_inv_dist lo' la' (lon_of sa') (lat_of sa'))%Q) ∧
    (∀ j sa', (j < i)%nat → sel_time a_track b0 b1 !! j = Some sa' →
       ∃ q', resampled_dist b_track sa' = Fin q' ∧
             (geod_inv_dist lo la (lon_of sa) (lat_of sa) < q')%Q).
Proof.
  intros Hfin_a Hfin_b Hinc Hb Hne.
  set (a_sel := sel_time a_track b0 b1) in *.
  set (qd := λ sa, Qof (resampled_dist b_track sa)).
  assert (Hwin : ∀ sa, sa ∈ a_sel → b0 ≤ s_time sa ≤ b1).
  { intros sa Hsa. unfold a_sel, sel_time in Hsa.
    by apply list_elem_of_filter in Hsa as [? _]. }
  assert (Hfin : ∀ sa, sa ∈ a_sel →
    ∃ la lo, resampled b_track sa = (Fin la, Fin lo) ∧
      lin_interp (track_points lat_of b_track) (inject_Z (s_time sa)) la ∧
      lin_interp (track_points lon_of b_track) (inject_Z (s_time sa)) lo ∧
      resampled_dist b_track sa = Fin (qd sa) ∧
      qd sa = geod_inv_dist lo la (lon_of sa) (lat_of sa)).
  { intros sa Hsa.
    destruct (resampled_inside b_track b0 b1 sa Hfin_b Hinc Hb (Hwin sa Hsa))
      as (la & lo & Hr & Hla & Hlo).
    assert (Hsa_fin : finite_sample sa).
    { apply (finite_track_elem a_sel); [by apply finite_track_sel|done]. }
    apply finite_sample_coords in Hsa_fin as [Hlat Hlon].
    exists la, lo. split_and!; [done..| |];
      unfold qd, resampled_dist; by rewrite Hr, Hlat, Hlon. }
  assert (Hdist : resampled_dist b_track <$> a_sel = Fin <$> (qd <$> a_sel)).
  { rewrite <- list_fmap_compose. apply Forall_fmap_ext, Forall_forall.
    intros sa Hsa. by destruct (Hfin sa Hsa) as (? & ? & _ & _ & _ & -> & _). }
  destruct (np_argmin_finite (qd <$> a_sel))
    as (i & d & Harg & Hi & Hmin & Hfirst).
  { by destruct a_sel. }
  apply list_lookup_fmap_Some in Hi as (sa & -> & Hsa).
  assert (Hsa_in : sa ∈ a_sel) by (by eapply list_elem_of_lookup_2).
  destruct (Hfin sa Hsa_in) as (la & lo & Hr & Hla & Hlo & Hd & Hq).
  exists i, sa, la, lo. split_and!; [done..| | | |].
  - by rewrite Hd, Hq.
  - rewrite (overpass_coarse_unfold _ _ _ _ Hb). cbn zeta.
    fold a_sel. by rewrite Hdist, Harg.
  - intros sa' Hsa'.
    destruct (Hfin sa' Hsa') as (la' & lo' & _ & Hla' & Hlo' & _ & Hq').
    exists la', lo'. split_and!; [done..|].
    rewrite <- Hq, <- Hq'. apply Hmin. by apply list_elem_of_fmap_2.
  - intros j sa' Hj Hsa'. exists (qd sa'). split.
    + assert (Hin : sa' ∈ a_sel) by (by eapply list_elem_of_lookup_2).
      by destruct (Hfin sa' Hin) as (? & ? & _ & _ & _ & -> & _).
    + rewrite <- Hq. apply (Hfirst j); [done|].
      by rewrite list_lookup_fmap, Hsa'.
Qed.
End coarse_estimate.

(** C6: for tracks A and B that overlap, [get_overpass_track] keeps the
    samples of A whose time lies between the first and the last timestamp
    of B, resamples B at their times by linear interpolation, and with
    [optimize=false] returns the least of the geodesic distances between
    a kept sample and the resampled position, with that sample's time.
    The positions are finite, so that the distances are numbers. *)
Theorem get_overpass_track_coarse `{Geod} `{Minimizer}
    (a_track b_track : track) (b0 b1 : Z) :
  finite_track a_track →
  finite_track b_track →
  increasing (s_time <$> a_track) →
  increasing (s_time <$> b_track) →
  time_first_last b_track = Ok (b0, b1) →
  sel_time a_track b0 b1 ≠ [] →
  (∀ s, s ∈ sel_time a_track b0 b1 ↔ s ∈ a_track ∧ b0 ≤ s_time s ≤ b1) ∧
  ∃ i sa la lo,
    sel_time a_track b0 b1 !! i = Some sa ∧
    lin_interp (track_points lat_of b_track) (inject_Z (s_time sa)) la ∧
    lin_interp (track_points lon_of b_track) (inject_Z (s_time sa)) lo ∧
    get_overpass_track a_track b_track false
    = Ok (Fin (geod_inv_dist lo la (lon_of sa) (lat_of sa)), s_time sa) ∧
    (∀ sa', sa' ∈ sel_time a_track b0 b1 →
       ∃ la' lo',
         lin_interp (track_points lat_of b_track) (inject_Z (s_time sa')) la' ∧
         lin_interp (track_points lon_of b_track) (inject_Z (s_time sa')) lo' ∧
         (geod_inv_dist lo la (lon_of sa) (lat_of sa)
          <= geod_inv_dist lo' la' (lon_of sa') (lat_of sa'))%Q).
Proof.
  intros Hfin_a Hfin_b _ Hinc Hb Hne. split.
  { intros s. unfold sel_time. rewrite list_elem_of_filter. tauto. }
  destruct (overpass_coarse_argmin a_track b_track b0 b1 Hfin_a Hfin_b Hinc Hb Hne)
    as (i & sa & la & lo & Hsa & Hr & Hla & Hlo & Hd & Hc & Hmin & _).
  exists i, sa, la, lo. split_and!; [done..| |done].
  unfold get_overpass_track. rewrite Hc. cbn [mbind result_bind].
  rewrite (subscript_fmap (resampled_dist b_track) _ i sa Hsa).
  cbn [mbind result_bind].
  rewrite rows_of_track_coords, (subscript_fmap s_time _ i sa Hsa).
  cbn [mbind result_bind]. by rewrite Hd.
Qed.

Lemma get_overpass_track_coarse_witness :
  ∃ i sa la lo,
    sel_time track_east 0 2000000000 !! i = Some sa ∧
    lin_interp (track_points lat_of track_fixed) (inject_Z (s_time sa)) la ∧
    lin_interp (track_points lon_of track_fixed) (inject_Z (s_time sa)) lo ∧
    @get_overpass_track taxicab null_minimizer track_east track_fixed false
    = Ok (Fin (@geod_inv_dist taxicab lo la (lon_of sa) (lat_of sa)), s_time sa) ∧
    (∀ sa', sa' ∈ sel_time track_east 0 2000000000 →
       ∃ la' lo',
         lin_interp (track_points lat_of track_fixed) (inject_Z (s_time sa')) la' ∧
         lin_interp (track_points lon_of track_fixed) (inject_Z (s_time sa')) lo' ∧
         (@geod_inv_dist taxicab lo la (lon_of sa) (lat_of sa)
          <= @geod_inv_dist taxicab lo' la' (lon_of sa') (lat_of sa'))%Q).
Proof.
  refine (proj2 (@get_overpass_track_coarse taxicab null_minimizer
                   track_east track_fixed 0 2000000000 _ _ _ _ _ _)).
  - repeat constructor.
  - repeat constructor.
  - repeat constructor.
  - repeat constructor.
  - reflexivity.
  - discriminate.
Defined.

(* ===================================================================== *)
(** ** [get_overpass_track]: the refinement stage *)
(* ===================================================================== *)

Lemma finite_points (xs : list (Q * float)) :
  Forall (λ p, finite p.2) xs → ∃ pts, xs = lift_points pts.
Proof.
  induction 1 as [|[x y] xs Hy _ [pts ->]].
  - by exists [].
  - destruct y as [q|]; [|done]. by exists ((x, q) :: pts).
Qed.

Lemma lift_points_fst (pts : list (Q * Q)) :
  fst <$> lift_points pts = fst <$> pts.
Proof. unfold lift_points. by rewrite <- list_fmap_compose. Qed.

(** Finite data on increasing abscissas interpolate to a finite value
    between the first and the last abscissa. *)
Lemma interp1d_finite (xs : list (Q * float)) (x c0 c1 : Q) :
  Qincreasing (fst <$> xs) →
  Forall (λ p, finite p.2) xs →
  (fst <$> xs) !! 0%nat = Some c0 → last (fst <$> xs) = Some c1 →
  (c0 <= x)%Q → (x <= c1)%Q →
  ∃ v, interp1d xs x = Fin v.
Proof.
  intros Hinc [pts ->]%finite_points H0 H1 Hlo Hhi.
  rewrite lift_points_fst in Hinc, H0, H1.
  destruct (interp1d_inside pts x Hinc) as (v & Hv & _).
  - rewrite list_lookup_fmap in H0.
    destruct (pts !! 0%nat) as [p|]; [|done].
    injection H0 as <-. by exists p.
  - rewrite fmap_last in H1. destruct (last pts) as [p|]; [|done].
    injection H1 as <-. by exists p.
  - by exists v.
Qed.

(** The time axis in seconds from [t_guess]. *)
Lemma seconds_from_coords (t_guess : Z) (ds : list (row Z)) :
  r_coord <$> seconds_from t_guess ds
  = (λ t, inject_Z (t - t_guess) / inject_Z t_unit)%Q <$> (r_coord <$> ds).
Proof. unfold seconds_from. by rewrite <- !list_fmap_compose. Qed.

Lemma seconds_le (t_guess t : Z) (x : Q) :
  ((inject_Z (t - t_guess) / inject_Z t_unit <= x)%Q ↔
   (inject_Z (t - t_guess) <= x * inject_Z t_unit)%Q) ∧
  ((x <= inject_Z (t - t_guess) / inject_Z t_unit)%Q ↔
   (x * inject_Z t_unit <= inject_Z (t - t_guess))%Q).
Proof.
  assert (Hu : (0 < inject_Z t_unit)%Q) by reflexivity.
  assert (E : (inject_Z (t - t_guess) / inject_Z t_unit * inject_Z t_unit
               == inject_Z (t - t_guess))%Q).
  { apply Qdiv_mult_l. discriminate. }
  split.
  - rewrite <- (Qmult_le_r _ _ _ Hu). by rewrite E.
  - rewrite <- (Qmult_le_r _ _ _ Hu). by rewrite E.
Qed.

Lemma seconds_lt (t_guess t t' : Z) :
  t < t' →
  (inject_Z (t - t_guess) / inject_Z t_unit
   < inject_Z (t' - t_guess) / inject_Z t_unit)%Q.
Proof.
  intros Hlt. unfold Qdiv. apply Qmult_lt_compat_r; [reflexivity|].
  rewrite <- Zlt_Qlt. lia.
Qed.

Lemma seconds_from_increasing (t_guess : Z) (ds : list (row Z)) :
  increasing (r_coord <$> ds) →
  Qincreasing (r_coord <$> seconds_from t_guess ds).
Proof.
  intros Hinc. rewrite seconds_from_coords.
  eapply (StronglySorted_fmap _ Z.lt Qlt); [|exact Hinc].
  intros t t'. apply seconds_lt.
Qed.

Lemma interp_at_finite (rs : list (row Q)) (x c0 c1 : Q) :
  Qincreasing (r_coord <$> rs) →
  Forall (λ r, finite (r_lat r) ∧ finite (r_lon r)) rs →
  (r_coord <$> rs) !! 0%nat = Some c0 → last (r_coord <$> rs) = Some c1 →
  (c0 <= x)%Q → (x <= c1)%Q →
  ∃ la lo, interp_at id rs x = (Fin la, Fin lo).
Proof.
  intros Hinc Hfin H0 H1 Hlo Hhi. unfold interp_at.
  assert (Hc : ∀ f : row Q → float,
            fst <$> ((λ r, (id (r_coord r), f r)) <$> rs) = r_coord <$> rs)
    by (intros f; by rewrite <- list_fmap_compose).
  destruct (interp1d_finite ((λ r, (id (r_coord r), r_lat r)) <$> rs) x c0 c1)
    as [la ->]; try (by rewrite Hc); try done.
  { apply Forall_fmap. eapply Forall_impl; [exact Hfin|]. by intros r [? _]. }
  destruct (interp1d_finite ((λ r, (id (r_coord r), r_lon r)) <$> rs) x c0 c1)
    as [lo ->]; try (by rewrite Hc); try done.
  { apply Forall_fmap. eapply Forall_impl; [exact Hfin|]. by intros r [_ ?]. }
  by exists la, lo.
Qed.

Lemma interp_onto_rows (a_sel b_track : track) :
  interp_onto (rows_of_track b_track) (r_coord <$> rows_of_track a_sel)
  = (λ sa, Row (s_time sa) (resampled b_track sa).1 (resampled b_track sa).2)
      <$> a_sel.
Proof.
  unfold interp_onto. rewrite rows_of_track_coords, <- list_fmap_compose.
  apply list_fmap_ext. intros i sa _. reflexivity.
Qed.

Lemma geod_dist_Fin `{Geod} (lon1 lat1 lon2 lat2 : float) (q : Q) :
  geod_dist lon1 lat1 lon2 lat2 = Fin q →
  ∃ x1 y1 x2 y2,
    lon1 = Fin x1 ∧ lat1 = Fin y1 ∧ lon2 = Fin x2 ∧ lat2 = Fin y2 ∧
    q = geod_inv_dist x1 y1 x2 y2.
Proof.
  destruct lon1 as [x1|], lat1 as [y1|], lon2 as [x2|], lat2 as [y2|];
    try discriminate.
  intros [= <-]. by exists x1, y1, x2, y2.
Qed.

Lemma fle_true_Fin (x y : float) : fle x y = true → ∃ q, x = Fin q.
Proof. destruct x as [q|]; [by exists q|discriminate]. Qed.

Lemma first_last_exist {A} (l : list A) (i : nat) (x : A) :
  l !! i = Some x → ∃ x0 x1, l !! 0%nat = Some x0 ∧ last l = Some x1.
Proof.
  intros Hi. destruct l as [|x0 l]; [done|].
  destruct (last (x0 :: l)) as [x1|] eqn:Hl.
  - by exists x0, x1.
  - by apply last_None in Hl.
Qed.

Section refinement.
Context {G : Geod} {M : Minimizer}.

Lemma shifted_bounds (t_guess : Z) (ds : list (row Z)) (i : nat) (r : row Z) :
  increasing (r_coord <$> ds) →
  ds !! i = Some r → r_coord r = t_guess →
  ∃ c0 c1,
    (r_coord <$> seconds_from t_guess ds) !! 0%nat = Some c0 ∧
    last (r_coord <$> seconds_from t_guess ds) = Some c1 ∧
    (c0 <= 0)%Q ∧ (0 <= c1)%Q.
Proof.
  intros Hinc Hi Hr.
  destruct (first_last_exist (r_coord <$> ds) i t_guess) as (t0 & t1 & H0 & H1).
  { by rewrite list_lookup_fmap, Hi, <- Hr. }
  assert (Hb : t0 ≤ t_guess ≤ t1).
  { apply (increasing_bounds (r_coord <$> ds)); [done..|].
    apply list_elem_of_fmap. exists r. split; [done|].
    by eapply list_elem_of_lookup_2. }
  rewrite seconds_from_coords.
  exists (inject_Z (t0 - t_guess) / inject_Z t_unit)%Q,
         (inject_Z (t1 - t_guess) / inject_Z t_unit)%Q.
  split_and!.
  - by rewrite list_lookup_fmap, H0.
  - by rewrite fmap_last, H1.
  - apply seconds_le. rewrite Qmult_0_l. change 0%Q with (inject_Z 0).
    rewrite <- Zle_Qle. lia.
  - apply seconds_le. rewrite Qmult_0_l. change 0%Q with (inject_Z 0).
    rewrite <- Zle_Qle. lia.
Qed.

(** At the coarse estimate the cost function is finite. *)
Lemma overpass_cost_start (a_sel b_track : track) (b0 b1 : Z) (i : nat)
    (sa : sample) :
  finite_track a_sel →
  finite_track b_track →
  increasing (s_time <$> a_sel) →
  increasing (s_time <$> b_track) →
  time_first_last b_track = Ok (b0, b1) →
  (∀ s, s ∈ a_sel → b0 ≤ s_time s ≤ b1) →
  a_sel !! i = Some sa →
  finite (overpass_cost (shifted_a (s_time sa) a_sel)
                        (shifted_b (s_time sa) a_sel b_track) 0).
Proof.
  intros Hfin_a Hfin_b Hinc_a Hinc_b Hb Hwin Hi. unfold overpass_cost.
  destruct (shifted_bounds (s_time sa) (rows_of_track a_sel) i
              (Row (s_time sa) (s_lat sa) (s_lon sa)))
    as (c0 & c1 & H0 & H1 & Hlo & Hhi).
  { by rewrite rows_of_track_coords. }
  { unfold rows_of_track. by rewrite list_lookup_fmap, Hi. }
  { done. }
  destruct (interp_at_finite (shifted_a (s_time sa) a_sel) 0 c0 c1)
    as (la & lo & ->); try done.
  { apply seconds_from_increasing. by rewrite rows_of_track_coords. }
  { unfold shifted_a, seconds_from, rows_of_track.
    rewrite <- list_fmap_compose. apply Forall_fmap.
    eapply Forall_impl; [exact Hfin_a|]. by intros s Hs. }
  destruct (shifted_bounds (s_time sa)
              (interp_onto (rows_of_track b_track)
                           (r_coord <$> rows_of_track a_sel)) i
              (Row (s_time sa) (resampled b_track sa).1 (resampled b_track sa).2))
    as (c0' & c1' & H0' & H1' & Hlo' & Hhi').
  { rewrite interp_onto_rows, <- list_fmap_compose. exact Hinc_a. }
  { by rewrite interp_onto_rows, list_lookup_fmap, Hi. }
  { done. }
  destruct (interp_at_finite (shifted_b (s_time sa) a_sel b_track) 0 c0' c1')
    as (la' & lo' & ->); try done.
  { apply seconds_from_increasing.
    rewrite interp_onto_rows, <- list_fmap_compose. exact Hinc_a. }
  { unfold shifted_b, seconds_from. rewrite interp_onto_rows.
    rewrite <- list_fmap_compose. apply Forall_fmap, Forall_forall.
    intros s Hs. cbn [compose r_lat r_lon].
    destruct (resampled_inside b_track b0 b1 s Hfin_b Hinc_b Hb (Hwin s Hs))
      as (ya & yo & -> & _). done. }
Qed.

(** A point where the cost function is finite lies, in seconds, between
    the times of two kept samples. *)
Lemma overpass_cost_Fin_bounds (a_sel b_track : track) (t_guess : Z) (x q : Q) :
  overpass_cost (shifted_a t_guess a_sel) (shifted_b t_guess a_sel b_track) x
  = Fin q →
  (∃ lon1 lat1 lon2 lat2, q = geod_inv_dist lon1 lat1 lon2 lat2) ∧
  ∃ s1 s2, s1 ∈ a_sel ∧ s2 ∈ a_sel ∧
    s_time s1 ≤ t_guess + Qtrunc (x * inject_Z t_unit) ≤ s_time s2.
Proof.
  unfold overpass_cost.
  intros (x1 & y1 & x2 & y2 & _ & _ & _ & Hlat & ->)%geod_dist_Fin.
  split; [by eauto 10|].
  unfold interp_at in Hlat. cbn [fst] in Hlat.
  apply interp1d_Fin_bounds in Hlat as (p1 & p2 & Hp1 & Hp2 & Hlo & Hhi).
  assert (Hpt : ∀ p, p ∈ (λ r, (id (r_coord r), r_lat r))
                          <$> shifted_a t_guess a_sel →
            ∃ s, s ∈ a_sel ∧
                 p.1 = (inject_Z (s_time s - t_guess) / inject_Z t_unit)%Q).
  { intros p Hp. unfold shifted_a, seconds_from, rows_of_track in Hp.
    rewrite <- !list_fmap_compose in Hp.
    apply list_elem_of_fmap in Hp as (s & -> & Hs). by exists s. }
  destruct (Hpt p1 Hp1) as (s1 & Hs1 & E1).
  destruct (Hpt p2 Hp2) as (s2 & Hs2 & E2).
  exists s1, s2. split; [done|]. split; [done|].
  rewrite E1 in Hlo. rewrite E2 in Hhi.
  apply seconds_le in Hlo. apply seconds_le in Hhi.
  pose proof (Qtrunc_bounds _ _ _ Hlo Hhi). lia.
Qed.
End refinement.

Lemma sel_time_increasing (ds : track) (lo hi : Z) :
  increasing (s_time <$> ds) → increasing (s_time <$> sel_time ds lo hi).
Proof.
  unfold increasing, sel_time. induction ds as [|s ds IH]; [done|].
  rewrite fmap_cons. intros [Hall Hinc]%StronglySorted_cons.
  rewrite filter_cons. case_decide; [|by apply IH].
  rewrite fmap_cons. apply StronglySorted_cons. split; [|by apply IH].
  apply Forall_forall. intros t (s' & -> & Hs')%list_elem_of_fmap.
  apply list_elem_of_filter in Hs' as [_ Hs'].
  eapply Forall_forall in Hall; [exact Hall|]. by apply list_elem_of_fmap_2.
Qed.

Lemma sample_time_bounds (ds : track) (s : sample) :
  increasing (s_time <$> ds) → s ∈ ds →
  ∃ t0 t1, time_first_last ds = Ok (t0, t1) ∧ t0 ≤ s_time s ≤ t1.
Proof.
  intros Hinc Hs.
  destruct (time_first_last_nonempty ds) as (t0 & t1 & Ht).
  { intros ->. by apply elem_of_nil in Hs. }
  exists t0, t1. split; [done|].
  apply time_first_last_Ok in Ht as [H0 H1].
  apply (increasing_bounds (s_time <$> ds)); [done..|].
  by apply list_elem_of_fmap_2.
Qed.

(** A successful call of [get_overpass_track] returns a finite distance
    of the geodesic solver and a time between the times of two kept
    samples. *)
Lemma get_overpass_track_Ok {G : Geod} {M : Minimizer}
    (a_track b_track : track) (optimize : bool) (d : float) (t : Z) :
  (∀ f x0, finite (f x0) → fle (f (res_x (minimize1 f x0))) (f x0) = true) →
  finite_track a_track →
  finite_track b_track →
  increasing (s_time <$> a_track) →
  increasing (s_time <$> b_track) →
  get_overpass_track a_track b_track optimize = Ok (d, t) →
  ∃ b0 b1 s1 s2 lon1 lat1 lon2 lat2,
    time_first_last b_track = Ok (b0, b1) ∧
    s1 ∈ sel_time a_track b0 b1 ∧ s2 ∈ sel_time a_track b0 b1 ∧
    s_time s1 ≤ t ≤ s_time s2 ∧
    d = Fin (geod_inv_dist lon1 lat1 lon2 lat2).
Proof.
  intros Hdesc Hfin_a Hfin_b Hinc_a Hinc_b Hres.
  destruct (time_first_last b_track) as [[b0 b1]|e] eqn:Hb.
  2: { unfold get_overpass_track, overpass_coarse in Hres.
       rewrite Hb in Hres. discriminate. }
  destruct (decide (sel_time a_track b0 b1 = [])) as [Hnil|Hne].
  { unfold get_overpass_track in Hres.
    rewrite (overpass_coarse_unfold _ _ _ _ Hb) in Hres. cbn zeta in Hres.
    rewrite Hnil in Hres. discriminate. }
  destruct (overpass_coarse_argmin a_track b_track b0 b1 Hfin_a Hfin_b Hinc_b Hb Hne)
    as (i & sa & la & lo & Hsa & Hr & _ & _ & Hd & Hc & _).
  assert (Hsa_in : sa ∈ sel_time a_track b0 b1)
    by (by eapply list_elem_of_lookup_2).
  assert (Hsub : subscript (r_coord <$> rows_of_track (sel_time a_track b0 b1)) i
                 = Ok (s_time sa)).
  { rewrite rows_of_track_coords. by apply subscript_fmap. }
  exists b0, b1.
  unfold get_overpass_track in Hres. rewrite Hc in Hres.
  cbn [mbind result_bind] in Hres. destruct optimize.
  - unfold overpass_minimize in Hres. rewrite Hsub in Hres.
    cbn [mbind result_bind] in Hres. injection Hres as <- <-.
    assert (Hfin0 : finite (overpass_cost
              (seconds_from (s_time sa) (rows_of_track (sel_time a_track b0 b1)))
              (seconds_from (s_time sa)
                 (interp_onto (rows_of_track b_track)
                    (r_coord <$> rows_of_track (sel_time a_track b0 b1)))) 0)).
    { apply (overpass_cost_start (sel_time a_track b0 b1) b_track b0 b1 i sa);
        [by apply finite_track_sel|done|by apply sel_time_increasing|done|done| |done].
      intros s Hs. unfold sel_time in Hs.
      by apply list_elem_of_filter in Hs as [? _]. }
    apply Hdesc in Hfin0 as Hdesc'.
    apply fle_true_Fin in Hdesc' as [q Hq].
    destruct (overpass_cost_Fin_bounds _ _ _ _ _ Hq)
      as [(lon1 & lat1 & lon2 & lat2 & ->) (s1 & s2 & Hs1 & Hs2 & Ht)].
    exists s1, s2, lon1, lat1, lon2, lat2. by rewrite Hq.
  - rewrite (subscript_fmap (resampled_dist b_track) _ i sa Hsa) in Hres.
    cbn [mbind result_bind] in Hres. rewrite Hsub in Hres.
    cbn [mbind result_bind] in Hres. injection Hres as <- <-.
    exists sa, sa, lo, la, (lon_of sa), (lat_of sa).
    split_and!; [done..|lia|lia|done].
Qed.

(** The stand-ins satisfy what is assumed of the collaborators. *)
Lemma taxicab_nonneg (lon1 lat1 lon2 lat2 : Q) :
  (0 <= @geod_inv_dist taxicab lon1 lat1 lon2 lat2)%Q.
Proof.
  unfold geod_inv_dist, taxicab. rewrite Qred_correct.
  pose proof (Qabs_nonneg (lon1 - lon2)). pose proof (Qabs_nonneg (lat1 - lat2)).
  lra.
Qed.

Lemma probe_minimizer_descent (f : Q → float) (x0 : Q) :
  finite (f x0) →
  fle (f (res_x (@minimize1 probe_minimizer f x0))) (f x0) = true.
Proof.
  intros Hfin. cbn [minimize1 probe_minimizer].
  destruct (flt (f (x0 + 1)%Q) (f x0)) eqn:Hlt; cbn [res_x].
  - destruct (f (x0 + 1)%Q) as [a|], (f x0) as [b|]; try discriminate.
    apply Qlt_bool_iff in Hlt. apply Qle_bool_iff. lra.
  - destruct (f x0) as [b|]; [|done]. apply Qle_bool_iff. lra.
Qed.

(** C4, the claim as stated fails: a position that is [NaN] goes through
    the geodesic solver and [argmin] without an exception, and the call
    succeeds with the distance [NaN], which is not [>= 0]; this holds for
    both functions and both [optimize] settings. *)
Lemma overpass_result_nan :
  let a_track := [Sample 0 NaN (Fin 0); Sample 2000000000 (Fin 0) (Fin 2)] in
  (∀ optimize,
     @get_overpass_track taxicab null_minimizer a_track track_fixed optimize
     = Ok (NaN, 0)) ∧
  @get_overpass_point taxicab least_int64 (float_dataset a_track) (Fin 0) (Fin 1)
  = Ok (NaN, 0) ∧
  ¬ ∃ q, NaN = Fin q ∧ (0 <= q)%Q.
Proof.
  split_and!.
  - by intros [|].
  - reflexivity.
  - by intros (q & Hq & _).
Qed.

(** C4, amended: on tracks whose positions are all finite a successful
    call of [get_overpass_track] (either [optimize] setting) returns a
    distance [>= 0] and a time inside the overlap of the time spans of
    the two tracks, and a successful call of [get_overpass_point] with a
    finite target returns a distance [>= 0] and a time inside the span of
    the track; tracks have increasing timestamps, the geodesic solver
    returns non-negative distances, and the direct search never returns a
    point worse than its initial guess. *)
Theorem overpass_result_invariant {G : Geod} {M : Minimizer} {I : Int64Cast}
    (a_track b_track : track) (ds : dataset) (optimize : bool)
    (target_lat target_lon : Q) (d d' : float) (t t' : Z) :
  (∀ lon1 lat1 lon2 lat2, (0 <= geod_inv_dist lon1 lat1 lon2 lat2)%Q) →
  (∀ f x0, finite (f x0) → fle (f (res_x (minimize1 f x0))) (f x0) = true) →
  finite_track a_track →
  finite_track b_track →
  finite_track (ds_track ds) →
  increasing (s_time <$> a_track) →
  increasing (s_time <$> b_track) →
  increasing (s_time <$> ds_track ds) →
  (get_overpass_track a_track b_track optimize = Ok (d, t) →
   (∃ q, d = Fin q ∧ (0 <= q)%Q) ∧
   ∃ a0 a1 b0 b1,
     time_first_last a_track = Ok (a0, a1) ∧
     time_first_last b_track = Ok (b0, b1) ∧
     Z.max a0 b0 ≤ t ≤ Z.min a1 b1) ∧
  (get_overpass_point ds (Fin target_lat) (Fin target_lon) = Ok (d', t') →
   (∃ q, d' = Fin q ∧ (0 <= q)%Q) ∧
   ∃ t0 t1, time_first_last (ds_track ds) = Ok (t0, t1) ∧ t0 ≤ t' ≤ t1).
Proof.
  intros Hnonneg Hdesc Hfin_a Hfin_b Hfin_ds Hinc_a Hinc_b Hinc_ds. split.
  - intros Hres.
    destruct (get_overpass_track_Ok _ _ _ _ _ Hdesc Hfin_a Hfin_b
                Hinc_a Hinc_b Hres)
      as (b0 & b1 & s1 & s2 & lon1 & lat1 & lon2 & lat2
          & Hb & Hs1 & Hs2 & Ht & ->).
    split; [by eauto|].
    unfold sel_time in Hs1, Hs2.
    apply list_elem_of_filter in Hs1 as [Hw1 Hs1].
    apply list_elem_of_filter in Hs2 as [Hw2 Hs2].
    destruct (sample_time_bounds a_track s1 Hinc_a Hs1) as (a0 & a1 & Ha & Hb1).
    destruct (sample_time_bounds a_track s2 Hinc_a Hs2) as (a0' & a1' & Ha' & Hb2).
    rewrite Ha in Ha'. injection Ha' as <- <-.
    exists a0, a1, b0, b1. split_and!; [done..|lia|lia].
  - intros Hres.
    destruct (decide (ds_track ds = [])) as [Hnil|Hne].
    { rewrite get_overpass_point_unfold in Hres. cbn zeta in Hres.
      rewrite Hnil in Hres. discriminate. }
    destruct (get_overpass_point_argmin ds target_lat target_lon Hfin_ds Hne)
      as (i & s & Hs & Hval & _).
    rewrite Hval in Hres. injection Hres as <- <-.
    split; [by eauto|].
    apply sample_time_bounds; [done|]. by eapply list_elem_of_lookup_2.
Qed.

Lemma overpass_result_invariant_witness :
  ((∃ q, Fin 0 = Fin q ∧ (0 <= q)%Q) ∧
   ∃ a0 a1 b0 b1,
     time_first_last track_east = Ok (a0, a1) ∧
     time_first_last track_fixed = Ok (b0, b1) ∧
     Z.max a0 b0 ≤ 1000000000 ≤ Z.min a1 b1) ∧
  ((∃ q, Fin 1 = Fin q ∧ (0 <= q)%Q) ∧
   ∃ t0 t1, time_first_last track_east = Ok (t0, t1) ∧ t0 ≤ 0 ≤ t1).
Proof.
  destruct (@overpass_result_invariant taxicab probe_minimizer least_int64
              track_east track_fixed (float_dataset track_east) true 0 1
              (Fin 0) (Fin 1) 1000000000 0
              taxicab_nonneg probe_minimizer_descent)
    as [Htrack Hpoint].
  - repeat constructor.
  - repeat constructor.
  - repeat constructor.
  - repeat constructor.
  - repeat constructor.
  - repeat constructor.
  - split; [apply Htrack|apply Hpoint]; reflexivity.
Defined.

(* ===================================================================== *)
(** ** [fit_circle] *)
(* ===================================================================== *)

Lemma np_sum_Fin (l : list Q) : np_sum (Fin <$> l) = Fin (Qsum l).
Proof.
  induction l as [|x l IH]; [done|].
  rewrite fmap_cons. unfold np_sum in *. cbn [foldr]. by rewrite IH.
Qed.

Lemma np_mean_Fin (l : list Q) :
  l ≠ [] → np_mean (Fin <$> l) = Fin (Qmean l).
Proof.
  intros Hne. unfold np_mean. rewrite np_sum_Fin, length_fmap. unfold fdiv.
  destruct (Qeq_bool (inject_Z (Z.of_nat (length l))) 0) eqn:Hz; [|done].
  apply Qeq_bool_iff in Hz. destruct l; [done|].
  unfold Qeq in Hz. simpl in Hz. lia.
Qed.

Lemma np_mean_nil : np_mean [] = NaN.
Proof. reflexivity. Qed.

Lemma np_std_Fin `{Sqrt} (l : list Q) :
  l ≠ [] → np_std (Fin <$> l) = Fin (np_sqrt (Qvariance l)).
Proof.
  intros Hne. unfold np_std. cbn zeta. rewrite (np_mean_Fin l Hne).
  assert (E : (λ x, fmul (fabs (fsub x (Fin (Qmean l))))
                         (fabs (fsub x (Fin (Qmean l)))))
                <$> (Fin <$> l)
              = Fin <$> ((λ x, Qabs (x - Qmean l) * Qabs (x - Qmean l))%Q <$> l)).
  { rewrite <- !list_fmap_compose. apply list_fmap_ext. by intros i x _. }
  rewrite E, np_mean_Fin; [done|]. by destruct l.
Qed.

(** Arrays of finite data. *)
Lemma finite_data (l : list float) :
  Forall finite l → l = Fin <$> (Qof <$> l).
Proof.
  induction 1 as [|x l Hx _ IH]; [done|].
  rewrite !fmap_cons, <- IH. by rewrite <- (finite_Qof x Hx).
Qed.

Section fit_circle.
Context {G : Geod} {Sq : Sqrt} {M : Minimizer} {I : Int64Cast}.

Lemma geod_dists_center (lat lon : ndarray) (clat clon : float) :
  nd_len lat = nd_len lon →
  geod_dists (nd_data lon) (nd_data lat)
             (nd_data (np_full_like lon clon)) (nd_data (np_full_like lat clat))
  = center_dist (nd_dtype lat) (nd_dtype lon) clat clon <$> points lat lon.
Proof.
  destruct lat as [dt_lat lat], lon as [dt_lon lon].
  unfold np_full_like, points, nd_len. cbn [nd_data nd_dtype]. revert lon.
  induction lat as [|la lat IH]; intros [|lo lon] Hlen; try done.
  cbn [fmap list_fmap length replicate geod_dists zip zip_with].
  f_equal. apply IH. by injection Hlen.
Qed.

Lemma center_dists_Ok (lat lon : ndarray) (clat clon : float) :
  nd_len lat = nd_len lon →
  center_dists lat lon clat clon
  = Ok (center_dist (nd_dtype lat) (nd_dtype lon) clat clon <$> points lat lon).
Proof.
  intros Hlen. unfold center_dists, geod_inv.
  rewrite bool_decide_eq_true_2.
  2: { unfold np_full_like, nd_len in *. cbn [nd_data].
       rewrite !length_replicate. by rewrite Hlen. }
  f_equal. by apply geod_dists_center.
Qed.

Lemma center_dists_mismatch (lat lon : ndarray) (clat clon : float) :
  nd_len lat ≠ nd_len lon →
  center_dists lat lon clat clon = Err (GeodError "Array lengths are not the same.").
Proof.
  intros Hlen. unfold center_dists, geod_inv.
  rewrite bool_decide_eq_false_2; [done|].
  unfold nd_len in Hlen. intros (? & _). lia.
Qed.

Lemma points_length (lat lon : ndarray) :
  nd_len lat = nd_len lon → length (points lat lon) = nd_len lat.
Proof. unfold nd_len, points. intros Hlen. rewrite length_zip. lia. Qed.

(** [fit_circle] on arrays of equal length, whatever their length and
    their dtypes. *)
Lemma fit_circle_unfold (lat lon : ndarray) :
  nd_len lat = nd_len lon →
  fit_circle lat lon =
  (let x := res_x (minimize2 (circle_cost lat lon)
                             (np_mean (nd_data lat), np_mean (nd_data lon))) in
   Ok (x.1, x.2,
       np_mean (center_dist (nd_dtype lat) (nd_dtype lon) x.1 x.2
                  <$> points lat lon))).
Proof.
  intros Hlen. unfold fit_circle.
  rewrite center_dists_Ok by done. cbn [mbind result_bind].
  destruct (res_x _) as [clat clon].
  by rewrite center_dists_Ok.
Qed.

(** The points of two arrays of finite floats, and their distances to a
    finite centre. *)
Lemma points_float (lat lon : list Q) :
  points (float_array lat) (float_array lon)
  = (λ p, (Fin p.1, Fin p.2)) <$> Qpoints lat lon.
Proof.
  unfold points, Qpoints, float_array. cbn [nd_data]. revert lon.
  induction lat as [|la lat IH]; intros [|lo lon]; try done.
  cbn [fmap list_fmap zip zip_with]. f_equal. apply IH.
Qed.

Lemma center_dist_Fin (lat lon : list Q) (clat clon : Q) :
  center_dist float64 float64 (Fin clat) (Fin clon)
    <$> points (float_array lat) (float_array lon)
  = Fin <$> ((λ p, geod_inv_dist p.2 p.1 clon clat) <$> Qpoints lat lon).
Proof. rewrite points_float. by rewrite <- !list_fmap_compose. Qed.

Lemma Qpoints_length (lat lon : list Q) :
  length lat = length lon → length (Qpoints lat lon) = length lat.
Proof. intros Hlen. unfold Qpoints. rewrite length_zip. lia. Qed.

Lemma float_array_len (l : list Q) : nd_len (float_array l) = length l.
Proof. unfold nd_len, float_array. cbn [nd_data]. by rewrite length_fmap. Qed.

Lemma Qpoints_dists_nonempty (f : Q * Q → Q) (lat lon : list Q) :
  length lat = length lon → lat ≠ [] → f <$> Qpoints lat lon ≠ [].
Proof.
  intros Hlen Hne Hnil%fmap_nil_inv. apply (f_equal length) in Hnil.
  rewrite Qpoints_length in Hnil by done. by destruct lat.
Qed.

Lemma circle_cost_Fin (lat lon : list Q) (clat clon : Q) :
  length lat = length lon → lat ≠ [] →
  circle_cost (float_array lat) (float_array lon) (Fin clat, Fin clon)
  = Fin (np_sqrt (Qvariance ((λ p, geod_inv_dist p.2 p.1 clon clat)
                               <$> Qpoints lat lon))).
Proof.
  intros Hlen Hne. unfold circle_cost.
  rewrite geod_dists_center by (by rewrite !float_array_len).
  cbn [float_array nd_dtype]. rewrite center_dist_Fin.
  apply np_std_Fin. by apply Qpoints_dists_nonempty.
Qed.

(** The points of two [int64] arrays, and their distances to a centre:
    the centre is truncated when it is stored like the arrays. *)
Lemma points_int (lat lon : list Z) :
  points (int_array lat) (int_array lon)
  = (λ p, (Fin (inject_Z p.1), Fin (inject_Z p.2))) <$> zip lat lon.
Proof.
  unfold points, int_array. cbn [nd_data]. revert lon.
  induction lat as [|la lat IH]; intros [|lo lon]; try done.
  cbn [fmap list_fmap zip zip_with]. f_equal. apply IH.
Qed.

Lemma center_dist_int (lat lon : list Z) (clat clon : Q) :
  - 2 ^ 63 ≤ Qtrunc clat < 2 ^ 63 →
  - 2 ^ 63 ≤ Qtrunc clon < 2 ^ 63 →
  center_dist int64 int64 (Fin clat) (Fin clon)
    <$> points (int_array lat) (int_array lon)
  = Fin <$> ((λ p, geod_inv_dist (inject_Z p.2) (inject_Z p.1)
                     (inject_Z (Qtrunc clon)) (inject_Z (Qtrunc clat)))
               <$> zip lat lon).
Proof.
  intros Hlat Hlon. rewrite points_int. unfold center_dist.
  rewrite !astype_int64 by done. by rewrite <- !list_fmap_compose.
Qed.

Lemma int_array_len (l : list Z) : nd_len (int_array l) = length l.
Proof. unfold nd_len, int_array. cbn [nd_data]. by rewrite length_fmap. Qed.

(** C8: [np.full_like(lon, clon)] and [np.full_like(lat, clat)] have the
    dtype of the coordinate arrays, so on [int64] arrays, which
    [np.asarray] makes of sequences of Python ints, every candidate
    centre is truncated to whole degrees before the distances are taken:
    the minimiser is given a cost that does not change within a cell of
    the grid of whole degrees, and the radius returned with the centre
    [(clat, clon)] is the mean distance of the points to the truncated
    centre, not to [(clat, clon)]. *)
Theorem fit_circle_int64_centre (lat lon : list Z) (clat clon : Q) :
  length lat = length lon →
  lat ≠ [] →
  - 2 ^ 63 ≤ Qtrunc clat < 2 ^ 63 →
  - 2 ^ 63 ≤ Qtrunc clon < 2 ^ 63 →
  let cost := circle_cost (int_array lat) (int_array lon) in
  let x0 := (np_mean (nd_data (int_array lat)), np_mean (nd_data (int_array lon))) in
  let to_truncated :=
    (λ p, geod_inv_dist (inject_Z p.2) (inject_Z p.1)
            (inject_Z (Qtrunc clon)) (inject_Z (Qtrunc clat))) <$> zip lat lon in
  cost (Fin clat, Fin clon) = Fin (np_sqrt (Qvariance to_truncated)) ∧
  cost (Fin clat, Fin clon)
  = cost (Fin (inject_Z (Qtrunc clat)), Fin (inject_Z (Qtrunc clon))) ∧
  (res_x (minimize2 cost x0) = (Fin clat, Fin clon) →
   fit_circle (int_array lat) (int_array lon)
   = Ok (Fin clat, Fin clon, Fin (Qmean to_truncated))).
Proof.
  intros Hlen Hne Hlat Hlon cost x0 to_truncated.
  assert (Hlens : nd_len (int_array lat) = nd_len (int_array lon))
    by (by rewrite !int_array_len).
  assert (Hdists : to_truncated ≠ []).
  { intros Hnil%fmap_nil_inv. apply (f_equal length) in Hnil.
    rewrite length_zip, <- Hlen, Nat.min_id in Hnil. by destruct lat. }
  assert (Hcost : ∀ a b, - 2 ^ 63 ≤ Qtrunc a < 2 ^ 63 → - 2 ^ 63 ≤ Qtrunc b < 2 ^ 63 →
            cost (Fin a, Fin b)
            = np_std (Fin <$> ((λ p, geod_inv_dist (inject_Z p.2) (inject_Z p.1)
                                       (inject_Z (Qtrunc b)) (inject_Z (Qtrunc a)))
                                 <$> zip lat lon))).
  { intros a b Ha Hb. unfold cost, circle_cost.
    rewrite geod_dists_center by done. cbn [int_array nd_dtype].
    by rewrite center_dist_int. }
  assert (Htrunc : ∀ z : Z, Qtrunc (inject_Z z) = z).
  { intros z. unfold Qtrunc. simpl. apply Z.quot_1_r. }
  split_and!.
  - rewrite Hcost by done. by apply np_std_Fin.
  - rewrite !Hcost; rewrite ?Htrunc; done.
  - intros Hx. rewrite fit_circle_unfold by done. cbn zeta.
    fold cost. fold x0. rewrite Hx. cbn [fst snd int_array nd_dtype].
    rewrite center_dist_int by done. by rewrite np_mean_Fin.
Qed.

(** X24: on at least three points given as arrays of finite floats
    [fit_circle] starts the minimiser at the arithmetic means of the
    coordinates, minimises the standard deviation of the geodesic
    distances from the candidate centre to all points, and returns the
    centre the minimiser found with the mean of the geodesic distances
    from that centre to all points as radius. *)
Theorem fit_circle_spec (lat lon : list Q) :
  length lat = length lon →
  (3 ≤ length lat)%nat →
  let cost := circle_cost (float_array lat) (float_array lon) in
  let x0 := (Fin (Qmean lat), Fin (Qmean lon)) in
  let x := res_x (minimize2 cost x0) in
  (∀ clat clon : Q,
     cost (Fin clat, Fin clon)
     = Fin (np_sqrt (Qvariance ((λ p, geod_inv_dist p.2 p.1 clon clat)
                                  <$> Qpoints lat lon)))) ∧
  fit_circle (float_array lat) (float_array lon)
  = Ok (x.1, x.2, np_mean (center_dist float64 float64 x.1 x.2
                             <$> points (float_array lat) (float_array lon))) ∧
  (∀ clat clon : Q,
     x = (Fin clat, Fin clon) →
     fit_circle (float_array lat) (float_array lon)
     = Ok (Fin clat, Fin clon,
           Fin (Qmean ((λ p, geod_inv_dist p.2 p.1 clon clat)
                         <$> Qpoints lat lon)))).
Proof.
  intros Hlen H3 cost x0 x.
  assert (Hlat : lat ≠ []) by (intros ->; simpl in H3; lia).
  assert (Hlon : lon ≠ []) by (intros ->; simpl in Hlen; simpl in H3; lia).
  assert (Hfit : fit_circle (float_array lat) (float_array lon)
    = Ok (x.1, x.2, np_mean (center_dist float64 float64 x.1 x.2
                               <$> points (float_array lat) (float_array lon)))).
  { rewrite fit_circle_unfold by (by rewrite !float_array_len). cbn zeta.
    cbn [float_array nd_data nd_dtype]. by rewrite !np_mean_Fin by done. }
  split_and!.
  - intros clat clon. by apply circle_cost_Fin.
  - exact Hfit.
  - intros clat clon Hx. rewrite Hfit, Hx. cbn [fst snd].
    rewrite center_dist_Fin, np_mean_Fin; [done|].
    by apply Qpoints_dists_nonempty.
Qed.
End fit_circle.

Lemma fit_circle_int64_centre_witness :
  @fit_circle taxicab floor_sqrt null_minimizer least_int64
    (int_array [0; 0; 1; 5]) (int_array [0; 1; 0; 5])
  = Ok (Fin (6 # 4), Fin (6 # 4),
        Fin (Qmean ((λ p, @geod_inv_dist taxicab (inject_Z p.2) (inject_Z p.1) 1 1)
                      <$> zip [0; 0; 1; 5]%Z [0; 1; 0; 5]%Z))) ∧
  (Qmean ((λ p, @geod_inv_dist taxicab (inject_Z p.2) (inject_Z p.1) 1 1)
            <$> zip [0; 0; 1; 5]%Z [0; 1; 0; 5]%Z) == 3)%Q ∧
  (Qmean ((λ p, @geod_inv_dist taxicab (inject_Z p.2) (inject_Z p.1) (6 # 4) (6 # 4))
            <$> zip [0; 0; 1; 5]%Z [0; 1; 0; 5]%Z) == 7 # 2)%Q.
Proof.
  split; [|split; reflexivity].
  refine (proj2 (proj2 (@fit_circle_int64_centre taxicab floor_sqrt null_minimizer
                          least_int64 [0; 0; 1; 5] [0; 1; 0; 5] (6 # 4) (6 # 4)
                          eq_refl _ _ _)) eq_refl).
  - discriminate.
  - vm_compute. split; [discriminate | reflexivity].
  - vm_compute. split; [discriminate | reflexivity].
Defined.

Lemma fit_circle_spec_witness :
  @fit_circle taxicab floor_sqrt null_minimizer least_int64
    (float_array [0; 0; 1]%Q) (float_array [0; 1; 0]%Q)
  = Ok (Fin (1 # 3), Fin (1 # 3), Fin (8 # 9)).
Proof.
  pose proof (@fit_circle_spec taxicab floor_sqrt null_minimizer least_int64
                [0; 0; 1]%Q [0; 1; 0]%Q eq_refl) as Hspec.
  destruct Hspec as (_ & Hfit & _).
  - simpl. lia.
  - rewrite Hfit. reflexivity.
Defined.

(* ===================================================================== *)
(** ** [ransac_fit_circle]: the generator *)
(* ===================================================================== *)

Section ransac_state.
Context {G : Geod} {Sq : Sqrt} {M : Minimizer} {R : Generator} {I : Int64Cast}.

(** The loop reads and writes the store only at its own generator. *)
Lemma ransac_loop_state (lat lon : ndarray) (distance_range : Q) (rng : nat) :
  ∀ (n : nat) (samples : list trial) (h : heap) (st : rng_state),
    h !! rng = Some st →
    ransac_loop rng lat lon distance_range n samples h
    = (let '(r, st') := trials_from st lat lon distance_range n samples in
       (r, <[rng := st']> h)).
Proof.
  induction n as [|n IH]; intros samples h st Hst.
  - cbn [ransac_loop trials_from]. unfold mret, py_ret.
    cbv beta iota. by rewrite list_insert_id.
  - cbn [ransac_loop trials_from]. unfold mbind at 1, py_bind at 1.
    unfold rng_choice. rewrite Hst.
    destruct (bool_decide (nd_len lat < 3)%nat).
    { cbv beta iota. by rewrite list_insert_id. }
    destruct (choice_draw st (nd_len lat) 3) as [idxs st'].
    unfold mbind at 1, py_bind at 1, lift_result.
    destruct (score_trial lat lon distance_range idxs) as [s|e]; [|done].
    rewrite (IH _ _ st').
    + destruct (trials_from st' lat lon distance_range n (samples ++ [s]))
        as [r st''].
      by rewrite list_insert_insert_eq.
    + apply list_lookup_insert_eq. by eapply lookup_lt_Some.
Qed.

(** A call allocates its generator, seeds it with 12345, and its value
    is determined by the arguments alone. *)
Lemma ransac_fit_circle_run (lat lon : ndarray) (distance_range : Q) (n : nat)
    (h : heap) :
  ransac_fit_circle lat lon distance_range n h
  = (let '(r, st') := trials_from (default_rng_state 12345) lat lon
                        distance_range n [] in
     (r ≫= ransac_refit lat lon distance_range, h ++ [st'])).
Proof.
  unfold ransac_fit_circle. unfold mbind at 1, py_bind at 1.
  unfold default_rng. unfold mbind at 1, py_bind at 1.
  rewrite (ransac_loop_state _ _ _ _ _ _ _ (default_rng_state 12345)).
  2: { by rewrite lookup_app_r, Nat.sub_diag by lia. }
  destruct (trials_from _ lat lon distance_range n []) as [[samples|e] st'].
  - unfold lift_result. cbn [mbind result_bind].
    f_equal. rewrite insert_app_r_alt, Nat.sub_diag by lia. done.
  - cbn [mbind result_bind].
    f_equal. rewrite insert_app_r_alt, Nat.sub_diag by lia. done.
Qed.

(** C7: [ransac_fit_circle] is deterministic: its result does not depend
    on the store of generator objects it is run in, so two calls with the
    same arguments return the same result, also when the second call
    follows the first; every call seeds a generator of its own. *)
Theorem ransac_fit_circle_deterministic (lat lon : ndarray) (distance_range : Q)
    (n : nat) (h1 h2 : heap) :
  (ransac_fit_circle lat lon distance_range n h1).1
  = (ransac_fit_circle lat lon distance_range n h2).1 ∧
  (ransac_fit_circle lat lon distance_range n
     (ransac_fit_circle lat lon distance_range n h1).2).1
  = (ransac_fit_circle lat lon distance_range n h1).1 ∧
  (ransac_fit_circle lat lon distance_range n h1).1
  = (trials_from (default_rng_state 12345) lat lon distance_range n []).1
      ≫= ransac_refit lat lon distance_range.
Proof.
  rewrite !ransac_fit_circle_run.
  by destruct (trials_from _ lat lon distance_range n []) as [r st'].
Qed.
End ransac_state.

(* ===================================================================== *)
(** ** [sorted] and the order of recorded trials *)
(* ===================================================================== *)

Section insertion_sort.
Context {A : Type} (lt : A → A → bool) (P : A → Prop).
Hypothesis lt_asym : ∀ x y, P x → P y → lt x y = true → lt y x = false.
Hypothesis le_trans :
  ∀ x y z, P x → P y → P z → lt y x = false → lt z y = false → lt z x = false.

Lemma insort_perm (x : A) (l : list A) : insort lt x l ≡ₚ x :: l.
Proof.
  induction l as [|y l IH]; [done|]. cbn [insort].
  destruct (lt x y); [done|]. rewrite IH. apply Permutation_swap.
Qed.

Lemma sorted_perm (l : list A) : sorted lt l ≡ₚ l.
Proof.
  unfold sorted.
  assert (Hgen : ∀ acc, foldl (λ acc x, insort lt x acc) acc l ≡ₚ acc ++ l).
  { induction l as [|x l IH]; intros acc; cbn [foldl].
    - by rewrite app_nil_r.
    - rewrite IH, insort_perm. simpl. apply Permutation_middle. }
  apply (Hgen []).
Qed.

Lemma insort_sorted (x : A) (l : list A) :
  P x → Forall P l →
  StronglySorted (λ a b, lt b a = false) l →
  StronglySorted (λ a b, lt b a = false) (insort lt x l).
Proof.
  intros Hx HP Hs. induction Hs as [|y l Hs IH Hall]; cbn [insort].
  - repeat constructor.
  - apply Forall_cons in HP as [Hy HP].
    destruct (lt x y) eqn:Hxy.
    + constructor; [by constructor|].
      constructor; [by apply lt_asym|].
      apply Forall_forall. intros z Hz.
      assert (Pz : P z) by (by eapply Forall_forall in HP).
      apply (le_trans x y z); [done..|by apply lt_asym|].
      by eapply Forall_forall in Hall.
    + constructor; [by apply IH|].
      apply Forall_forall. intros z Hz.
      rewrite insort_perm in Hz. apply elem_of_cons in Hz as [->|Hz]; [done|].
      by eapply Forall_forall in Hall.
Qed.

Lemma sorted_sorted (l : list A) :
  Forall P l → StronglySorted (λ a b, lt b a = false) (sorted lt l).
Proof.
  unfold sorted.
  assert (Hgen : ∀ acc, Forall P acc → Forall P l →
            StronglySorted (λ a b, lt b a = false) acc →
            StronglySorted (λ a b, lt b a = false)
              (foldl (λ acc x, insort lt x acc) acc l)).
  { induction l as [|x l IH]; intros acc Hacc HP Hs; cbn [foldl]; [done|].
    apply Forall_cons in HP as [Hx HP].
    apply IH; [|done|by apply insort_sorted].
    apply Forall_forall. intros z Hz. rewrite insort_perm in Hz.
    apply elem_of_cons in Hz as [->|Hz]; [done|].
    by eapply Forall_forall in Hacc. }
  intros HP. apply Hgen; [done|done|constructor].
Qed.

(** The last element of the sorted list is one of the elements, and no
    element is greater. *)
Lemma sorted_last_max (l : list A) (w : A) :
  Forall P l → last (sorted lt l) = Some w →
  w ∈ l ∧ ∀ s, s ∈ l → lt w s = false.
Proof.
  intros HP Hlast.
  pose proof (sorted_sorted l HP) as Hs.
  apply last_Some in Hlast as [l' Hl'].
  assert (Hw : w ∈ l).
  { rewrite <- (sorted_perm l), Hl'. apply elem_of_app. right. by left. }
  split; [done|]. intros s Hsl.
  rewrite <- (sorted_perm l), Hl' in Hsl. rewrite Hl' in Hs.
  apply elem_of_app in Hsl as [Hsl|Hsl].
  - apply (StronglySorted_app_1_elem_of _ _ _ s w Hs); [done|by left].
  - apply list_elem_of_singleton in Hsl as ->.
    assert (Pw : P w) by (by eapply Forall_forall in HP).
    destruct (lt w w) eqn:Hww; [|done].
    by rewrite (lt_asym w w Pw Pw Hww) in Hww.
Qed.
End insertion_sort.

Lemma sorted_last_exists {A} (lt : A → A → bool) (l : list A) :
  l ≠ [] → ∃ w, last (sorted lt l) = Some w.
Proof.
  intros Hne. destruct (last (sorted lt l)) as [w|] eqn:Hl; [by exists w|].
  apply last_None in Hl.
  pose proof (sorted_perm lt l) as Hp. rewrite Hl in Hp.
  by apply Permutation_nil_l in Hp.
Qed.

(** Decides goals and hypotheses of the lexicographic order: the
    hypotheses are split, then each disjunct of the goal is tried. *)
Ltac lex_split :=
  repeat match goal with
         | H : _ ∧ _ |- _ => destruct H
         | H : _ ∨ _ |- _ => destruct H
         end.

Ltac lex_close :=
  solve [ lia | lra | done
        | left; lex_close
        | right; split; [first [lia | lra | done] | lex_close] ].

Lemma trial_lt_false (n1 n2 : nat) (a1 b1 r1 a2 b2 r2 : Q) :
  trial_lt (n2, Fin a2, Fin b2, Fin r2) (n1, Fin a1, Fin b1, Fin r1) = false ↔
  trial_le (n1, Fin a1, Fin b1, Fin r1) (n2, Fin a2, Fin b2, Fin r2).
Proof.
  unfold trial_lt, trial_le, feq, flt, fcmp.
  destruct (n2 =? n1)%nat eqn:Hn; cbn [negb].
  2: { apply Nat.eqb_neq in Hn. rewrite Nat.ltb_ge. split; intros; lex_split; lex_close. }
  apply Nat.eqb_eq in Hn as ->.
  destruct (Qeq_bool a2 a1) eqn:Ha; cbn [negb].
  2: { apply Qeq_bool_false in Ha. rewrite Qlt_bool_false.
       split; intros; lex_split; try lex_close.
       all: right; split; [done|]; left.
       all: destruct (Qlt_le_dec a1 a2); [done|]; exfalso; apply Ha; lra. }
  apply Qeq_bool_iff in Ha.
  destruct (Qeq_bool b2 b1) eqn:Hb; cbn [negb].
  2: { apply Qeq_bool_false in Hb. rewrite Qlt_bool_false.
       split; intros; lex_split; try lex_close.
       all: right; split; [done|]; right; split; [lra|]; left.
       all: destruct (Qlt_le_dec b1 b2); [done|]; exfalso; apply Hb; lra. }
  apply Qeq_bool_iff in Hb.
  destruct (Qeq_bool r2 r1) eqn:Hr; cbn [negb].
  2: { apply Qeq_bool_false in Hr. rewrite Qlt_bool_false.
       split; intros; lex_split; try lex_close. }
  apply Qeq_bool_iff in Hr.
  split; [intros _|done]. lex_close.
Qed.

Lemma trial_lt_true_le (s w : trial) :
  finite_trial s → finite_trial w → trial_lt s w = true → trial_le s w.
Proof.
  destruct s as [[[n1 [a1|]] [b1|]] [r1|]]; try (intros (? & ? & ?); done).
  destruct w as [[[n2 [a2|]] [b2|]] [r2|]]; try (intros _ (? & ? & ?); done).
  intros _ _. unfold trial_lt, trial_le, feq, flt, fcmp.
  destruct (n1 =? n2)%nat eqn:Hn; cbn [negb].
  2: { rewrite Nat.ltb_lt. intros. lex_close. }
  apply Nat.eqb_eq in Hn as ->.
  destruct (Qeq_bool a1 a2) eqn:Ha; cbn [negb].
  2: { rewrite Qlt_bool_iff. intros. lex_close. }
  apply Qeq_bool_iff in Ha.
  destruct (Qeq_bool b1 b2) eqn:Hb; cbn [negb].
  2: { rewrite Qlt_bool_iff. intros. lex_close. }
  apply Qeq_bool_iff in Hb.
  destruct (Qeq_bool r1 r2) eqn:Hr; cbn [negb]; [done|].
  rewrite Qlt_bool_iff. intros. lex_close.
Qed.

Lemma trial_le_trans (x y z : trial) :
  trial_le x y → trial_le y z → trial_le x z.
Proof.
  destruct x as [[[n1 [a1|]] [b1|]] [r1|]]; try done.
  destruct y as [[[n2 [a2|]] [b2|]] [r2|]]; try done.
  destruct z as [[[n3 [a3|]] [b3|]] [r3|]]; try done.
  unfold trial_le. intros Hxy Hyz. lex_split; lex_close.
Qed.

Lemma trial_lt_false_le (s w : trial) :
  finite_trial s → finite_trial w → trial_lt w s = false ↔ trial_le s w.
Proof.
  destruct s as [[[n1 [a1|]] [b1|]] [r1|]]; try (intros (? & ? & ?); done).
  destruct w as [[[n2 [a2|]] [b2|]] [r2|]]; try (intros _ (? & ? & ?); done).
  intros _ _. apply trial_lt_false.
Qed.

(** On trials with finite entries the last element of [sorted] is the
    greatest in the lexicographic order. *)
Lemma sorted_trials_last (samples : list trial) (w : trial) :
  Forall finite_trial samples →
  last (sorted trial_lt samples) = Some w →
  w ∈ samples ∧ ∀ s, s ∈ samples → trial_le s w.
Proof.
  intros Hfin Hlast.
  destruct (sorted_last_max trial_lt finite_trial) with (l := samples) (w := w)
    as [Hw Hmax]; [| |done|done|].
  - intros x y Hx Hy Hlt. apply trial_lt_false_le; [done..|].
    by apply trial_lt_true_le.
  - intros x y z Hx Hy Hz Hxy Hyz.
    apply trial_lt_false_le in Hxy; [|done..].
    apply trial_lt_false_le in Hyz; [|done..].
    apply trial_lt_false_le; [done..|]. by eapply trial_le_trans.
  - split; [done|]. intros s Hs.
    apply trial_lt_false_le; [by eapply Forall_forall in Hfin..|].
    by apply Hmax.
Qed.

(* ===================================================================== *)
(** ** [ransac_fit_circle]: trials, winner and re-fit *)
(* ===================================================================== *)

Lemma take_indices_ok {A} (l : list A) (idxs : list nat) :
  Forall (λ i, (i < length l)%nat) idxs →
  ∃ xs, take_indices l idxs = Ok xs.
Proof.
  induction 1 as [|i idxs Hi _ [xs IH]]; [by exists []|].
  destruct (lookup_lt_is_Some_2 l i Hi) as [x Hx].
  exists (x :: xs). cbn [take_indices]. unfold subscript. rewrite Hx.
  cbn [mbind result_bind]. by rewrite IH.
Qed.

Lemma take_indices_length {A} (l : list A) (idxs : list nat) (xs : list A) :
  take_indices l idxs = Ok xs → length xs = length idxs.
Proof.
  revert xs. induction idxs as [|i idxs IH]; intros xs; cbn [take_indices].
  - by intros [= <-].
  - destruct (subscript l i) as [x|e]; cbn [mbind result_bind]; [|done].
    destruct (take_indices l idxs) as [xs'|e]; cbn [mbind result_bind]; [|done].
    intros [= <-]. cbn [length]. by rewrite (IH xs').
Qed.

(** [arr[idxs]] holds the entries of [arr] at the indices, in their
    order. *)
Lemma take_indices_lookup {A} (l : list A) (idxs : list nat) (xs : list A) :
  take_indices l idxs = Ok xs → Forall2 (λ i x, l !! i = Some x) idxs xs.
Proof.
  revert xs. induction idxs as [|i idxs IH]; intros xs; cbn [take_indices].
  - intros [= <-]. constructor.
  - unfold subscript. destruct (l !! i) as [x|] eqn:Hx;
      cbn [mbind result_bind]; [|done].
    destruct (take_indices l idxs) as [xs'|e]; cbn [mbind result_bind]; [|done].
    intros [= <-]. constructor; [done|by apply IH].
Qed.

Lemma take_indices_fmap {A B} (f : A → B) (l : list A) (idxs : list nat)
    (ys : list B) :
  take_indices (f <$> l) idxs = Ok ys →
  ∃ xs, take_indices l idxs = Ok xs ∧ ys = f <$> xs.
Proof.
  revert ys. induction idxs as [|i idxs IH]; intros ys; cbn [take_indices].
  - intros [= <-]. by exists [].
  - unfold subscript. rewrite list_lookup_fmap.
    destruct (l !! i) as [x|]; cbn [fmap option_fmap option_map mbind result_bind];
      [|done].
    destruct (take_indices (f <$> l) idxs) as [ys'|e];
      cbn [mbind result_bind]; [|done].
    destruct (IH ys' eq_refl) as (xs & -> & ->).
    intros [= <-]. by exists (x :: xs).
Qed.

Lemma count_true_filter {A} (f : A → bool) (l : list A) :
  count_true (f <$> l) = length (filter (λ x, f x = true) l).
Proof.
  unfold count_true. induction l as [|x l IH]; [done|].
  rewrite fmap_cons, !filter_cons. destruct (f x) eqn:Hx.
  - rewrite !decide_True by done. cbn [length]. by rewrite IH.
  - rewrite !decide_False by done. exact IH.
Qed.

Lemma mask_select_zip {A B} (f : A * B → bool) (lat : list A) (lon : list B) :
  length lat = length lon →
  mask_select lat (f <$> zip lat lon)
  = (filter (λ p, f p = true) (zip lat lon)).*1 ∧
  mask_select lon (f <$> zip lat lon)
  = (filter (λ p, f p = true) (zip lat lon)).*2.
Proof.
  revert lon.
  induction lat as [|la lat IH]; intros [|lo lon] Hlen; try done.
  injection Hlen as Hlen. destruct (IH lon Hlen) as [IH1 IH2].
  cbn [zip zip_with fmap list_fmap mask_select]. rewrite filter_cons.
  change (zip_with pair lat lon) with (zip lat lon).
  change (list_fmap _ _ f (zip lat lon)) with (f <$> zip lat lon).
  destruct (f (la, lo)) eqn:Hf.
  - rewrite decide_True by done. rewrite !fmap_cons. cbn [fst snd].
    by rewrite IH1, IH2.
  - by rewrite decide_False by done.
Qed.

Lemma filter_fmap {A B} (f : A → B) (P : B → Prop) `{∀ y, Decision (P y)}
    (l : list A) :
  filter P (f <$> l) = f <$> filter (λ x, P (f x)) l.
Proof.
  induction l as [|x l IH]; [done|].
  rewrite fmap_cons, !filter_cons. destruct (decide (P (f x))).
  - by rewrite fmap_cons, IH.
  - exact IH.
Qed.

(** The inlier test on finite values is the inequality
    [|radius - d| <= distance_range]. *)
Lemma inlier_Fin (radius d distance_range : Q) :
  inlier (Fin radius) distance_range (Fin d) = true
  ↔ (Qabs (radius - d) <= distance_range)%Q.
Proof.
  unfold inlier, fle, fcmp, fabs, fsub, flift1, flift2. apply Qle_bool_iff.
Qed.

Section ransac.
Context {G : Geod} {Sq : Sqrt} {M : Minimizer} {R : Generator} {I : Int64Cast}.

Lemma nd_take_ok (a : ndarray) (idxs : list nat) :
  Forall (λ i, (i < nd_len a)%nat) idxs →
  ∃ xs, nd_take a idxs = Ok xs ∧ nd_len xs = length idxs.
Proof.
  intros Hidx. destruct (take_indices_ok (nd_data a) idxs Hidx) as [xs Hxs].
  exists (NdArray (nd_dtype a) xs). unfold nd_take. rewrite Hxs.
  split; [done|]. unfold nd_len. cbn [nd_data].
  by apply take_indices_length in Hxs.
Qed.

Lemma nd_take_float (l : list Q) (idxs : list nat) (a : ndarray) :
  nd_take (float_array l) idxs = Ok a →
  ∃ xs, Forall2 (λ i x, l !! i = Some x) idxs xs ∧ a = float_array xs.
Proof.
  unfold nd_take, float_array. cbn [nd_data nd_dtype].
  destruct (take_indices (Fin <$> l) idxs) as [ys|e] eqn:Hys;
    cbn [mbind result_bind]; [|done].
  destruct (take_indices_fmap _ _ _ _ Hys) as (xs & Hxs & ->).
  intros [= <-]. exists xs. split; [|done]. by apply take_indices_lookup.
Qed.

Lemma fit_circle_ok (lat lon : ndarray) :
  nd_len lat = nd_len lon → ∃ c, fit_circle lat lon = Ok c.
Proof. intros Hlen. rewrite fit_circle_unfold by done. by eexists. Qed.

Lemma fit_circle_finite (lat lon : list Q) (c : float * float * float) :
  minimize2_finite →
  length lat = length lon → lat ≠ [] →
  fit_circle (float_array lat) (float_array lon) = Ok c →
  finite c.1.1 ∧ finite c.1.2 ∧ finite c.2.
Proof.
  intros Hfin Hlen Hne.
  rewrite fit_circle_unfold by (by rewrite !float_array_len). cbn zeta.
  assert (Hlon : lon ≠ []) by (intros ->; by destruct lat).
  cbn [float_array nd_data nd_dtype]. rewrite !np_mean_Fin by done.
  destruct (Hfin (circle_cost (NdArray float64 (Fin <$> lat))
                              (NdArray float64 (Fin <$> lon)))
              (Fin (Qmean lat), Fin (Qmean lon)) Logic.I Logic.I) as [H1 H2].
  destruct (res_x _) as [[clat|] [clon|]]; try done.
  intros [= <-]. cbn [fst snd]. split_and!; [done..|].
  change (NdArray float64 (Fin <$> lat)) with (float_array lat).
  change (NdArray float64 (Fin <$> lon)) with (float_array lon).
  rewrite center_dist_Fin, np_mean_Fin; [done|].
  by apply Qpoints_dists_nonempty.
Qed.

Lemma inlier_mask (c : float * float * float) (distance_range : Q)
    (lat lon : ndarray) :
  inlier c.2 distance_range
    <$> (center_dist (nd_dtype lat) (nd_dtype lon) c.1.1 c.1.2 <$> points lat lon)
  = inlier_point (nd_dtype lat) (nd_dtype lon) c distance_range <$> points lat lon.
Proof.
  rewrite <- list_fmap_compose. apply list_fmap_ext. intros i p _.
  by destruct c as [[clat clon] radius].
Qed.

Lemma score_trial_ok (lat lon : ndarray) (distance_range : Q) (idxs : list nat) :
  nd_len lat = nd_len lon →
  Forall (λ i, (i < nd_len lat)%nat) idxs →
  ∃ s, score_trial lat lon distance_range idxs = Ok s ∧
       is_trial lat lon distance_range idxs s.
Proof.
  intros Hlen Hidx.
  destruct (nd_take_ok lat idxs Hidx) as (slat & Hslat & Hllat).
  destruct (nd_take_ok lon idxs) as (slon & Hslon & Hllon).
  { by rewrite <- Hlen. }
  destruct (fit_circle_ok slat slon) as [[[clat clon] radius] Hfit].
  { by rewrite Hllat, Hllon. }
  exists (length (inlier_points (clat, clon, radius) distance_range lat lon),
          clat, clon, radius).
  split.
  - unfold score_trial. rewrite Hslat, Hslon. cbn [mbind result_bind].
    rewrite Hfit. cbn [mbind result_bind].
    rewrite center_dists_Ok by done. cbn [mbind result_bind].
    rewrite (inlier_mask (clat, clon, radius)), count_true_filter. done.
  - exists slat, slon, (clat, clon, radius). by split_and!.
Qed.

(** The inliers of a finite circle among points given as arrays of
    finite floats are the points within [distance_range] of the circle. *)
Lemma inlier_points_float (clat clon radius distance_range : Q)
    (lat lon : list Q) :
  inlier_points (Fin clat, Fin clon, Fin radius) distance_range
                (float_array lat) (float_array lon)
  = (λ p, (Fin p.1, Fin p.2))
      <$> filter (in_ring clat clon radius distance_range) (Qpoints lat lon).
Proof.
  unfold inlier_points. rewrite points_float, filter_fmap. f_equal.
  apply list_filter_iff. intros p. apply inlier_Fin.
Qed.

Lemma inlier_arrays_float (clat clon radius distance_range : Q)
    (lat lon : list Q) :
  let inl := filter (in_ring clat clon radius distance_range) (Qpoints lat lon) in
  inlier_lat (Fin clat, Fin clon, Fin radius) distance_range
             (float_array lat) (float_array lon) = float_array inl.*1 ∧
  inlier_lon (Fin clat, Fin clon, Fin radius) distance_range
             (float_array lat) (float_array lon) = float_array inl.*2.
Proof.
  cbn zeta. unfold inlier_lat, inlier_lon. rewrite inlier_points_float.
  unfold float_array. cbn [nd_dtype].
  by rewrite <- !list_fmap_compose.
Qed.


Lemma is_trial_finite (lat lon : list Q) (distance_range : Q)
    (idxs : list nat) (s : trial) :
  minimize2_finite →
  length idxs = 3%nat →
  is_trial (float_array lat) (float_array lon) distance_range idxs s →
  finite_trial s ∧ ring_trial lat lon distance_range idxs s.
Proof.
  intros Hfin H3 (slat & slon & c & Hslat & Hslon & Hfit & Hc & Hn).
  destruct (nd_take_float _ _ _ Hslat) as (xlat & Hxlat & ->).
  destruct (nd_take_float _ _ _ Hslon) as (xlon & Hxlon & ->).
  pose proof (Forall2_length _ _ _ Hxlat) as Hl1.
  pose proof (Forall2_length _ _ _ Hxlon) as Hl2.
  destruct (fit_circle_finite xlat xlon c Hfin) as (H1 & H2 & Hr);
    [congruence| |done|].
  { intros ->. simpl in Hl1. lia. }
  destruct s as [[[n a] b] r]. simpl in Hc. subst c.
  cbn [fst snd] in *.
  destruct a as [clat|], b as [clon|], r as [radius|]; try done.
  split; [done|].
  exists xlat, xlon, clat, clon, radius. split_and!; [done..|].
  rewrite Hn, inlier_points_float, length_fmap. done.
Qed.

(** The loop on valid draws: it records one trial per draw, in order. *)
Lemma trials_from_spec (lat lon : ndarray) (distance_range : Q) :
  nd_len lat = nd_len lon → (3 ≤ nd_len lat)%nat → choice_ok →
  ∀ (n : nat) (st : rng_state) (acc : list trial),
  ∃ samples st',
    trials_from st lat lon distance_range n acc = (Ok (acc ++ samples), st') ∧
    length (draws_from st (nd_len lat) n) = n ∧
    Forall (valid_draw (nd_len lat)) (draws_from st (nd_len lat) n) ∧
    Forall2 (is_trial lat lon distance_range)
            (draws_from st (nd_len lat) n) samples.
Proof.
  intros Hlen H3 Hchoice. induction n as [|n IH]; intros st acc.
  - exists [], st. cbn [trials_from draws_from]. rewrite app_nil_r.
    split_and!; [done|done|constructor|constructor].
  - cbn [trials_from draws_from].
    rewrite bool_decide_eq_false_2 by lia.
    pose proof (Hchoice st (nd_len lat) 3%nat H3) as Hdraw. cbn zeta in Hdraw.
    destruct (choice_draw st (nd_len lat) 3) as [idxs st1]. cbn [fst] in Hdraw.
    destruct Hdraw as (Hl & Hnd & Hlt).
    destruct (score_trial_ok lat lon distance_range idxs Hlen Hlt)
      as (s & -> & Hs).
    destruct (IH st1 (acc ++ [s])) as (samples & st' & -> & Hn & Hvalid & Hall).
    exists (s :: samples), st'. rewrite <- app_assoc.
    split_and!; [done|by cbn [length]; rewrite Hn| |by constructor].
    constructor; [done|done].
Qed.

(** The part after the loop on a non-empty list of samples. *)
Lemma ransac_refit_unfold (lat lon : ndarray) (distance_range : Q)
    (samples : list trial) (w : trial) :
  nd_len lat = nd_len lon →
  last (sorted trial_lt samples) = Some w →
  ransac_refit lat lon distance_range samples
  = fit_circle (inlier_lat (circle_of w) distance_range lat lon)
               (inlier_lon (circle_of w) distance_range lat lon).
Proof.
  intros Hlen Hlast. unfold ransac_refit, subscript_last. rewrite Hlast.
  cbn [mbind result_bind]. destruct w as [[[n_in clat] clon] radius].
  rewrite center_dists_Ok by done. cbn [mbind result_bind circle_of].
  rewrite (inlier_mask (clat, clon, radius)).
  unfold nd_mask, inlier_lat, inlier_lon, inlier_points, points.
  destruct (mask_select_zip
              (inlier_point (nd_dtype lat) (nd_dtype lon) (clat, clon, radius)
                            distance_range)
              (nd_data lat) (nd_data lon) Hlen) as [-> ->].
  done.
Qed.

Lemma inlier_arrays_lengths (c : float * float * float) (distance_range : Q)
    (lat lon : ndarray) :
  nd_len (inlier_lat c distance_range lat lon)
  = nd_len (inlier_lon c distance_range lat lon).
Proof.
  unfold nd_len, inlier_lat, inlier_lon. cbn [nd_data].
  by rewrite !length_fmap.
Qed.
End ransac.

(** The stand-in generator and minimiser satisfy what is assumed of the
    collaborators. *)
Lemma counter_rng_choice_ok : @choice_ok counter_rng.
Proof.
  intros st population size Hle. cbn [choice_draw counter_rng fst].
  assert (Hperm : rotate st (seq 0 population) ≡ₚ seq 0 population).
  { unfold rotate. rewrite Permutation_app_comm. by rewrite take_drop. }
  split_and!.
  - rewrite length_take, length_rotate, length_seq. lia.
  - eapply sublist_NoDup; [|apply sublist_take].
    rewrite Hperm. apply NoDup_seq.
  - apply Forall_take. rewrite Hperm. apply Forall_seq. intros; lia.
Qed.

Lemma null_minimizer_finite : @minimize2_finite null_minimizer.
Proof. intros f x0 H1 H2. done. Qed.



(** X25: on at least three points given as arrays of finite floats and
    for [n >= 1], [ransac_fit_circle] performs exactly [n] trials; trial [k]
    draws three distinct indices from the generator seeded with 12345,
    fits a circle to exactly the points at these indices and scores it by
    the number of points, among all, with
    [|radius - distance| <= distance_range]; the winner is the last
    recorded tuple in sorted order, the greatest in the lexicographic
    order of (score, clat, clon, radius); and the result is the circle
    fitted to exactly the points within [distance_range] of the winner's
    circle. The generator draws distinct indices in range and the
    minimiser returns finite points from finite ones. *)
Theorem ransac_fit_circle_spec {G : Geod} {Sq : Sqrt} {M : Minimizer}
    {R : Generator} {I : Int64Cast} (lat lon : list Q) (distance_range : Q)
    (n : nat) (h : heap) :
  length lat = length lon →
  (3 ≤ length lat)%nat →
  (1 ≤ n)%nat →
  choice_ok →
  minimize2_finite →
  ∃ samples winner clat clon radius c h',
    let draws := draws_from (default_rng_state 12345) (length lat) n in
    let inliers :=
      filter (in_ring clat clon radius distance_range) (Qpoints lat lon) in
    length draws = n ∧
    Forall (valid_draw (length lat)) draws ∧
    Forall2 (ring_trial lat lon distance_range) draws samples ∧
    last (sorted trial_lt samples) = Some winner ∧
    winner ∈ samples ∧
    (∀ s, s ∈ samples → trial_le s winner) ∧
    circle_of winner = (Fin clat, Fin clon, Fin radius) ∧
    fit_circle (float_array inliers.*1) (float_array inliers.*2) = Ok c ∧
    ransac_fit_circle (float_array lat) (float_array lon) distance_range n h
    = (Ok c, h').
Proof.
  intros Hlen H3 Hn Hchoice Hfin.
  assert (Hlens : nd_len (float_array lat) = nd_len (float_array lon))
    by (by rewrite !float_array_len).
  destruct (trials_from_spec (float_array lat) (float_array lon) distance_range
              Hlens ltac:(by rewrite float_array_len) Hchoice n
              (default_rng_state 12345) [])
    as (samples & st' & Hrun & Hdraws & Hvalid & Htrials).
  rewrite float_array_len in Hdraws, Hvalid, Htrials.
  assert (Hne : samples ≠ []).
  { intros ->. apply Forall2_length in Htrials. rewrite Hdraws in Htrials.
    simpl in Htrials. lia. }
  destruct (sorted_last_exists trial_lt samples Hne) as [winner Hlast].
  assert (Hboth : Forall2 (λ idxs s, finite_trial s ∧
                             ring_trial lat lon distance_range idxs s)
                    (draws_from (default_rng_state 12345) (length lat) n) samples).
  { apply Forall2_same_length_lookup. split; [by eapply Forall2_length|].
    intros k idxs s Hidxs Hk.
    eapply is_trial_finite; [done| |].
    - eapply Forall_lookup_1 in Hvalid; [|exact Hidxs]. by destruct Hvalid.
    - by eapply Forall2_lookup_lr. }
  assert (Hfinite : Forall finite_trial samples).
  { apply Forall_forall. intros s Hs.
    apply list_elem_of_lookup_1 in Hs as [k Hk].
    by destruct (Forall2_lookup_r _ _ _ _ _ Hboth Hk) as (idxs & _ & ? & _). }
  destruct (sorted_trials_last samples winner Hfinite Hlast) as [Hin Hmax].
  assert (Hw : finite_trial winner).
  { by eapply Forall_forall in Hfinite. }
  destruct winner as [[[score [clat|]] [clon|]] [radius|]];
    try (exfalso; cbv [finite_trial finite] in Hw; tauto).
  destruct (inlier_arrays_float clat clon radius distance_range lat lon)
    as [Hilat Hilon].
  destruct (fit_circle_ok
              (inlier_lat (Fin clat, Fin clon, Fin radius) distance_range
                          (float_array lat) (float_array lon))
              (inlier_lon (Fin clat, Fin clon, Fin radius) distance_range
                          (float_array lat) (float_array lon)))
    as [c Hc].
  { apply inlier_arrays_lengths. }
  exists samples, (score, Fin clat, Fin clon, Fin radius), clat, clon, radius,
         c, (h ++ [st']).
  cbn zeta. split_and!; [done|done| |done|done|done|done| |].
  - eapply Forall2_impl; [exact Hboth|]. by intros idxs s [_ ?].
  - by rewrite <- Hilat, <- Hilon.
  - rewrite ransac_fit_circle_run, Hrun. cbn [app mbind result_bind].
    rewrite (ransac_refit_unfold _ _ _ _ _ Hlens Hlast). cbn [circle_of].
    by rewrite Hc.
Qed.

Lemma ransac_fit_circle_spec_witness :
  ∃ samples winner clat clon radius c h',
    let draws := draws_from (@default_rng_state counter_rng 12345) 4 2 in
    let inliers :=
      filter (@in_ring taxicab clat clon radius 1)
             (Qpoints [0; 0; 1; 5]%Q [0; 1; 0; 5]%Q) in
    length draws = 2%nat ∧
    Forall (valid_draw 4) draws ∧
    Forall2 (@ring_trial taxicab floor_sqrt null_minimizer least_int64
               [0; 0; 1; 5]%Q [0; 1; 0; 5]%Q 1) draws samples ∧
    last (sorted trial_lt samples) = Some winner ∧
    winner ∈ samples ∧
    (∀ s, s ∈ samples → trial_le s winner) ∧
    circle_of winner = (Fin clat, Fin clon, Fin radius) ∧
    @fit_circle taxicab floor_sqrt null_minimizer least_int64
      (float_array inliers.*1) (float_array inliers.*2) = Ok c ∧
    @ransac_fit_circle taxicab floor_sqrt null_minimizer counter_rng least_int64
      (float_array [0; 0; 1; 5]%Q) (float_array [0; 1; 0; 5]%Q) 1 2 []
    = (Ok c, h').
Proof.
  apply (@ransac_fit_circle_spec taxicab floor_sqrt null_minimizer counter_rng
           least_int64 [0; 0; 1; 5]%Q [0; 1; 0; 5]%Q 1 2 []).
  - reflexivity.
  - simpl. lia.
  - lia.
  - exact counter_rng_choice_ok.
  - exact null_minimizer_finite.
Defined.

Lemma inlier_negative_range (radius d : float) (distance_range : Q) :
  (distance_range < 0)%Q → inlier radius distance_range d = false.
Proof.
  intros Hneg. unfold inlier, fle, fcmp, fabs, fsub, flift1, flift2.
  destruct radius as [r|], d as [x|]; try done.
  apply not_true_iff_false. rewrite Qle_bool_iff.
  pose proof (Qabs_nonneg (r - x)). lra.
Qed.

Lemma inlier_points_negative_range {G : Geod} {I : Int64Cast}
    (c : float * float * float) (distance_range : Q) (lat lon : ndarray) :
  (distance_range < 0)%Q → inlier_points c distance_range lat lon = [].
Proof.
  intros Hneg. unfold inlier_points.
  induction (points lat lon) as [|p l IH]; [done|].
  rewrite filter_cons_False; [done|].
  destruct c as [[clat clon] radius]. cbn [inlier_point].
  by rewrite inlier_negative_range.
Qed.

(** C9, the claim as stated fails: with a negative [distance_range] the
    winning circle has no inlier at all, and [ransac_fit_circle] returns
    a result (all [NaN]) instead of signalling [FittingFailed]. *)
Lemma ransac_fit_circle_no_FittingFailed :
  ∃ samples winner,
    (@trials_from taxicab floor_sqrt null_minimizer counter_rng least_int64
       (@default_rng_state counter_rng 12345)
       (float_array [0; 0; 1; 5]%Q) (float_array [0; 1; 0; 5]%Q) (-1) 2 []).1
    = Ok samples ∧
    last (sorted trial_lt samples) = Some winner ∧
    length (@inlier_points taxicab least_int64 (circle_of winner) (-1)
              (float_array [0; 0; 1; 5]%Q) (float_array [0; 1; 0; 5]%Q)) = 0%nat ∧
    (@ransac_fit_circle taxicab floor_sqrt null_minimizer counter_rng least_int64
       (float_array [0; 0; 1; 5]%Q) (float_array [0; 1; 0; 5]%Q) (-1) 2 []).1
    = Ok (NaN, NaN, NaN) ∧
    ¬ raises (@ransac_fit_circle taxicab floor_sqrt null_minimizer counter_rng
                least_int64 (float_array [0; 0; 1; 5]%Q)
                (float_array [0; 1; 0; 5]%Q) (-1) 2 []).1 "FittingFailed".
Proof.
  do 2 eexists. split_and!.
  - vm_compute. reflexivity.
  - vm_compute. reflexivity.
  - vm_compute. reflexivity.
  - vm_compute. reflexivity.
  - intros [msg Hmsg]. vm_compute in Hmsg. discriminate Hmsg.
Qed.

(** C9, amended: [ransac_fit_circle] has no check on the size of the
    inlier set of the winning circle: on at least three points and for
    [n >= 1] it always returns what [fit_circle] returns on the inliers,
    however few they are, and raises nothing; with a negative
    [distance_range] there is no inlier and the returned radius is
    [NaN]. *)
Theorem ransac_fit_circle_any_inliers {G : Geod} {Sq : Sqrt} {M : Minimizer}
    {R : Generator} {I : Int64Cast} (lat lon : ndarray) (distance_range : Q)
    (n : nat) (h : heap) :
  nd_len lat = nd_len lon →
  (3 ≤ nd_len lat)%nat →
  (1 ≤ n)%nat →
  choice_ok →
  ∃ samples winner c h',
    (trials_from (default_rng_state 12345) lat lon distance_range n []).1
    = Ok samples ∧
    last (sorted trial_lt samples) = Some winner ∧
    fit_circle (inlier_lat (circle_of winner) distance_range lat lon)
               (inlier_lon (circle_of winner) distance_range lat lon)
    = Ok c ∧
    ransac_fit_circle lat lon distance_range n h = (Ok c, h') ∧
    ((distance_range < 0)%Q →
     inlier_points (circle_of winner) distance_range lat lon = [] ∧
     c.2 = NaN).
Proof.
  intros Hlen H3 Hn Hchoice.
  destruct (trials_from_spec lat lon distance_range Hlen H3 Hchoice n
              (default_rng_state 12345) [])
    as (samples & st' & Hrun & Hdraws & _ & Htrials).
  assert (Hne : samples ≠ []).
  { intros ->. apply Forall2_length in Htrials. rewrite Hdraws in Htrials.
    simpl in Htrials. lia. }
  destruct (sorted_last_exists trial_lt samples Hne) as [winner Hlast].
  destruct (fit_circle_ok
              (inlier_lat (circle_of winner) distance_range lat lon)
              (inlier_lon (circle_of winner) distance_range lat lon))
    as [c Hc].
  { apply inlier_arrays_lengths. }
  exists samples, winner, c, (h ++ [st']).
  split_and!; [by rewrite Hrun|done|done| |].
  - rewrite ransac_fit_circle_run, Hrun. cbn [app mbind result_bind].
    by rewrite (ransac_refit_unfold _ _ _ _ winner Hlen Hlast), Hc.
  - intros Hneg.
    pose proof (inlier_points_negative_range (circle_of winner)
                  distance_range lat lon Hneg) as Hnil.
    split; [done|]. unfold inlier_lat, inlier_lon in Hc. rewrite Hnil in Hc.
    rewrite fit_circle_unfold in Hc by done. cbn zeta in Hc.
    by injection Hc as <-.
Qed.

Lemma ransac_fit_circle_any_inliers_witness :
  ∃ samples winner c h',
    (@trials_from taxicab floor_sqrt null_minimizer counter_rng least_int64
       (@default_rng_state counter_rng 12345)
       (float_array [0; 0; 1; 5]%Q) (float_array [0; 1; 0; 5]%Q) (-1) 2 []).1
    = Ok samples ∧
    last (sorted trial_lt samples) = Some winner ∧
    @fit_circle taxicab floor_sqrt null_minimizer least_int64
      (@inlier_lat taxicab least_int64 (circle_of winner) (-1)
         (float_array [0; 0; 1; 5]%Q) (float_array [0; 1; 0; 5]%Q))
      (@inlier_lon taxicab least_int64 (circle_of winner) (-1)
         (float_array [0; 0; 1; 5]%Q) (float_array [0; 1; 0; 5]%Q))
    = Ok c ∧
    @ransac_fit_circle taxicab floor_sqrt null_minimizer counter_rng least_int64
      (float_array [0; 0; 1; 5]%Q) (float_array [0; 1; 0; 5]%Q) (-1) 2 []
    = (Ok c, h') ∧
    @inlier_points taxicab least_int64 (circle_of winner) (-1)
      (float_array [0; 0; 1; 5]%Q) (float_array [0; 1; 0; 5]%Q) = [] ∧
    c.2 = NaN.
Proof.
  destruct (@ransac_fit_circle_any_inliers taxicab floor_sqrt null_minimizer
              counter_rng least_int64
              (float_array [0; 0; 1; 5]%Q) (float_array [0; 1; 0; 5]%Q) (-1) 2 [])
    as (samples & winner & c & h' & Hs & Hw & Hc & Hr & Hneg).
  - reflexivity.
  - vm_compute. lia.
  - lia.
  - exact counter_rng_choice_ok.
  - exists samples, winner, c, h'. split_and!; [done..| |].
    + apply Hneg. reflexivity.
    + apply Hneg. reflexivity.
Defined.

(* ===================================================================== *)
(** ** [get_takeoff_landing] *)
(* ===================================================================== *)

Lemma filter_first {A} (P : A → Prop) `{∀ x, Decision (P x)} (l : list A) (x : A) :
  filter P l !! 0%nat = Some x →
  ∃ i, l !! i = Some x ∧ P x ∧ ∀ k y, (k < i)%nat → l !! k = Some y → ¬ P y.
Proof.
  induction l as [|a l IH]; [done|].
  rewrite filter_cons. case_decide as Ha.
  - intros [= ->]. exists 0%nat. split_and!; [done|done|intros; lia].
  - intros Hx. destruct (IH Hx) as (i & Hi & HP & Hbefore).
    exists (S i). split_and!; [done|done|].
    intros [|k] y Hk Hy; simpl in Hy; [by simplify_eq|].
    apply (Hbefore k); [lia|done].
Qed.

Lemma filter_last {A} (P : A → Prop) `{∀ x, Decision (P x)} (l : list A) (x : A) :
  last (filter P l) = Some x →
  ∃ j, l !! j = Some x ∧ P x ∧ ∀ k y, (j < k)%nat → l !! k = Some y → ¬ P y.
Proof.
  induction l as [|a l IH]; [done|].
  rewrite filter_cons. case_decide as Ha.
  - rewrite last_cons. destruct (last (filter P l)) as [z|] eqn:Hl.
    + intros [= ->]. destruct (IH eq_refl) as (j & Hj & HP & Hafter).
      exists (S j). split_and!; [done|done|].
      intros [|k] y Hk Hy; [lia|]. simpl in Hy. apply (Hafter k); [lia|done].
    + intros [= ->]. apply last_None in Hl.
      exists 0%nat. split_and!; [done|done|].
      intros [|k] y Hk Hy; [lia|]. simpl in Hy. intros HPy.
      eapply filter_nil_not_elem_of; [exact Hl|exact HPy|].
      by eapply list_elem_of_lookup_2.
  - intros Hx. destruct (IH Hx) as (j & Hj & HP & Hafter).
    exists (S j). split_and!; [done|done|].
    intros [|k] y Hk Hy; [lia|]. simpl in Hy. apply (Hafter k); [lia|done].
Qed.

(** In an increasing list the order of the positions is the order of
    the elements. *)
Lemma increasing_lookup_le (ts : list Z) (i j : nat) (a b : Z) :
  increasing ts → (i ≤ j)%nat → ts !! i = Some a → ts !! j = Some b → a ≤ b.
Proof.
  intros Hinc. revert i j.
  induction Hinc as [|x l Hl IH Hall]; intros i j Hij Hi Hj; [done|].
  destruct i as [|i], j as [|j]; simpl in Hi, Hj; simplify_eq; try lia.
  - assert (a < b); [|lia]. eapply Forall_forall in Hall; [exact Hall|].
    by eapply list_elem_of_lookup_2.
  - apply (IH i j); [lia|done..].
Qed.

Lemma airport_takeoff_cases (t : Z) :
  airport_takeoff_wgs84 t = Ok 681 ∨ airport_takeoff_wgs84 t = Ok 90 ∨
  airport_takeoff_wgs84 t = Ok 9.
Proof.
  unfold airport_takeoff_wgs84. repeat case_bool_decide; auto. lia.
Qed.

Lemma airport_landing_cases (t : Z) :
  airport_landing_wgs84 t = Ok 681 ∨ airport_landing_wgs84 t = Ok 90 ∨
  airport_landing_wgs84 t = Ok 9.
Proof.
  unfold airport_landing_wgs84. repeat case_bool_decide; auto. lia.
Qed.

Lemma above_mono (low high : Z) (s : alt_sample) :
  low ≤ high → above high s → above low s.
Proof.
  unfold above. destruct (a_alt s) as [q|]; [|done]. cbn.
  rewrite !Qlt_bool_iff, (Zle_Qle low high). intros. lra.
Qed.

(** What a successful call of [get_takeoff_landing] returns, in terms of
    the samples. *)
Lemma get_takeoff_landing_Ok (flight_id : string) (ds : list alt_sample)
    (takeoff landing duration : Z) :
  get_takeoff_landing flight_id ds = Ok (takeoff, landing, duration) →
  ∃ t_first t_last thr_takeoff thr_landing i j si sj,
    (a_time <$> ds) !! 0%nat = Some t_first ∧
    last (a_time <$> ds) = Some t_last ∧
    airport_takeoff_wgs84 t_first = Ok thr_takeoff ∧
    airport_landing_wgs84 t_last = Ok thr_landing ∧
    ds !! i = Some si ∧ a_time si = takeoff ∧ above thr_takeoff si ∧
    (∀ k s, (k < i)%nat → ds !! k = Some s → ¬ above thr_takeoff s) ∧
    ds !! j = Some sj ∧ a_time sj = landing ∧ above thr_landing sj ∧
    (∀ k s, (j < k)%nat → ds !! k = Some s → ¬ above thr_landing s) ∧
    duration = (landing - takeoff) `div` ns_per_minute.
Proof.
  unfold get_takeoff_landing, subscript, subscript_last.
  destruct ((a_time <$> ds) !! 0%nat) as [t_first|] eqn:H0;
    cbn [mbind result_bind]; [|done].
  destruct (airport_takeoff_wgs84 t_first) as [thr_to|e] eqn:Hto;
    cbn [mbind result_bind]; [|done].
  destruct (last (a_time <$> ds)) as [t_last|] eqn:H1;
    cbn [mbind result_bind]; [|done].
  destruct (airport_landing_wgs84 t_last) as [thr_ld|e] eqn:Hld;
    cbn [mbind result_bind]; [|done].
  unfold times_above.
  destruct ((a_time <$> filter _ ds) !! 0%nat) as [t|] eqn:Hi;
    cbn [mbind result_bind]; [|done].
  destruct (last (a_time <$> filter _ ds)) as [t'|] eqn:Hj;
    cbn [mbind result_bind]; [|done].
  intros [= <- <- <-].
  apply list_lookup_fmap_Some in Hi as (si & -> & Hi).
  rewrite fmap_last in Hj.
  destruct (last (filter _ ds)) as [sj|] eqn:Hj'; [|done].
  injection Hj as <-.
  apply filter_first in Hi as (i & Hi & Pi & Hbefore).
  apply filter_last in Hj' as (j & Hj & Pj & Hafter).
  exists t_first, t_last, thr_to, thr_ld, i, j, si, sj.
  split_and!; done.
Qed.

Lemma get_takeoff_landing_Err (flight_id : string) (ds : list alt_sample) (e : exn) :
  get_takeoff_landing flight_id ds = Err e → exn_class e = "IndexError".
Proof.
  unfold get_takeoff_landing, subscript, subscript_last.
  destruct ((a_time <$> ds) !! 0%nat) as [t_first|];
    cbn [mbind result_bind]; [|by intros [= <-]].
  destruct (airport_takeoff_cases t_first) as [->|[->| ->]];
    cbn [mbind result_bind].
  all: destruct (last (a_time <$> ds)) as [t_last|];
    cbn [mbind result_bind]; [|by intros [= <-]].
  all: destruct (airport_landing_cases t_last) as [->|[->| ->]];
    cbn [mbind result_bind].
  all: destruct (times_above _ ds !! 0%nat);
    cbn [mbind result_bind]; [|by intros [= <-]].
  all: destruct (last (times_above _ ds));
    cbn [mbind result_bind]; [done|by intros [= <-]].
Qed.

Lemma airport_takeoff_by_date (t thr : Z) :
  airport_takeoff_wgs84 t = Ok thr →
  (t < date_2024_08_10 → thr = 681) ∧
  (date_2024_08_10 ≤ t < date_2024_09_07 → thr = 90) ∧
  (date_2024_09_07 ≤ t → thr = 9).
Proof.
  assert (Hd : date_2024_08_10 < date_2024_09_07) by reflexivity.
  unfold airport_takeoff_wgs84.
  repeat case_bool_decide; intros [= <-]; split_and!; intros; lia.
Qed.

Lemma airport_landing_by_date (t thr : Z) :
  airport_landing_wgs84 t = Ok thr →
  (t < date_2024_09_05 → thr = 90) ∧
  (date_2024_09_05 ≤ t < date_2024_09_29 → thr = 9) ∧
  (date_2024_09_29 ≤ t → thr = 681).
Proof.
  assert (Hd : date_2024_09_05 < date_2024_09_29) by reflexivity.
  unfold airport_landing_wgs84.
  repeat case_bool_decide; intros [= <-]; split_and!; intros; lia.
Qed.

(** X1: a successful [get_takeoff_landing] returns as take-off the time
    of the first sample above the altitude of the departure airport and
    as landing the time of the last sample above the altitude of the
    arrival airport; no earlier, respectively later, sample is above that
    altitude.  The departure airport goes by the first timestamp of the
    record: Memmingen (681 m) before 2024-08-10, Sal (90 m) from then to
    before 2024-09-07, Barbados (9 m) from then on; the arrival airport
    by the last timestamp: Sal before 2024-09-05, Barbados from then to
    before 2024-09-29, Memmingen from then on. *)
Theorem get_takeoff_landing_first_last (flight_id : string)
    (ds : list alt_sample) (takeoff landing duration : Z) :
  get_takeoff_landing flight_id ds = Ok (takeoff, landing, duration) →
  ∃ t_first t_last thr_takeoff thr_landing i j si sj,
    (a_time <$> ds) !! 0%nat = Some t_first ∧
    last (a_time <$> ds) = Some t_last ∧
    (t_first < midnight 19945 → thr_takeoff = 681) ∧
    (midnight 19945 ≤ t_first < midnight 19973 → thr_takeoff = 90) ∧
    (midnight 19973 ≤ t_first → thr_takeoff = 9) ∧
    (t_last < midnight 19971 → thr_landing = 90) ∧
    (midnight 19971 ≤ t_last < midnight 19995 → thr_landing = 9) ∧
    (midnight 19995 ≤ t_last → thr_landing = 681) ∧
    ds !! i = Some si ∧ a_time si = takeoff ∧ above thr_takeoff si ∧
    (∀ k s, (k < i)%nat → ds !! k = Some s → ¬ above thr_takeoff s) ∧
    ds !! j = Some sj ∧ a_time sj = landing ∧ above thr_landing sj ∧
    (∀ k s, (j < k)%nat → ds !! k = Some s → ¬ above thr_landing s).
Proof.
  intros Hres.
  destruct (get_takeoff_landing_Ok _ _ _ _ _ Hres)
    as (t_first & t_last & thr_to & thr_ld & i & j & si & sj & H0 & H1
        & Hto & Hld & Hi & Hti & Pi & Hbefore & Hj & Htj & Pj & Hafter & _).
  exists t_first, t_last, thr_to, thr_ld, i, j, si, sj.
  change (midnight 19945) with date_2024_08_10.
  change (midnight 19973) with date_2024_09_07.
  change (midnight 19971) with date_2024_09_05.
  change (midnight 19995) with date_2024_09_29.
  destruct (airport_takeoff_by_date _ _ Hto) as (Ha1 & Ha2 & Ha3).
  destruct (airport_landing_by_date _ _ Hld) as (Hb1 & Hb2 & Hb3).
  repeat (split; [assumption|]). assumption.
Qed.

Lemma get_takeoff_landing_first_last_witness :
  ∃ t_first t_last thr_takeoff thr_landing i j si sj,
    (a_time <$> hop) !! 0%nat = Some t_first ∧
    last (a_time <$> hop) = Some t_last ∧
    (t_first < midnight 19945 → thr_takeoff = 681) ∧
    (midnight 19945 ≤ t_first < midnight 19973 → thr_takeoff = 90) ∧
    (midnight 19973 ≤ t_first → thr_takeoff = 9) ∧
    (t_last < midnight 19971 → thr_landing = 90) ∧
    (midnight 19971 ≤ t_last < midnight 19995 → thr_landing = 9) ∧
    (midnight 19995 ≤ t_last → thr_landing = 681) ∧
    hop !! i = Some si ∧ a_time si = 1723334460000000000 ∧
    above thr_takeoff si ∧
    (∀ k s, (k < i)%nat → hop !! k = Some s → ¬ above thr_takeoff s) ∧
    hop !! j = Some sj ∧ a_time sj = 1723334590000000000 ∧
    above thr_landing sj ∧
    (∀ k s, (j < k)%nat → hop !! k = Some s → ¬ above thr_landing s).
Proof.
  apply (get_takeoff_landing_first_last "HALO-20240811a" hop _ _ 2).
  reflexivity.
Defined.

(** X2: on a record with increasing timestamps a successful
    [get_takeoff_landing] returns a take-off that is not after the
    landing, both within the record, and a duration that is the number
    of whole minutes between them, never negative. *)
Theorem get_takeoff_landing_ordered (flight_id : string)
    (ds : list alt_sample) (takeoff landing duration : Z) :
  increasing (a_time <$> ds) →
  get_takeoff_landing flight_id ds = Ok (takeoff, landing, duration) →
  ∃ t_first t_last,
    (a_time <$> ds) !! 0%nat = Some t_first ∧
    last (a_time <$> ds) = Some t_last ∧
    t_first ≤ takeoff ∧ takeoff ≤ landing ∧ landing ≤ t_last ∧
    0 ≤ duration ∧
    duration * ns_per_minute ≤ landing - takeoff
      < (duration + 1) * ns_per_minute.
Proof.
  intros Hinc Hres.
  destruct (get_takeoff_landing_Ok _ _ _ _ _ Hres)
    as (t_first & t_last & thr_to & thr_ld & i & j & si & sj & H0 & H1
        & Hto & Hld & Hi & Hti & Pi & Hbefore & Hj & Htj & Pj & Hafter & ->).
  exists t_first, t_last.
  assert (Hti' : (a_time <$> ds) !! i = Some takeoff)
    by (by rewrite list_lookup_fmap, Hi; simpl; rewrite Hti).
  assert (Htj' : (a_time <$> ds) !! j = Some landing)
    by (by rewrite list_lookup_fmap, Hj; simpl; rewrite Htj).
  assert (Hij : (i ≤ j)%nat).
  { destruct (decide (i ≤ j)%nat) as [|Hji]; [done|]. exfalso.
    destruct (decide (thr_to ≤ thr_ld)) as [Hle|Hgt].
    - apply (Hbefore j sj); [lia|done|]. by eapply above_mono.
    - apply (Hafter i si); [lia|done|]. eapply above_mono; [|done]. lia. }
  assert (Hord : takeoff ≤ landing)
    by (by eapply (increasing_lookup_le (a_time <$> ds) i j)).
  assert (Hlo : t_first ≤ takeoff ≤ t_last).
  { apply (increasing_bounds (a_time <$> ds)); [done..|].
    by eapply list_elem_of_lookup_2. }
  assert (Hhi : t_first ≤ landing ≤ t_last).
  { apply (increasing_bounds (a_time <$> ds)); [done..|].
    by eapply list_elem_of_lookup_2. }
  assert (Hpos : 0 < ns_per_minute) by done.
  pose proof (Z.div_pos (landing - takeoff) ns_per_minute ltac:(lia) Hpos).
  pose proof (Z.mul_div_le (landing - takeoff) ns_per_minute Hpos).
  pose proof (Z.mul_succ_div_gt (landing - takeoff) ns_per_minute Hpos).
  split_and!; [done|done|lia|lia|lia|lia|lia|lia].
Qed.

Lemma get_takeoff_landing_ordered_witness :
  ∃ t_first t_last,
    (a_time <$> hop) !! 0%nat = Some t_first ∧
    last (a_time <$> hop) = Some t_last ∧
    t_first ≤ 1723334460000000000 ∧
    1723334460000000000 ≤ 1723334590000000000 ∧
    1723334590000000000 ≤ t_last ∧
    0 ≤ 2 ∧
    2 * ns_per_minute ≤ 1723334590000000000 - 1723334460000000000
      < (2 + 1) * ns_per_minute.
Proof.
  apply (get_takeoff_landing_ordered "HALO-20240811a" hop).
  - repeat constructor.
  - reflexivity.
Defined.

(** X3: on a record whose timestamps are all datetimes, none of them
    [NaT], [get_takeoff_landing] raises nothing but [IndexError], and it
    raises it on every such record in which no altitude exceeds 9 m, the
    lowest airport altitude: the empty record, a record of [NaN]s, a
    flight that never leaves the ground. *)
Theorem get_takeoff_landing_errors (flight_id : string) (ds : list alt_sample) :
  (∀ e, get_takeoff_landing flight_id ds = Err e → exn_class e = "IndexError") ∧
  ((∀ s, s ∈ ds → ¬ above 9 s) →
   raises (get_takeoff_landing flight_id ds) "IndexError").
Proof.
  split; [apply get_takeoff_landing_Err|].
  intros Hlow.
  destruct (get_takeoff_landing flight_id ds) as [[[takeoff landing] duration]|e]
    eqn:Hres.
  - exfalso.
    destruct (get_takeoff_landing_Ok _ _ _ _ _ Hres)
      as (t_first & _ & thr_to & _ & i & _ & si & _ & _ & _
          & Hto & _ & Hi & _ & Pi & _).
    apply (Hlow si); [by eapply list_elem_of_lookup_2|].
    eapply above_mono; [|exact Pi].
    destruct (airport_takeoff_cases t_first) as [H|[H|H]];
      rewrite H in Hto; injection Hto as <-; lia.
  - apply get_takeoff_landing_Err in Hres. destruct e as [cls msg].
    simpl in Hres. subst cls. by exists msg.
Qed.

Lemma get_takeoff_landing_errors_witness :
  raises (get_takeoff_landing "HALO-20240811a"
            [AltSample 0 (Fin 5); AltSample 1 NaN]) "IndexError".
Proof.
  apply (get_takeoff_landing_errors "HALO-20240811a"
           [AltSample 0 (Fin 5); AltSample 1 NaN]).
  intros s Hs.
  apply elem_of_cons in Hs as [->|Hs]; [done|].
  apply list_elem_of_singleton in Hs as ->. done.
Defined.

(* ===================================================================== *)
(** ** [get_ec_track] *)
(* ===================================================================== *)

Section ec_track.
Context {Sat : Sattrack}.

Lemma ec_track_loop_first (roi : string) (valid_date takeoff landing : Z)
    (failed : list Z) (issue_date : Z) (rest : list Z) (tr : track)
    (warnings : list string) :
  (∀ d, d ∈ failed → ∃ e, sattrack_for_day roi d valid_date = Err e) →
  sattrack_for_day roi issue_date valid_date = Ok tr →
  ec_track_loop roi valid_date takeoff landing (failed ++ issue_date :: rest)
                warnings
  = (Ok (sel_time tr takeoff landing),
     warnings ++ replicate (length failed) no_forecast_warning).
Proof.
  intros Hfail Hok. revert warnings.
  induction failed as [|d failed IH]; intros warnings; cbn [app ec_track_loop].
  - rewrite Hok. by rewrite app_nil_r.
  - destruct (Hfail d) as [e ->]; [by left|].
    rewrite IH by (intros d' Hd'; apply Hfail; by right).
    by rewrite <- app_assoc.
Qed.

Lemma ec_track_loop_none (roi : string) (valid_date takeoff landing : Z)
    (failed : list Z) (warnings : list string) :
  (∀ d, d ∈ failed → ∃ e, sattrack_for_day roi d valid_date = Err e) →
  ec_track_loop roi valid_date takeoff landing failed warnings
  = (Err (UnboundLocalError "ec_track"),
     warnings ++ replicate (length failed) no_forecast_warning).
Proof.
  intros Hfail. revert warnings.
  induction failed as [|d failed IH]; intros warnings; cbn [ec_track_loop].
  - by rewrite app_nil_r.
  - destruct (Hfail d) as [e ->]; [by left|].
    rewrite IH by (intros d' Hd'; apply Hfail; by right).
    by rewrite <- app_assoc.
Qed.

Lemma ec_roi_day (takeoff : Z) :
  (if bool_decide (date_2024_09_07 ≤ takeoff `div` ns_per_day * ns_per_day)
   then "BARBADOS" else "CAPE_VERDE") = ec_roi takeoff.
Proof.
  unfold ec_roi.
  assert (Hpos : 0 < ns_per_day) by done.
  pose proof (Z.mul_div_le takeoff ns_per_day Hpos).
  pose proof (Z.mul_succ_div_gt takeoff ns_per_day Hpos).
  unfold date_2024_09_07, ns_per_day in *.
  repeat case_bool_decide; try done; lia.
Qed.

Lemma get_ec_track_unfold (flight_id : string) (ds : list alt_sample)
    (takeoff landing duration : Z) :
  get_takeoff_landing flight_id ds = Ok (takeoff, landing, duration) →
  get_ec_track flight_id ds
  = ec_track_loop (ec_roi takeoff) (takeoff `div` ns_per_day) takeoff landing
      ((λ i, takeoff `div` ns_per_day - Z.of_nat i) <$> seq 0 6) [].
Proof.
  intros Hres. unfold get_ec_track. rewrite Hres. cbn zeta.
  by rewrite ec_roi_day.
Qed.

(** X4: [get_ec_track] asks for the forecast of the day of take-off as
    issued on that day, then one day earlier, and so on up to five days
    earlier, for BARBADOS when the take-off is on or after 2024-09-07
    and for CAPE_VERDE before; the first forecast it gets is returned,
    cut to the samples between take-off and landing, and one warning is
    issued for every day that had none. *)
Theorem get_ec_track_first_issued (flight_id : string) (ds : list alt_sample)
    (takeoff landing duration : Z) (k : nat) (tr : track) :
  get_takeoff_landing flight_id ds = Ok (takeoff, landing, duration) →
  (k < 6)%nat →
  (∀ i, (i < k)%nat →
        ∃ e, sattrack_for_day (ec_roi takeoff)
               (takeoff `div` ns_per_day - Z.of_nat i)
               (takeoff `div` ns_per_day) = Err e) →
  sattrack_for_day (ec_roi takeoff) (takeoff `div` ns_per_day - Z.of_nat k)
                   (takeoff `div` ns_per_day) = Ok tr →
  get_ec_track flight_id ds
  = (Ok (sel_time tr takeoff landing), replicate k no_forecast_warning) ∧
  ∀ s, s ∈ sel_time tr takeoff landing ↔ s ∈ tr ∧ takeoff ≤ s_time s ≤ landing.
Proof.
  intros Hres Hk Hfail Hok. split.
  - rewrite (get_ec_track_unfold _ _ _ _ _ Hres).
    replace (seq 0 6) with (seq 0 k ++ k :: seq (S k) (5 - k)).
    2: { replace 6%nat with (k + S (5 - k))%nat by lia.
         by rewrite seq_app. }
    rewrite fmap_app, fmap_cons.
    rewrite (ec_track_loop_first _ _ _ _ _ _ _ tr); [|  |done].
    + by rewrite length_fmap, length_seq.
    + intros d (i & -> & Hi)%list_elem_of_fmap.
      apply Hfail. apply elem_of_seq in Hi. lia.
  - intros s. unfold sel_time. rewrite list_elem_of_filter. tauto.
Qed.

(** X5: when no forecast was issued on the day of take-off nor on any of
    the five days before, [get_ec_track] returns no track: after six
    warnings the [return] finds [ec_track] unbound. *)
Theorem get_ec_track_none_issued (flight_id : string) (ds : list alt_sample)
    (takeoff landing duration : Z) :
  get_takeoff_landing flight_id ds = Ok (takeoff, landing, duration) →
  (∀ i, (i < 6)%nat →
        ∃ e, sattrack_for_day (ec_roi takeoff)
               (takeoff `div` ns_per_day - Z.of_nat i)
               (takeoff `div` ns_per_day) = Err e) →
  get_ec_track flight_id ds
  = (Err (UnboundLocalError "ec_track"), replicate 6 no_forecast_warning).
Proof.
  intros Hres Hfail.
  rewrite (get_ec_track_unfold _ _ _ _ _ Hres).
  rewrite ec_track_loop_none.
  - by rewrite length_fmap, length_seq.
  - intros d (i & -> & Hi)%list_elem_of_fmap.
    apply Hfail. apply elem_of_seq in Hi. lia.
Qed.
End ec_track.

Lemma get_ec_track_first_issued_witness :
  @get_ec_track (archive [19944] ec_forecast) "HALO-20240811a" hop
  = (Ok (sel_time ec_forecast 1723334460000000000 1723334590000000000),
     replicate 2 no_forecast_warning).
Proof.
  refine (proj1 (@get_ec_track_first_issued (archive [19944] ec_forecast)
                   "HALO-20240811a" hop 1723334460000000000
                   1723334590000000000 2 2 ec_forecast _ _ _ _)).
  - reflexivity.
  - lia.
  - intros i Hi. destruct i as [|[|i]]; [by eexists..|lia].
  - reflexivity.
Defined.

Lemma get_ec_track_none_issued_witness :
  @get_ec_track (archive [19940] ec_forecast) "HALO-20240811a" hop
  = (Err (UnboundLocalError "ec_track"), replicate 6 no_forecast_warning).
Proof.
  apply (@get_ec_track_none_issued (archive [19940] ec_forecast)
           "HALO-20240811a" hop 1723334460000000000 1723334590000000000 2).
  - reflexivity.
  - intros i Hi. destruct i as [|[|[|[|[|[|i]]]]]]; [by eexists..|lia].
Defined.

(* ===================================================================== *)
(** ** [flight_id2datestr] *)
(* ===================================================================== *)

Lemma str_split_no_sep (sep : Ascii.ascii) (s : string) :
  str_contains sep s = false → str_split sep s = [s].
Proof.
  induction s as [|c s IH]; [done|]. cbn [str_contains str_split].
  intros [Hc Hs]%orb_false_iff. apply bool_decide_eq_false in Hc.
  case_bool_decide; [done|]. by rewrite (IH Hs).
Qed.

Lemma str_split_sep (sep : Ascii.ascii) (p q : string) :
  str_contains sep p = false →
  str_split sep (p +:+ String sep q) = p :: str_split sep q.
Proof.
  induction p as [|c p IH]; simpl.
  - intros _. by case_bool_decide.
  - intros [Hc Hp]%orb_false_iff. apply bool_decide_eq_false in Hc.
    case_bool_decide; [done|]. by rewrite (IH Hp).
Qed.

(** X6: for a flight id made of a platform name without hyphen, a
    hyphen, eight characters of date and one trailing letter,
    [flight_id2datestr] returns the date as year, month and day joined by
    hyphens; for an id without any hyphen it raises [IndexError]. *)
Theorem flight_id2datestr_format (platform : string)
    (y1 y2 y3 y4 m1 m2 d1 d2 letter : Ascii.ascii) (flight_id : string) :
  str_contains hyphen platform = false →
  Forall (λ c, c ≠ hyphen) [y1; y2; y3; y4; m1; m2; d1; d2; letter] →
  flight_id2datestr
    (platform +:+ String hyphen
       (String y1 (String y2 (String y3 (String y4 (String m1 (String m2
          (String d1 (String d2 (String letter EmptyString))))))))))
  = Ok (String y1 (String y2 (String y3 (String y4 (String hyphen
         (String m1 (String m2 (String hyphen
            (String d1 (String d2 EmptyString)))))))))) ∧
  (str_contains hyphen flight_id = false →
   raises (flight_id2datestr flight_id) "IndexError").
Proof.
  intros Hp Hdate. split.
  - unfold flight_id2datestr. rewrite (str_split_sep _ _ _ Hp).
    rewrite str_split_no_sep.
    + reflexivity.
    + cbn [str_contains].
      repeat (apply Forall_cons in Hdate as [? Hdate]).
      repeat case_bool_decide; done.
  - intros Hno. unfold flight_id2datestr.
    rewrite (str_split_no_sep _ _ Hno). by eexists.
Qed.

Lemma flight_id2datestr_format_witness :
  flight_id2datestr "HALO-20240811a" = Ok "2024-08-11" ∧
  raises (flight_id2datestr "HALO20240811a") "IndexError".
Proof.
  destruct (flight_id2datestr_format "HALO"
              (Ascii.ascii_of_nat 50) (Ascii.ascii_of_nat 48)
              (Ascii.ascii_of_nat 50) (Ascii.ascii_of_nat 52)
              (Ascii.ascii_of_nat 48) (Ascii.ascii_of_nat 56)
              (Ascii.ascii_of_nat 49) (Ascii.ascii_of_nat 49)
              (Ascii.ascii_of_nat 97) "HALO20240811a")
    as [Hfmt Herr].
  - reflexivity.
  - repeat constructor; discriminate.
  - split; [exact Hfmt|]. apply Herr. reflexivity.
Defined.

(* ===================================================================== *)
(** ** When the overpass functions return *)
(* ===================================================================== *)

Lemma argmin_scan_bound (l : list float) : ∀ (mp : float) (mi i r : nat),
  r = argmin_scan mp mi i l → r = mi ∨ (i ≤ r < i + length l)%nat.
Proof.
  induction l as [|x l IH]; intros mp mi i r Hr; cbn [argmin_scan] in Hr.
  - by left.
  - destruct (is_nan mp); [by left|].
    destruct (negb (fge x mp)).
    + destruct (IH _ _ _ _ Hr) as [->|?]; right; cbn [length]; lia.
    + destruct (IH _ _ _ _ Hr) as [->|?]; [by left|right; cbn [length]; lia].
Qed.

(** [np.argmin] fails on the empty array only, and its index is one of
    the array. *)
Lemma np_argmin_Ok (l : list float) :
  l ≠ [] → ∃ i, np_argmin l = Ok i ∧ (i < length l)%nat.
Proof.
  destruct l as [|x l]; [done|]. intros _.
  exists (argmin_scan x 0 1 l). split; [done|].
  destruct (argmin_scan_bound l x 0%nat 1%nat _ eq_refl) as [->|?];
    cbn [length]; lia.
Qed.

Lemma filter_all {A} (P : A → Prop) `{∀ x, Decision (P x)} (l : list A) :
  (∀ x, x ∈ l → P x) → filter P l = l.
Proof.
  induction l as [|a l IH]; [done|]. intros Hall.
  rewrite filter_cons_True by (apply Hall; by left).
  rewrite IH; [done|]. intros x Hx. apply Hall. by right.
Qed.

(** X7: [get_overpass_point] raises [ValueError] on the empty track and
    returns a result on every other track: the time of one of the
    samples, and the distance from that sample to the target as the
    target is stored in an array of the dtype of the longitudes.  For
    longitudes of dtype [float64], a sample at a finite position and a
    finite target that is the geodesic distance from the sample to the
    target; for a sample with a [NaN] coordinate it is [NaN]. *)
Theorem get_overpass_point_returns {G : Geod} {I : Int64Cast}
    (ds : dataset) (target_lat target_lon : float) :
  (ds_track ds = [] →
   raises (get_overpass_point ds target_lat target_lon) "ValueError") ∧
  (ds_track ds ≠ [] →
   ∃ s, s ∈ ds_track ds ∧
        get_overpass_point ds target_lat target_lon
        = Ok (stored_target_dist (lon_dtype ds) target_lat target_lon s,
              s_time s)) ∧
  (∀ (s : sample) (tlat tlon : Q),
     lon_dtype ds = float64 →
     target_lat = Fin tlat → target_lon = Fin tlon →
     finite_sample s →
     stored_target_dist (lon_dtype ds) target_lat target_lon s
     = Fin (point_dist tlat tlon s)) ∧
  (∀ s : sample,
     s_lat s = NaN ∨ s_lon s = NaN →
     stored_target_dist (lon_dtype ds) target_lat target_lon s = NaN).
Proof.
  split_and!.
  - intros Hnil. rewrite get_overpass_point_unfold. cbn zeta. rewrite Hnil.
    by eexists.
  - intros Hne. rewrite get_overpass_point_unfold. cbn zeta.
    destruct (np_argmin_Ok
                (stored_target_dist (lon_dtype ds) target_lat target_lon
                   <$> ds_track ds))
      as (i & -> & Hlt).
    { by intros Hnil%fmap_nil_inv. }
    cbn [mbind result_bind]. rewrite length_fmap in Hlt.
    destruct (lookup_lt_is_Some_2 _ _ Hlt) as [s Hs].
    exists s. split; [by eapply list_elem_of_lookup_2|].
    unfold subscript. rewrite !list_lookup_fmap, Hs. done.
  - intros s tlat tlon Hdt -> -> Hs. rewrite Hdt.
    by rewrite stored_target_dist_finite.
  - intros s Hnan. unfold stored_target_dist, geod_dist.
    destruct Hnan as [-> | ->]; [by destruct (s_lon s)|done].
Qed.

Lemma get_overpass_point_returns_witness :
  raises (@get_overpass_point taxicab least_int64
            (float_dataset []) (Fin 0) (Fin 1)) "ValueError" ∧
  ∃ s, s ∈ track_east ∧
       @get_overpass_point taxicab least_int64
         (float_dataset track_east) (Fin 0) (Fin 1)
       = Ok (Fin (@point_dist taxicab 0 1 s), s_time s).
Proof.
  pose proof (@get_overpass_point_returns taxicab least_int64
                (float_dataset []) (Fin 0) (Fin 1)) as (Hempty & _).
  pose proof (@get_overpass_point_returns taxicab least_int64
                (float_dataset track_east) (Fin 0) (Fin 1))
    as (_ & Hsome & Hfloat & _).
  split; [by apply Hempty|].
  destruct Hsome as (s & Hs & Hres); [done|].
  exists s. split; [exact Hs|]. rewrite Hres. f_equal. f_equal.
  apply Hfloat; [done..|].
  cbn [float_dataset ds_track] in Hs. unfold track_east in Hs.
  apply elem_of_cons in Hs as [->|Hs]; [done|].
  apply list_elem_of_singleton in Hs as ->. done.
Defined.

(** X8: [get_overpass_track] raises [IndexError] when the second track
    is empty, and on tracks with increasing timestamps it returns a
    result, for either [optimize] setting, whenever the second track is
    not empty and some sample of the first lies in its time window. *)
Theorem get_overpass_track_returns {G : Geod} {M : Minimizer}
    (a_track b_track : track) (optimize : bool) (b0 b1 : Z) (s : sample) :
  raises (get_overpass_track a_track [] optimize) "IndexError" ∧
  (increasing (s_time <$> a_track) →
   increasing (s_time <$> b_track) →
   time_first_last b_track = Ok (b0, b1) →
   s ∈ a_track → b0 ≤ s_time s ≤ b1 →
   ∃ d t, get_overpass_track a_track b_track optimize = Ok (d, t)).
Proof.
  split; [by eexists|]. intros _ _ Hb Hs Hwin.
  assert (Hne : resampled_dist b_track <$> sel_time a_track b0 b1 ≠ []).
  { intros Hnil%fmap_nil_inv.
    eapply (filter_nil_not_elem_of _ _ s Hnil); done. }
  destruct (np_argmin_Ok _ Hne) as (i & Hi & Hlt).
  destruct (lookup_lt_is_Some_2 _ _ Hlt) as [d Hd].
  assert (Ht : is_Some ((r_coord <$> rows_of_track (sel_time a_track b0 b1)) !! i)).
  { apply lookup_lt_is_Some_2. unfold rows_of_track.
    rewrite !length_fmap. by rewrite length_fmap in Hlt. }
  destruct Ht as [t Ht].
  unfold get_overpass_track.
  rewrite (overpass_coarse_unfold _ _ _ _ Hb). cbn zeta. rewrite Hi.
  cbn [mbind result_bind]. destruct optimize.
  - unfold overpass_minimize, subscript. rewrite Ht.
    cbn [mbind result_bind]. by eexists _, _.
  - unfold subscript. rewrite Hd. cbn [mbind result_bind]. rewrite Ht.
    cbn [mbind result_bind]. by eexists _, _.
Qed.

Lemma get_overpass_track_returns_witness :
  ∃ d t, @get_overpass_track taxicab probe_minimizer track_east track_fixed true
         = Ok (d, t).
Proof.
  refine (proj2 (@get_overpass_track_returns taxicab probe_minimizer
                   track_east track_fixed true 0 2000000000
                   (Sample 0 (Fin 0) (Fin 0)))
            _ _ _ _ _).
  - repeat constructor.
  - repeat constructor.
  - reflexivity.
  - by left.
  - simpl. lia.
Defined.

(* ===================================================================== *)
(** ** Interpolation at the samples, and the refinement *)
(* ===================================================================== *)

(** At the abscissa of one of its points the interpolation of increasing
    points is the value of that point. *)
Lemma interp1d_hit (xs : list (Q * float)) :
  ∀ (i : nat) (x : Q) (y : float) (x' : Q),
    Qincreasing (fst <$> xs) → xs !! i = Some (x, y) → (x' == x)%Q →
    interp1d xs x' = y.
Proof.
  induction xs as [|[x0 y0] rest IH]; intros i x y x' Hinc Hi Hx; [done|].
  rewrite fmap_cons in Hinc. cbn [fst] in Hinc.
  apply StronglySorted_cons in Hinc as [Hall Hinc].
  rewrite interp1d_cons. destruct i as [|i]; simpl in Hi.
  - injection Hi as -> ->.
    destruct (Qlt_bool x' x) eqn:H1; [apply Qlt_bool_iff in H1; lra|].
    destruct (Qeq_bool x' x) eqn:H2; [done|].
    apply Qeq_bool_false in H2. done.
  - assert (Hx0 : (x0 < x)%Q).
    { eapply Forall_forall in Hall; [exact Hall|].
      apply list_elem_of_fmap. exists (x, y). split; [done|].
      by eapply list_elem_of_lookup_2. }
    destruct (Qlt_bool x' x0) eqn:H1; [apply Qlt_bool_iff in H1; lra|].
    destruct (Qeq_bool x' x0) eqn:H2; [apply Qeq_bool_iff in H2; lra|].
    destruct rest as [|[x1 y1] rest]; [done|].
    assert (Hx1 : (x1 <= x)%Q).
    { destruct i as [|i]; simpl in Hi.
      - injection Hi as -> ->. lra.
      - rewrite fmap_cons in Hinc. cbn [fst] in Hinc.
        apply StronglySorted_cons in Hinc as [Hall1 _].
        assert (x1 < x)%Q; [|lra].
        eapply Forall_forall in Hall1; [exact Hall1|].
        apply list_elem_of_fmap. exists (x, y). split; [done|].
        by eapply list_elem_of_lookup_2. }
    destruct (Qlt_bool x' x1) eqn:H3; [apply Qlt_bool_iff in H3; lra|].
    by apply (IH i x y x').
Qed.

Lemma resampled_at_sample (b_track : track) (i : nat) (s sa : sample) :
  finite_track b_track →
  increasing (s_time <$> b_track) →
  b_track !! i = Some s → s_time sa = s_time s →
  resampled b_track sa = (s_lat s, s_lon s).
Proof.
  intros Hfin Hinc Hi Ht. rewrite resampled_unfold, Ht by done.
  destruct (finite_sample_coords s) as [Hlat Hlon].
  { eapply finite_track_elem; [done|]. by eapply list_elem_of_lookup_2. }
  rewrite Hlat, Hlon.
  assert (Hside : ∀ f : sample → Q,
            interp1d (lift_points (track_points f b_track)) (inject_Z (s_time s))
            = Fin (f s)).
  { intros f. apply (interp1d_hit _ i (inject_Z (s_time s))); [| |done].
    - rewrite lift_points_fst, track_points_fst. by apply Qincreasing_times.
    - unfold lift_points, track_points.
      by rewrite !list_lookup_fmap, Hi. }
  by rewrite !Hside.
Qed.

(** X9: resampling a track of finite positions with increasing
    timestamps onto its own timestamps gives the track back. *)
Theorem interp_onto_own_times (ds : track) :
  finite_track ds →
  increasing (s_time <$> ds) →
  interp_onto (rows_of_track ds) (s_time <$> ds) = rows_of_track ds.
Proof.
  intros Hfin Hinc.
  rewrite <- (rows_of_track_coords ds), interp_onto_rows.
  unfold rows_of_track. apply list_fmap_ext. intros i s Hs.
  by rewrite (resampled_at_sample ds i s s Hfin Hinc Hs).
Qed.

Lemma interp_onto_own_times_witness :
  interp_onto (rows_of_track track_east) (s_time <$> track_east)
  = rows_of_track track_east.
Proof. apply interp_onto_own_times; repeat constructor. Defined.

(** At the coarse estimate the cost function is the coarse distance. *)
Lemma overpass_cost_zero `{Geod} (a_sel b_track : track) (i : nat) (sa : sample) :
  increasing (s_time <$> a_sel) →
  a_sel !! i = Some sa →
  overpass_cost (shifted_a (s_time sa) a_sel)
                (shifted_b (s_time sa) a_sel b_track) 0
  = resampled_dist b_track sa.
Proof.
  intros Hinc Hi. unfold overpass_cost, resampled_dist, interp_at.
  cbn [fst snd].
  assert (Hzero : (0 == inject_Z (s_time sa - s_time sa) / inject_Z t_unit)%Q).
  { rewrite Z.sub_diag. reflexivity. }
  assert (Ha : ∀ f : row Q → float,
            Qincreasing (fst <$> ((λ r, (id (r_coord r), f r))
                                    <$> shifted_a (s_time sa) a_sel))).
  { intros f. rewrite <- list_fmap_compose.
    change (fst ∘ (λ r : row Q, (id (r_coord r), f r))) with (@r_coord Q).
    apply seconds_from_increasing. by rewrite rows_of_track_coords. }
  assert (Hb : ∀ f : row Q → float,
            Qincreasing (fst <$> ((λ r, (id (r_coord r), f r))
                                    <$> shifted_b (s_time sa) a_sel b_track))).
  { intros f. rewrite <- list_fmap_compose.
    change (fst ∘ (λ r : row Q, (id (r_coord r), f r))) with (@r_coord Q).
    apply seconds_from_increasing.
    rewrite interp_onto_rows, <- list_fmap_compose. exact Hinc. }
  pose (x0 := (inject_Z (s_time sa - s_time sa) / inject_Z t_unit)%Q).
  rewrite (interp1d_hit _ i x0 (resampled b_track sa).2 0 (Hb r_lon)); [| |done].
  2: { unfold shifted_b, seconds_from. rewrite interp_onto_rows.
       by rewrite !list_lookup_fmap, Hi. }
  rewrite (interp1d_hit _ i x0 (resampled b_track sa).1 0 (Hb r_lat)); [| |done].
  2: { unfold shifted_b, seconds_from. rewrite interp_onto_rows.
       by rewrite !list_lookup_fmap, Hi. }
  rewrite (interp1d_hit _ i x0 (s_lon sa) 0 (Ha r_lon)); [| |done].
  2: { unfold shifted_a, seconds_from, rows_of_track.
       by rewrite !list_lookup_fmap, Hi. }
  rewrite (interp1d_hit _ i x0 (s_lat sa) 0 (Ha r_lat)); [| |done].
  2: { unfold shifted_a, seconds_from, rows_of_track.
       by rewrite !list_lookup_fmap, Hi. }
  done.
Qed.

(** The index chosen by the coarse stage is the first one whose distance
    is least. *)
Lemma overpass_coarse_first `{Geod} (a_track b_track : track) (b0 b1 : Z) :
  finite_track a_track →
  finite_track b_track →
  increasing (s_time <$> b_track) →
  time_first_last b_track = Ok (b0, b1) →
  sel_time a_track b0 b1 ≠ [] →
  ∃ i sa q,
    sel_time a_track b0 b1 !! i = Some sa ∧
    resampled_dist b_track sa = Fin q ∧
    overpass_coarse a_track b_track
    = Ok (rows_of_track (sel_time a_track b0 b1),
          interp_onto (rows_of_track b_track)
                      (r_coord <$> rows_of_track (sel_time a_track b0 b1)),
          resampled_dist b_track <$> sel_time a_track b0 b1, i) ∧
    (∀ j sa', (j < i)%nat → sel_time a_track b0 b1 !! j = Some sa' →
       ∃ q', resampled_dist b_track sa' = Fin q' ∧ (q < q')%Q).
Proof.
  intros Hfin_a Hfin_b Hinc Hb Hne.
  destruct (overpass_coarse_argmin a_track b_track b0 b1 Hfin_a Hfin_b Hinc Hb Hne)
    as (i & sa & la & lo & Hsa & _ & _ & _ & Hd & Hc & _ & Hfirst).
  exists i, sa, (geod_inv_dist lo la (lon_of sa) (lat_of sa)).
  split_and!; [exact Hsa|exact Hd|exact Hc|exact Hfirst].
Qed.

(** X10: on tracks of finite positions, among the samples of A at the
    least distance the coarse search reports the earliest: every sample
    of A inside the window of B and before the reported time is strictly
    farther from B. *)
Theorem get_overpass_track_earliest `{Geod} `{Minimizer}
    (a_track b_track : track) (b0 b1 : Z) :
  finite_track a_track →
  finite_track b_track →
  increasing (s_time <$> a_track) →
  increasing (s_time <$> b_track) →
  time_first_last b_track = Ok (b0, b1) →
  sel_time a_track b0 b1 ≠ [] →
  ∃ q t,
    get_overpass_track a_track b_track false = Ok (Fin q, t) ∧
    ∀ sa', sa' ∈ a_track → b0 ≤ s_time sa' ≤ b1 → s_time sa' < t →
      ∃ q', resampled_dist b_track sa' = Fin q' ∧ (q < q')%Q.
Proof.
  intros Hfin_a Hfin_b Hinc_a Hinc_b Hb Hne.
  destruct (overpass_coarse_first a_track b_track b0 b1 Hfin_a Hfin_b Hinc_b Hb Hne)
    as (i & sa & q & Hsa & Hq & Hc & Hfirst).
  exists q, (s_time sa). split.
  - unfold get_overpass_track. rewrite Hc. cbn [mbind result_bind].
    rewrite (subscript_fmap (resampled_dist b_track) _ i sa Hsa).
    cbn [mbind result_bind].
    rewrite rows_of_track_coords, (subscript_fmap s_time _ i sa Hsa).
    cbn [mbind result_bind]. by rewrite Hq.
  - intros sa' Hin Hwin Hlt.
    assert (Hsel : sa' ∈ sel_time a_track b0 b1).
    { unfold sel_time. by apply list_elem_of_filter. }
    apply list_elem_of_lookup in Hsel as [j Hj].
    apply (Hfirst j); [|done].
    destruct (decide (j < i)%nat) as [|Hge]; [done|]. exfalso.
    assert (s_time sa ≤ s_time sa'); [|lia].
    apply (increasing_lookup_le (s_time <$> sel_time a_track b0 b1) i j).
    + by apply sel_time_increasing.
    + lia.
    + by rewrite list_lookup_fmap, Hsa.
    + by rewrite list_lookup_fmap, Hj.
Qed.

Lemma get_overpass_track_earliest_witness :
  ∃ q t,
    @get_overpass_track taxicab null_minimizer track_east track_fixed false
    = Ok (Fin q, t) ∧
    ∀ sa', sa' ∈ track_east → 0 ≤ s_time sa' ≤ 2000000000 → s_time sa' < t →
      ∃ q', @resampled_dist taxicab track_fixed sa' = Fin q' ∧ (q < q')%Q.
Proof.
  apply (@get_overpass_track_earliest taxicab null_minimizer
           track_east track_fixed 0 2000000000).
  - repeat constructor.
  - repeat constructor.
  - repeat constructor.
  - repeat constructor.
  - reflexivity.
  - discriminate.
Defined.

(** X11: on tracks of finite positions the refinement never reports a
    larger distance than the coarse search: when the minimiser does not
    leave its starting point for a worse one, the distance returned with
    [optimize=True] is at most the one returned with [optimize=False]. *)
Theorem get_overpass_track_refines {G : Geod} {M : Minimizer}
    (a_track b_track : track) (b0 b1 : Z) :
  (∀ f x0, finite (f x0) → fle (f (res_x (minimize1 f x0))) (f x0) = true) →
  finite_track a_track →
  finite_track b_track →
  increasing (s_time <$> a_track) →
  increasing (s_time <$> b_track) →
  time_first_last b_track = Ok (b0, b1) →
  sel_time a_track b0 b1 ≠ [] →
  ∃ d_coarse t_coarse d t,
    get_overpass_track a_track b_track false = Ok (Fin d_coarse, t_coarse) ∧
    get_overpass_track a_track b_track true = Ok (Fin d, t) ∧
    (d <= d_coarse)%Q.
Proof.
  intros Hdesc Hfin_a Hfin_b Hinc_a Hinc_b Hb Hne.
  destruct (overpass_coarse_first a_track b_track b0 b1 Hfin_a Hfin_b Hinc_b Hb Hne)
    as (i & sa & q & Hsa & Hq & Hc & _).
  assert (Hsub : subscript (r_coord <$> rows_of_track (sel_time a_track b0 b1)) i
                 = Ok (s_time sa)).
  { rewrite rows_of_track_coords. by apply subscript_fmap. }
  pose proof (overpass_cost_zero (sel_time a_track b0 b1) b_track i sa
                (sel_time_increasing _ _ _ Hinc_a) Hsa) as Hzero.
  rewrite Hq in Hzero. unfold shifted_a, shifted_b in Hzero.
  pose proof (Hdesc (overpass_cost
              (seconds_from (s_time sa) (rows_of_track (sel_time a_track b0 b1)))
              (seconds_from (s_time sa)
                 (interp_onto (rows_of_track b_track)
                    (r_coord <$> rows_of_track (sel_time a_track b0 b1))))) 0%Q)
    as Hle.
  rewrite Hzero in Hle. specialize (Hle Logic.I).
  apply fle_true_Fin in Hle as Hd. destruct Hd as [d Hd].
  exists q, (s_time sa), d,
    (s_time sa + Qtrunc (res_x (minimize1 (overpass_cost
              (seconds_from (s_time sa) (rows_of_track (sel_time a_track b0 b1)))
              (seconds_from (s_time sa)
                 (interp_onto (rows_of_track b_track)
                    (r_coord <$> rows_of_track (sel_time a_track b0 b1))))) 0%Q)
            * inject_Z t_unit)).
  split_and!.
  - unfold get_overpass_track. rewrite Hc. cbn [mbind result_bind].
    rewrite (subscript_fmap (resampled_dist b_track) _ i sa Hsa).
    cbn [mbind result_bind]. rewrite Hsub.
    cbn [mbind result_bind]. by rewrite Hq.
  - unfold get_overpass_track. rewrite Hc. cbn [mbind result_bind].
    unfold overpass_minimize. rewrite Hsub. cbn [mbind result_bind].
    by rewrite Hd.
  - rewrite Hd in Hle. by apply Qle_bool_iff in Hle.
Qed.

Lemma get_overpass_track_refines_witness :
  ∃ d_coarse t_coarse d t,
    @get_overpass_track taxicab probe_minimizer track_east track_fixed false
    = Ok (Fin d_coarse, t_coarse) ∧
    @get_overpass_track taxicab probe_minimizer track_east track_fixed true
    = Ok (Fin d, t) ∧
    (d <= d_coarse)%Q.
Proof.
  apply (@get_overpass_track_refines taxicab probe_minimizer
           track_east track_fixed 0 2000000000 probe_minimizer_descent).
  - repeat constructor.
  - repeat constructor.
  - repeat constructor.
  - repeat constructor.
  - reflexivity.
  - discriminate.
Defined.

(** X12: a track of finite positions compared with itself meets itself
    at its first timestamp, at the distance the geodesic gives between a
    point and itself. *)
Theorem get_overpass_track_same_track {G : Geod} {M : Minimizer}
    (ds : track) (t0 t1 : Z) :
  (∀ lon lat, geod_inv_dist lon lat lon lat == 0)%Q →
  finite_track ds →
  increasing (s_time <$> ds) →
  time_first_last ds = Ok (t0, t1) →
  ∃ q, get_overpass_track ds ds false = Ok (Fin q, t0) ∧ (q == 0)%Q.
Proof.
  intros Hzero Hfin Hinc Hb.
  assert (Hsel : sel_time ds t0 t1 = ds).
  { apply filter_all. intros s Hs.
    apply time_first_last_Ok in Hb as [H0 H1].
    apply (increasing_bounds (s_time <$> ds)); [done..|].
    by apply list_elem_of_fmap_2. }
  assert (Hne : sel_time ds t0 t1 ≠ []).
  { rewrite Hsel. intros ->. by apply time_first_last_Ok in Hb as [? _]. }
  assert (Hself : ∀ j s, ds !! j = Some s →
            ∃ q, resampled_dist ds s = Fin q ∧ (q == 0)%Q).
  { intros j s Hs. unfold resampled_dist.
    rewrite (resampled_at_sample ds j s s Hfin Hinc Hs eq_refl). cbn [fst snd].
    destruct (finite_sample_coords s) as [-> ->].
    { eapply finite_track_elem; [done|]. by eapply list_elem_of_lookup_2. }
    eexists. split; [reflexivity|apply Hzero]. }
  destruct (overpass_coarse_first ds ds t0 t1 Hfin Hfin Hinc Hb Hne)
    as (i & sa & q & Hsa & Hq & Hc & Hfirst).
  rewrite Hsel in Hsa, Hc, Hfirst.
  destruct (Hself i sa Hsa) as (q0 & Hq0 & Hq0z).
  rewrite Hq in Hq0. injection Hq0 as <-.
  assert (Hi : i = 0%nat).
  { destruct i as [|i]; [done|]. exfalso.
    destruct ds as [|s0 rest]; [done|].
    destruct (Hfirst 0%nat s0) as (q' & Hq' & Hlt); [lia|done|].
    destruct (Hself 0%nat s0 eq_refl) as (q'' & Hq'' & Hz).
    rewrite Hq' in Hq''. injection Hq'' as <-. lra. }
  subst i. exists q. split; [|done].
  apply time_first_last_Ok in Hb as [H0 _].
  rewrite list_lookup_fmap, Hsa in H0. injection H0 as <-.
  unfold get_overpass_track. rewrite Hc. cbn [mbind result_bind].
  rewrite (subscript_fmap (resampled_dist ds) _ 0%nat sa Hsa).
  cbn [mbind result_bind].
  rewrite rows_of_track_coords, (subscript_fmap s_time _ 0%nat sa Hsa).
  cbn [mbind result_bind]. by rewrite Hq.
Qed.

Lemma taxicab_same_point (lon lat : Q) :
  (@geod_inv_dist taxicab lon lat lon lat == 0)%Q.
Proof.
  unfold geod_inv_dist, taxicab. rewrite Qred_correct.
  assert (Hlon : (lon - lon == 0)%Q) by lra.
  assert (Hlat : (lat - lat == 0)%Q) by lra.
  rewrite Hlon, Hlat. reflexivity.
Qed.

Lemma get_overpass_track_same_track_witness :
  ∃ q, @get_overpass_track taxicab null_minimizer track_east track_east false
       = Ok (Fin q, 0) ∧ (q == 0)%Q.
Proof.
  apply (@get_overpass_track_same_track taxicab null_minimizer
           track_east 0 2000000000 taxicab_same_point).
  - repeat constructor.
  - repeat constructor.
  - reflexivity.
Defined.



(* ===================================================================== *)
(** ** [ransac_fit_circle]: exceptions, and data without outliers *)
(* ===================================================================== *)

Section ransac_edges.
Context {G : Geod} {Sq : Sqrt} {M : Minimizer} {R : Generator} {I : Int64Cast}.

(** X13: without a trial ([n = 0]) [ransac_fit_circle] raises
    [IndexError], from the last element of an empty list of samples; with
    at least one trial and fewer than three points it raises [ValueError],
    from the draw of three distinct indices. *)
Theorem ransac_fit_circle_errors (lat lon : ndarray) (distance_range : Q)
    (h : heap) :
  raises (ransac_fit_circle lat lon distance_range 0 h).1 "IndexError" ∧
  ∀ n, (1 ≤ n)%nat → (nd_len lat < 3)%nat →
       raises (ransac_fit_circle lat lon distance_range n h).1 "ValueError".
Proof.
  split.
  - rewrite ransac_fit_circle_run. cbn [trials_from fst].
    by eexists.
  - intros n Hn Hlen. rewrite ransac_fit_circle_run.
    destruct n as [|n]; [lia|]. cbn [trials_from].
    rewrite bool_decide_eq_true_2 by done. cbn [fst mbind result_bind].
    by eexists.
Qed.

Lemma inlier_points_all (c : float * float * float) (distance_range : Q)
    (lat lon : ndarray) :
  nd_len lat = nd_len lon →
  (∀ p, p ∈ points lat lon →
        inlier_point (nd_dtype lat) (nd_dtype lon) c distance_range p = true) →
  inlier_lat c distance_range lat lon = lat ∧
  inlier_lon c distance_range lat lon = lon.
Proof.
  intros Hlen Hall. unfold inlier_lat, inlier_lon, inlier_points.
  rewrite filter_all by done. unfold points, nd_len in *.
  destruct lat as [dt_lat lat], lon as [dt_lon lon]. cbn [nd_data nd_dtype] in *.
  split; f_equal; [apply fst_zip|apply snd_zip]; lia.
Qed.

(** X14: when every point is an inlier of the winning circle, the result
    of [ransac_fit_circle] is the result of [fit_circle] on all the
    points. *)
Theorem ransac_fit_circle_all_inliers (lat lon : ndarray) (distance_range : Q)
    (n : nat) (h : heap) :
  nd_len lat = nd_len lon →
  (3 ≤ nd_len lat)%nat →
  (1 ≤ n)%nat →
  choice_ok →
  ∃ samples winner,
    (trials_from (default_rng_state 12345) lat lon distance_range n []).1
    = Ok samples ∧
    last (sorted trial_lt samples) = Some winner ∧
    ((∀ p, p ∈ points lat lon →
           inlier_point (nd_dtype lat) (nd_dtype lon) (circle_of winner)
                        distance_range p = true) →
     (ransac_fit_circle lat lon distance_range n h).1 = fit_circle lat lon).
Proof.
  intros Hlen H3 Hn Hchoice.
  destruct (trials_from_spec lat lon distance_range Hlen H3 Hchoice n
              (default_rng_state 12345) [])
    as (samples & st' & Hrun & Hdraws & _ & Htrials).
  assert (Hne : samples ≠ []).
  { intros ->. apply Forall2_length in Htrials. rewrite Hdraws in Htrials.
    simpl in Htrials. lia. }
  destruct (sorted_last_exists trial_lt samples Hne) as [winner Hlast].
  exists samples, winner. rewrite ransac_fit_circle_run, Hrun.
  cbn [app fst mbind result_bind]. split_and!; [done..|].
  intros Hall. rewrite (ransac_refit_unfold _ _ _ _ winner Hlen Hlast).
  by destruct (inlier_points_all (circle_of winner) distance_range lat lon
                 Hlen Hall) as [-> ->].
Qed.
End ransac_edges.

Lemma ransac_fit_circle_errors_witness :
  raises (@ransac_fit_circle taxicab floor_sqrt null_minimizer counter_rng
            least_int64 (float_array [0; 0; 1; 5]%Q) (float_array [0; 1; 0; 5]%Q)
            1 0 []).1 "IndexError" ∧
  raises (@ransac_fit_circle taxicab floor_sqrt null_minimizer counter_rng
            least_int64 (float_array [0; 1]%Q) (float_array [0; 1]%Q)
            1 2 []).1 "ValueError".
Proof.
  split.
  - apply (@ransac_fit_circle_errors taxicab floor_sqrt null_minimizer
             counter_rng least_int64
             (float_array [0; 0; 1; 5]%Q) (float_array [0; 1; 0; 5]%Q) 1 []).
  - apply (@ransac_fit_circle_errors taxicab floor_sqrt null_minimizer
             counter_rng least_int64
             (float_array [0; 1]%Q) (float_array [0; 1]%Q) 1 []);
      vm_compute; lia.
Defined.

Lemma ransac_fit_circle_all_inliers_witness :
  (@ransac_fit_circle taxicab floor_sqrt null_minimizer counter_rng least_int64
     (float_array [0; 0; 1; 5]%Q) (float_array [0; 1; 0; 5]%Q) 100 2 []).1
  = @fit_circle taxicab floor_sqrt null_minimizer least_int64
      (float_array [0; 0; 1; 5]%Q) (float_array [0; 1; 0; 5]%Q).
Proof.
  destruct (@ransac_fit_circle_all_inliers taxicab floor_sqrt null_minimizer
              counter_rng least_int64
              (float_array [0; 0; 1; 5]%Q) (float_array [0; 1; 0; 5]%Q) 100 2 []
              eq_refl ltac:(vm_compute; lia) ltac:(lia) counter_rng_choice_ok)
    as (samples & winner & Hs & Hw & Hall).
  vm_compute in Hs. injection Hs as <-.
  vm_compute in Hw. injection Hw as <-.
  apply Hall. intros p Hp. unfold points, float_array in Hp.
  cbn [nd_data fmap list_fmap zip zip_with] in Hp.
  repeat (apply elem_of_cons in Hp as [->|Hp]; [vm_compute; reflexivity|]).
  exfalso. exact (proj1 (elem_of_nil p) Hp).
Defined.

(* ===================================================================== *)
(** ** The event functions *)
(* ===================================================================== *)

Lemma round_half_even_bounds (q : Q) :
  (q - (1 # 2) <= inject_Z (round_half_even q) <= q + (1 # 2))%Q ∧
  ((0 <= q)%Q → 0 ≤ round_half_even q).
Proof.
  pose proof (Qfloor_le q) as Hlo. pose proof (Qlt_floor q) as Hhi.
  rewrite inject_Z_plus in Hhi.
  assert (Hone : (inject_Z 1 == 1)%Q) by reflexivity.
  assert (Hnonneg : (0 <= q)%Q → 0 ≤ Qfloor q).
  { intros Hq. change 0 with (Qfloor 0). by apply Qfloor_resp_le. }
  unfold round_half_even.
  destruct (q - inject_Z (Qfloor q) ?= 1 # 2)%Q eqn:Hcmp.
  - apply Qeq_alt in Hcmp. destruct (Z.even (Qfloor q)).
    + split; [lra|done].
    + rewrite inject_Z_plus. split; [lra|]. intros Hq. specialize (Hnonneg Hq). lia.
  - apply Qlt_alt in Hcmp. split; [lra|done].
  - apply Qgt_alt in Hcmp. rewrite inject_Z_plus. split; [lra|].
    intros Hq. specialize (Hnonneg Hq). lia.
Qed.

Section events.
Context {G : Geod} {M : Minimizer} {P : Pandas}.

(** A finite distance returned by the refinement is a geodesic distance,
    and the time returned with it lies in the time window of the second
    track. *)
Lemma overpass_track_finite (a_track b_track : track) (q : Q) (t : Z) :
  get_overpass_track a_track b_track true = Ok (Fin q, t) →
  ∃ b0 b1,
    (∃ lon1 lat1 lon2 lat2, q = geod_inv_dist lon1 lat1 lon2 lat2) ∧
    time_first_last b_track = Ok (b0, b1) ∧ b0 ≤ t ≤ b1.
Proof.
  intros Hres.
  destruct (time_first_last b_track) as [[b0 b1]|e] eqn:Hb.
  2: { unfold get_overpass_track, overpass_coarse in Hres.
       rewrite Hb in Hres. discriminate. }
  unfold get_overpass_track in Hres.
  rewrite (overpass_coarse_unfold _ _ _ _ Hb) in Hres. cbn zeta in Hres.
  destruct (np_argmin _) as [i|e]; [|discriminate].
  cbn [mbind result_bind] in Hres. unfold overpass_minimize in Hres.
  destruct (subscript _ i) as [t_guess|e]; [|discriminate].
  cbn [mbind result_bind] in Hres. injection Hres as Hq <-.
  destruct (overpass_cost_Fin_bounds (sel_time a_track b0 b1) b_track _ _ _ Hq)
    as [Hgeod (s1 & s2 & Hs1 & Hs2 & Ht)].
  unfold sel_time in Hs1, Hs2.
  apply list_elem_of_filter in Hs1 as [? _].
  apply list_elem_of_filter in Hs2 as [? _].
  exists b0, b1. split_and!; [done|done|lia|lia].
Qed.

(** X15: [ec_event] and [pace_event] pass the exception of
    [get_overpass_track] on; when it returns a distance that is [NaN]
    they raise [ValueError], from [round]; when it returns a finite
    distance they return an event that has the time of the overpass and
    the distance rounded to whole metres, a non-negative integer within
    half a metre of the distance; the two functions differ in the name
    and the kind only.  The geodesic solver returns non-negative
    distances. *)
Theorem underpass_event_spec (ds sat_track : track)
    (remarks : option (list string)) :
  (∀ lon1 lat1 lon2 lat2, (0 <= geod_inv_dist lon1 lat1 lon2 lat2)%Q) →
  match get_overpass_track ds sat_track true with
  | Err e =>
      ec_event ds sat_track remarks = Err e ∧
      pace_event ds sat_track remarks = Err e
  | Ok (NaN, time) =>
      raises (ec_event ds sat_track remarks) "ValueError" ∧
      raises (pace_event ds sat_track remarks) "ValueError"
  | Ok (Fin q, time) =>
      ∃ ec pace,
        ec_event ds sat_track remarks = Ok ec ∧
        pace_event ds sat_track remarks = Ok pace ∧
        ev_time ec = to_dt time ∧ ev_time pace = to_dt time ∧
        ev_distance ec = ev_distance pace ∧
        0 ≤ ev_distance ec ∧
        (q - (1 # 2) <= inject_Z (ev_distance ec) <= q + (1 # 2))%Q ∧
        ev_remarks ec = ev_remarks pace ∧
        ev_name ec = "EC meeting point" ∧ ev_kinds ec = ["ec_underpass"] ∧
        ev_name pace = "PACE meeting point" ∧ ev_kinds pace = ["pace_underpass"]
  end.
Proof.
  intros Hnonneg.
  destruct (get_overpass_track ds sat_track true) as [[[q|] time]|e] eqn:Hres.
  - destruct (overpass_track_finite _ _ _ _ Hres)
      as (b0 & b1 & (lon1 & lat1 & lon2 & lat2 & Hq) & _ & _).
    destruct (round_half_even_bounds q) as [Hround Hpos].
    eexists _, _. unfold ec_event, pace_event. rewrite Hres.
    cbn [mbind result_bind py_round].
    split_and!; try reflexivity; cbn [ev_distance]; try apply Hround.
    apply Hpos. rewrite Hq. apply Hnonneg.
  - unfold ec_event, pace_event. rewrite Hres.
    cbn [mbind result_bind py_round]. split; by eexists.
  - unfold ec_event, pace_event. by rewrite Hres.
Qed.

Section meteor.
Context {O : PyObjects}.

(** X16: for a ship's track of finite positions, the position of the
    ship that [meteor_event] reports is finite and is the linear
    interpolation of its track at the time of the event, which lies
    inside the time span of that track. *)
Theorem meteor_event_position (ds meteor_track : track) (seg : option pyval)
    (name : option string) (remarks : option (list string)) (e : event) :
  (∀ sl ds', ds_sel ds sl = Ok ds' → increasing (s_time <$> ds')) →
  increasing (s_time <$> ds) →
  finite_track meteor_track →
  increasing (s_time <$> meteor_track) →
  meteor_event ds meteor_track seg name remarks = Ok e →
  ∃ t b0 b1 la lo,
    ev_time e = to_dt t ∧
    time_first_last meteor_track = Ok (b0, b1) ∧ b0 ≤ t ≤ b1 ∧
    ev_meteor e = Some (Fin la, Fin lo) ∧
    lin_interp (track_points lat_of meteor_track) (inject_Z t) la ∧
    lin_interp (track_points lon_of meteor_track) (inject_Z t) lo.
Proof.
  intros _ _ Hfin_b Hinc_b Hev. unfold meteor_event in Hev.
  destruct (select_segment ds seg) as [ds'|err] eqn:Hds'; [|discriminate].
  cbn [mbind result_bind] in Hev.
  destruct (get_overpass_track ds' meteor_track true) as [[[q|] t]|err] eqn:Hres;
    [|discriminate..].
  cbn [mbind result_bind] in Hev.
  destruct (overpass_track_finite _ _ _ _ Hres) as (b0 & b1 & _ & Hb & Ht).
  cbn [py_round mbind result_bind] in Hev. injection Hev as <-.
  destruct (resampled_inside meteor_track b0 b1 (Sample t (Fin 0) (Fin 0))
              Hfin_b Hinc_b Hb Ht)
    as (la & lo & Hr & Hla & Hlo).
  exists t, b0, b1, la, lo. cbn [ev_time ev_meteor].
  split_and!; [done|done|lia|lia| |done|done].
  f_equal. exact Hr.
Qed.

(** X17: how [meteor_event] reads its segment.  The empty tuple and the
    empty dict count as no segment, so the empty tuple never reaches
    [parse_segment]; a non-empty tuple restricts the flight track by its
    first item, a non-empty dict by its ["slice"] entry, and without that
    entry [KeyError] is raised. *)
Theorem meteor_event_segment (ds meteor_track : track) (name : option string)
    (remarks : option (list string)) :
  meteor_event ds meteor_track (Some (PyTuple [])) name remarks
  = meteor_event ds meteor_track None name remarks ∧
  meteor_event ds meteor_track (Some (PyDict ∅)) name remarks
  = meteor_event ds meteor_track None name remarks ∧
  (∀ x items,
     meteor_event ds meteor_track (Some (PyTuple (x :: items))) name remarks
     = ds' ← ds_sel ds x; meteor_event ds' meteor_track None name remarks) ∧
  (∀ d x, d !! "slice" = Some x →
     meteor_event ds meteor_track (Some (PyDict d)) name remarks
     = ds' ← ds_sel ds x; meteor_event ds' meteor_track None name remarks) ∧
  (∀ d, d ≠ ∅ → d !! "slice" = None →
     raises (meteor_event ds meteor_track (Some (PyDict d)) name remarks)
            "KeyError").
Proof.
  split_and!.
  - reflexivity.
  - reflexivity.
  - intros x items. unfold meteor_event, select_segment at 1.
    cbn [truthy]. rewrite bool_decide_eq_true_2 by done.
    destruct (parse_segment_tuple x items) as (d & -> & [Hf _]).
    cbn [mbind result_bind getitem].
    rewrite (Hf 0%nat "slice" eq_refl).
    cbn [lookup list_lookup mbind result_bind].
    destruct (ds_sel ds x); reflexivity.
  - intros d x Hx. unfold meteor_event, select_segment at 1.
    cbn [truthy]. rewrite bool_decide_eq_true_2.
    2: { intros ->. by rewrite lookup_empty in Hx. }
    cbn [parse_segment mbind result_bind getitem]. rewrite Hx.
    cbn [mbind result_bind]. destruct (ds_sel ds x); reflexivity.
  - intros d Hne Hx. unfold meteor_event, select_segment.
    cbn [truthy]. rewrite bool_decide_eq_true_2 by done.
    cbn [parse_segment mbind result_bind getitem]. rewrite Hx.
    cbn [mbind result_bind]. by eexists.
Qed.
End meteor.
End events.

Lemma underpass_event_spec_witness :
  ∃ ec pace,
    @ec_event taxicab probe_minimizer microseconds track_east track_fixed None
    = Ok ec ∧
    @pace_event taxicab probe_minimizer microseconds track_east track_fixed None
    = Ok pace ∧
    ev_time ec = @to_dt microseconds 1000000000 ∧
    ev_time pace = @to_dt microseconds 1000000000 ∧
    ev_distance ec = ev_distance pace ∧
    0 ≤ ev_distance ec ∧
    (0 - (1 # 2) <= inject_Z (ev_distance ec) <= 0 + (1 # 2))%Q ∧
    ev_remarks ec = ev_remarks pace ∧
    ev_name ec = "EC meeting point" ∧ ev_kinds ec = ["ec_underpass"] ∧
    ev_name pace = "PACE meeting point" ∧ ev_kinds pace = ["pace_underpass"].
Proof.
  exact (@underpass_event_spec taxicab probe_minimizer microseconds
           track_east track_fixed None taxicab_nonneg).
Defined.

Lemma meteor_event_position_witness :
  ∃ e t b0 b1 la lo,
    @meteor_event taxicab probe_minimizer microseconds whole_flight
      track_east track_fixed None None None = Ok e ∧
    ev_time e = @to_dt microseconds t ∧
    time_first_last track_fixed = Ok (b0, b1) ∧ b0 ≤ t ≤ b1 ∧
    ev_meteor e = Some (Fin la, Fin lo) ∧
    lin_interp (track_points lat_of track_fixed) (inject_Z t) la ∧
    lin_interp (track_points lon_of track_fixed) (inject_Z t) lo.
Proof.
  eexists. 
  assert (Hev : @meteor_event taxicab probe_minimizer microseconds whole_flight
                  track_east track_fixed None None None = Ok _)
    by (vm_compute; reflexivity).
  destruct (@meteor_event_position taxicab probe_minimizer microseconds
              whole_flight track_east track_fixed None None None _
              ltac:(by intros sl ds' [= <-]; repeat constructor)
              ltac:(repeat constructor) ltac:(repeat constructor)
              ltac:(repeat constructor) Hev)
    as (t & b0 & b1 & la & lo & H).
  exists t, b0, b1, la, lo. split; [exact Hev|exact H].
Defined.

Lemma meteor_event_segment_witness :
  raises (@meteor_event taxicab probe_minimizer microseconds whole_flight
            track_east track_fixed
            (Some (PyDict {[ "name" := PyObj "circle" ]})) None None)
         "KeyError".
Proof.
  apply (@meteor_event_segment taxicab probe_minimizer microseconds whole_flight
           track_east track_fixed None None); [|done].
  intros Hd. apply (f_equal (λ d : gmap string pyval, d !! "name")) in Hd.
  by rewrite lookup_singleton_eq, lookup_empty in Hd.
Defined.

(* ===================================================================== *)
(** ** Arrays of different lengths *)
(* ===================================================================== *)

Lemma Qsum_nonneg (l : list Q) : Forall (λ x, (0 <= x)%Q) l → (0 <= Qsum l)%Q.
Proof.
  induction 1 as [|x l Hx _ IH]; cbn [Qsum foldr]; [lra|].
  change (foldr Qplus 0%Q l) with (Qsum l). lra.
Qed.

Lemma Qmean_nonneg (l : list Q) :
  l ≠ [] → Forall (λ x, (0 <= x)%Q) l → (0 <= Qmean l)%Q.
Proof.
  intros Hne Hall. unfold Qmean. apply Qle_shift_div_l.
  - destruct l; [done|]. unfold Qlt. simpl. lia.
  - pose proof (Qsum_nonneg l Hall). lra.
Qed.

Lemma take_indices_Err {A} (l : list A) (idxs : list nat) (e : exn) :
  take_indices l idxs = Err e → e = IndexError "index out of range".
Proof.
  induction idxs as [|i idxs IH]; cbn [take_indices]; [done|].
  unfold subscript. destruct (l !! i); cbn [mbind result_bind].
  - destruct (take_indices l idxs); cbn [mbind result_bind]; [done|].
    intros [= <-]. by apply IH.
  - by intros [= <-].
Qed.

Section lengths.
Context {G : Geod} {Sq : Sqrt} {M : Minimizer} {I : Int64Cast}.

(** The distances of finite points to a finite centre are finite,
    whatever the dtype the centre is stored in. *)
Lemma center_dist_finite (lat_dt lon_dt : dtype) (lat lon : list Q)
    (clat clon : Q) :
  center_dist lat_dt lon_dt (Fin clat) (Fin clon)
    <$> points (NdArray lat_dt (Fin <$> lat)) (NdArray lon_dt (Fin <$> lon))
  = Fin <$> ((λ p, geod_inv_dist p.2 p.1 (Qof (astype lon_dt (Fin clon)))
                                         (Qof (astype lat_dt (Fin clat))))
               <$> Qpoints lat lon).
Proof.
  change (points (NdArray lat_dt (Fin <$> lat)) (NdArray lon_dt (Fin <$> lon)))
    with (points (float_array lat) (float_array lon)).
  rewrite points_float, <- !list_fmap_compose. apply list_fmap_ext.
  intros i p _. unfold center_dist. cbn [compose fst snd].
  pose proof (astype_finite lon_dt (Fin clon) Logic.I) as Hlon.
  pose proof (astype_finite lat_dt (Fin clat) Logic.I) as Hlat.
  by rewrite (finite_Qof _ Hlon), (finite_Qof _ Hlat) at 1.
Qed.

(** X18: [fit_circle] raises the [GeodError] of the geodesic solver
    exactly when the two arrays differ in length; on arrays of finite
    coordinates of one common length, not zero, it returns a finite
    centre and a finite, non-negative radius, the minimiser returning
    finite points from finite ones and distances being non-negative. *)
Theorem fit_circle_returns (lat lon : ndarray) :
  (nd_len lat ≠ nd_len lon → raises (fit_circle lat lon) "GeodError") ∧
  (nd_len lat = nd_len lon → nd_data lat ≠ [] →
   Forall finite (nd_data lat) → Forall finite (nd_data lon) →
   minimize2_finite →
   (∀ lon1 lat1 lon2 lat2, (0 <= geod_inv_dist lon1 lat1 lon2 lat2)%Q) →
   ∃ clat clon radius,
     fit_circle lat lon = Ok (Fin clat, Fin clon, Fin radius) ∧
     (0 <= radius)%Q).
Proof.
  split.
  - intros Hlen. unfold fit_circle.
    rewrite center_dists_mismatch by done. by eexists.
  - intros Hlen Hne Hflat Hflon Hfin Hnonneg.
    rewrite fit_circle_unfold by done. cbn zeta.
    destruct lat as [lat_dt lat], lon as [lon_dt lon].
    cbn [nd_data nd_dtype] in *. unfold nd_len in Hlen. cbn [nd_data] in Hlen.
    rewrite (finite_data _ Hflat), (finite_data _ Hflon) in *.
    set (qlat := Qof <$> lat) in *. set (qlon := Qof <$> lon) in *.
    rewrite !length_fmap in Hlen.
    assert (Hqlat : qlat ≠ []) by (by intros Hnil; rewrite Hnil in Hne).
    assert (Hqlon : qlon ≠ []) by (intros Hnil; rewrite Hnil in Hlen; by destruct qlat).
    rewrite !np_mean_Fin by done.
    destruct (Hfin (circle_cost (NdArray lat_dt (Fin <$> qlat))
                                (NdArray lon_dt (Fin <$> qlon)))
                (Fin (Qmean qlat), Fin (Qmean qlon)) Logic.I Logic.I) as [H1 H2].
    destruct (res_x _) as [[clat|] [clon|]]; try done. cbn [fst snd].
    rewrite center_dist_finite, np_mean_Fin
      by (by apply Qpoints_dists_nonempty).
    eexists clat, clon, _. split; [reflexivity|].
    apply Qmean_nonneg; [by apply Qpoints_dists_nonempty|].
    apply Forall_fmap, Forall_forall. intros p _. apply Hnonneg.
Qed.

(** X19: on arrays of different lengths [ransac_fit_circle] never returns
    a circle: with at least three latitudes and at least one trial the
    first trial raises, [IndexError] when one of the three indices it
    draws is beyond the longitudes and the [GeodError] of the geodesic
    solver when all three are within them. *)
Theorem ransac_fit_circle_length_mismatch {R : Generator}
    (lat lon : ndarray) (distance_range : Q) (n : nat) (h : heap) :
  nd_len lat ≠ nd_len lon →
  (3 ≤ nd_len lat)%nat →
  (1 ≤ n)%nat →
  choice_ok →
  let idxs := (choice_draw (default_rng_state 12345) (nd_len lat) 3).1 in
  (Forall (λ i, (i < nd_len lon)%nat) idxs →
   raises (ransac_fit_circle lat lon distance_range n h).1 "GeodError") ∧
  (¬ Forall (λ i, (i < nd_len lon)%nat) idxs →
   raises (ransac_fit_circle lat lon distance_range n h).1 "IndexError").
Proof.
  intros Hlen H3 Hn Hchoice. cbn zeta. rewrite ransac_fit_circle_run.
  destruct n as [|n]; [lia|]. cbn [trials_from].
  rewrite bool_decide_eq_false_2 by lia.
  pose proof (Hchoice (default_rng_state 12345) (nd_len lat) 3%nat H3) as Hdraw.
  cbn zeta in Hdraw.
  destruct (choice_draw (default_rng_state 12345) (nd_len lat) 3) as [idxs st1].
  cbn [fst] in Hdraw. destruct Hdraw as (Hl & _ & Hlt). cbn [fst].
  unfold score_trial.
  destruct (nd_take_ok lat idxs Hlt) as (slat & Hslat & Hllat). rewrite Hslat.
  cbn [mbind result_bind]. split.
  - intros Hin. destruct (nd_take_ok lon idxs Hin) as (slon & Hslon & Hllon).
    rewrite Hslon. cbn [mbind result_bind].
    destruct (fit_circle_ok slat slon) as [[[clat clon] radius] ->].
    { by rewrite Hllat, Hllon. }
    cbn [mbind result_bind]. rewrite center_dists_mismatch by done.
    cbn [mbind result_bind fst]. by eexists.
  - intros Hout. unfold nd_take at 1.
    destruct (take_indices (nd_data lon) idxs) as [xs|e] eqn:Hslon;
      cbn [mbind result_bind].
    + exfalso. apply Hout. apply take_indices_lookup in Hslon.
      apply Forall_forall. intros i Hi.
      apply list_elem_of_lookup in Hi as [k Hk].
      destruct (Forall2_lookup_l _ _ _ _ _ Hslon Hk) as (x & _ & Hx).
      by eapply lookup_lt_Some.
    + apply take_indices_Err in Hslon as ->. cbn [fst mbind result_bind].
      by eexists.
Qed.
End lengths.

Lemma fit_circle_returns_witness :
  raises (@fit_circle taxicab floor_sqrt null_minimizer least_int64
            (float_array [0; 0; 1]%Q) (float_array [0; 1]%Q)) "GeodError" ∧
  ∃ clat clon radius,
    @fit_circle taxicab floor_sqrt null_minimizer least_int64
      (float_array [0; 2]%Q) (float_array [0; 2]%Q)
    = Ok (Fin clat, Fin clon, Fin radius) ∧ (0 <= radius)%Q.
Proof.
  split.
  - apply (@fit_circle_returns taxicab floor_sqrt null_minimizer least_int64
             (float_array [0; 0; 1]%Q) (float_array [0; 1]%Q)).
    vm_compute. lia.
  - apply (proj2 (@fit_circle_returns taxicab floor_sqrt null_minimizer
                    least_int64 (float_array [0; 2]%Q) (float_array [0; 2]%Q))
             eq_refl ltac:(discriminate)
             ltac:(repeat constructor) ltac:(repeat constructor)
             null_minimizer_finite taxicab_nonneg).
Defined.

Lemma ransac_fit_circle_length_mismatch_witness :
  raises (@ransac_fit_circle taxicab floor_sqrt null_minimizer counter_rng
            least_int64 (float_array [0; 0; 1; 5]%Q)
            (float_array [0; 1; 0; 5; 6]%Q) 1 2 []).1 "GeodError" ∧
  raises (@ransac_fit_circle taxicab floor_sqrt null_minimizer counter_rng
            least_int64 (float_array [0; 0; 1; 5]%Q)
            (float_array [0; 1; 0]%Q) 1 2 []).1 "IndexError".
Proof.
  split.
  - apply (@ransac_fit_circle_length_mismatch taxicab floor_sqrt null_minimizer
             least_int64 counter_rng (float_array [0; 0; 1; 5]%Q)
             (float_array [0; 1; 0; 5; 6]%Q) 1 2 []).
    + vm_compute. lia.
    + vm_compute. lia.
    + lia.
    + exact counter_rng_choice_ok.
    + vm_compute. repeat constructor.
  - apply (@ransac_fit_circle_length_mismatch taxicab floor_sqrt null_minimizer
             least_int64 counter_rng (float_array [0; 0; 1; 5]%Q)
             (float_array [0; 1; 0]%Q) 1 2 []).
    + vm_compute. lia.
    + vm_compute. lia.
    + lia.
    + exact counter_rng_choice_ok.
    + vm_compute. intros Hall.
      apply Forall_cons in Hall as [_ Hall].
      apply Forall_cons in Hall as [_ Hall].
      apply Forall_cons in Hall as [Hlt _]. lia.
Defined.

(* ===================================================================== *)
(** ** [_attach_circle_fit] and [attach_circle_fit] *)
(* ===================================================================== *)

Section attach.
Context {G : Geod} {Sq : Sqrt} {M : Minimizer} {R : Generator}
        {I : Int64Cast} {O : PyObjects} {C : Containers}.

Lemma attach_no_kinds (segment : gmap string pyval) (ds : dataset) (h : heap) :
  segment !! "kinds" = None →
  _attach_circle_fit segment ds h = (Err (Exn "KeyError" "kinds"), h).
Proof.
  intros Hk. unfold _attach_circle_fit, mbind, py_bind, lift_result.
  cbn [getitem]. by rewrite Hk.
Qed.

Lemma attach_no_circle (segment : gmap string pyval) (ds : dataset) (h : heap)
    (kinds : pyval) :
  segment !! "kinds" = Some kinds → py_contains kinds "circle" = Ok false →
  _attach_circle_fit segment ds h = (Ok (inl segment), h).
Proof.
  intros Hk Hc. unfold _attach_circle_fit, mbind, py_bind, lift_result.
  cbn [getitem]. by rewrite Hk, Hc.
Qed.

Lemma attach_circle (segment : gmap string pyval) (ds : dataset)
    (cdata : track) (h : heap) (kinds sl : pyval) :
  segment !! "kinds" = Some kinds → py_contains kinds "circle" = Ok true →
  segment !! "slice" = Some sl → ds_sel (ds_track ds) sl = Ok cdata →
  _attach_circle_fit segment ds h =
  match ransac_fit_circle (NdArray (lat_dtype ds) (s_lat <$> cdata))
                          (NdArray (lon_dtype ds) (s_lon <$> cdata))
                          1000 100 h with
  | (Ok (clat, clon, radius), h') =>
      (Ok (inr (<["radius" := inr radius]>
                  (<["clon" := inr clon]>
                     (<["clat" := inr clat]> (inl <$> segment))))), h')
  | (Err e, h') => (Err e, h')
  end.
Proof.
  intros Hk Hc Hs Hsel. unfold _attach_circle_fit.
  unfold mbind at 1, py_bind at 1, lift_result at 1. cbn [getitem]. rewrite Hk.
  unfold mbind at 1, py_bind at 1, lift_result at 1. rewrite Hc. cbn [negb].
  unfold mbind at 1, py_bind at 1, lift_result at 1. rewrite Hs.
  unfold mbind at 1, py_bind at 1, lift_result at 1. rewrite Hsel.
  unfold mbind at 1, py_bind at 1.
  destruct (ransac_fit_circle _ _ _ _ h) as [[[[clat clon] radius]|e] h']; done.
Qed.

(** X20: a segment record without ["kinds"] makes [_attach_circle_fit]
    raise [KeyError]; the records [parse_segment] builds from a bare slice
    object and from a tuple of one item are such records. *)
Theorem attach_circle_fit_needs_kinds (ds : dataset) (h : heap) :
  (∀ segment, segment !! "kinds" = None →
     raises (_attach_circle_fit segment ds h).1 "KeyError") ∧
  (∀ r, ∃ d, parse_segment (PyObj r) = Ok (PyDict d) ∧
             raises (_attach_circle_fit d ds h).1 "KeyError") ∧
  (∀ x, ∃ d, parse_segment (PyTuple [x]) = Ok (PyDict d) ∧
             raises (_attach_circle_fit d ds h).1 "KeyError").
Proof.
  split_and!.
  - intros segment Hk. rewrite attach_no_kinds by done. by eexists.
  - intros r. eexists. split; [reflexivity|].
    rewrite attach_no_kinds by done. by eexists.
  - intros x. eexists. split; [reflexivity|].
    rewrite attach_no_kinds by done. by eexists.
Qed.

(** X21: segments whose kinds do not contain ["circle"] go through
    [attach_circle_fit] unchanged, in order, and no generator is made. *)
Theorem attach_circle_fit_no_circle (segments : list (gmap string pyval))
    (ds : dataset) (h : heap) :
  Forall (λ s, ∃ kinds, s !! "kinds" = Some kinds ∧
                        py_contains kinds "circle" = Ok false) segments →
  attach_circle_fit segments ds h = (Ok (inl <$> segments), h).
Proof.
  induction 1 as [|s rest (kinds & Hk & Hc) _ IH]; [done|].
  cbn [attach_circle_fit]. unfold mbind at 1, py_bind at 1.
  rewrite (attach_no_circle s ds h kinds Hk Hc).
  unfold mbind at 1, py_bind at 1. by rewrite IH.
Qed.

(** X22: for a circle segment whose slice selects fewer than three
    samples [_attach_circle_fit] raises [ValueError]. *)
Theorem attach_circle_fit_few_samples (segment : gmap string pyval)
    (ds : dataset) (cdata : track) (h : heap) (kinds sl : pyval) :
  segment !! "kinds" = Some kinds → py_contains kinds "circle" = Ok true →
  segment !! "slice" = Some sl → ds_sel (ds_track ds) sl = Ok cdata →
  (length cdata < 3)%nat →
  raises (_attach_circle_fit segment ds h).1 "ValueError".
Proof.
  intros Hk Hc Hs Hsel Hlen.
  rewrite (attach_circle segment ds cdata h kinds sl Hk Hc Hs Hsel).
  rewrite ransac_fit_circle_run. cbn [trials_from].
  rewrite bool_decide_eq_true_2
    by (unfold nd_len; cbn [nd_data]; by rewrite length_fmap).
  cbn [mbind result_bind fst]. by eexists.
Qed.

(** X23: what [_attach_circle_fit] returns.  Either the record itself,
    with the store as it was, or a new record and one more generator; the
    new record binds ["clat"], ["clon"] and ["radius"] to the circle
    [ransac_fit_circle] finds in the samples of the slice, with the
    default range of 1000 m and 100 trials, and every other key to what
    the segment bound it to. *)
Theorem attach_circle_fit_result (segment : gmap string pyval) (ds : dataset)
    (h h' : heap)
    (r : gmap string pyval + gmap string (pyval + float)) :
  _attach_circle_fit segment ds h = (Ok r, h') →
  (r = inl segment ∧ h' = h) ∨
  ∃ fitted sl cdata clat clon radius st,
    r = inr fitted ∧ h' = h ++ [st] ∧
    segment !! "slice" = Some sl ∧ ds_sel (ds_track ds) sl = Ok cdata ∧
    (ransac_fit_circle (NdArray (lat_dtype ds) (s_lat <$> cdata))
                       (NdArray (lon_dtype ds) (s_lon <$> cdata)) 1000 100 h).1
    = Ok (clat, clon, radius) ∧
    fitted !! "clat" = Some (inr clat) ∧
    fitted !! "clon" = Some (inr clon) ∧
    fitted !! "radius" = Some (inr radius) ∧
    ∀ k, k ≠ "clat" → k ≠ "clon" → k ≠ "radius" →
         fitted !! k = inl <$> segment !! k.
Proof.
  intros Hres.
  destruct (segment !! "kinds") as [kinds|] eqn:Hk.
  2: { by rewrite attach_no_kinds in Hres. }
  destruct (py_contains kinds "circle") as [[|]|e] eqn:Hc.
  3: { unfold _attach_circle_fit, mbind, py_bind, lift_result in Hres.
       cbn [getitem] in Hres. by rewrite Hk, Hc in Hres. }
  2: { rewrite (attach_no_circle _ _ _ _ Hk Hc) in Hres.
       injection Hres as <- <-. by left. }
  destruct (segment !! "slice") as [sl|] eqn:Hs.
  2: { unfold _attach_circle_fit, mbind, py_bind, lift_result in Hres.
       cbn [getitem] in Hres. by rewrite Hk, Hc, Hs in Hres. }
  destruct (ds_sel (ds_track ds) sl) as [cdata|e] eqn:Hsel.
  2: { unfold _attach_circle_fit, mbind, py_bind, lift_result in Hres.
       cbn [getitem] in Hres. by rewrite Hk, Hc, Hs, Hsel in Hres. }
  rewrite (attach_circle _ _ _ _ _ _ Hk Hc Hs Hsel) in Hres.
  pose proof (ransac_fit_circle_run
                (NdArray (lat_dtype ds) (s_lat <$> cdata))
                (NdArray (lon_dtype ds) (s_lon <$> cdata)) 1000 100 h) as Hrun.
  destruct (trials_from _ (NdArray (lat_dtype ds) (s_lat <$> cdata))
              (NdArray (lon_dtype ds) (s_lon <$> cdata)) 1000 100 [])
    as [samples st] eqn:Htr.
  rewrite Hrun in Hres.
  destruct (samples ≫= ransac_refit _ _ _) as [[[clat clon] radius]|e] eqn:Hfit;
    [|discriminate].
  injection Hres as <- <-. right.
  eexists _, sl, cdata, clat, clon, radius, st.
  split_and!; [reflexivity|reflexivity|done|done| | | | |].
  - by rewrite Hrun.
  - rewrite lookup_insert_ne by done. rewrite lookup_insert_ne by done.
    by rewrite lookup_insert_eq.
  - rewrite lookup_insert_ne by done. by rewrite lookup_insert_eq.
  - by rewrite lookup_insert_eq.
  - intros k H1 H2 H3. rewrite !lookup_insert_ne by done.
    by rewrite lookup_fmap.
Qed.
End attach.

Lemma attach_circle_fit_needs_kinds_witness :
  ∃ d, parse_segment (PyTuple [PyObj "leg"]) = Ok (PyDict d) ∧
       raises (@_attach_circle_fit taxicab floor_sqrt null_minimizer counter_rng
                 least_int64 whole_flight one_kind d
                 (float_dataset track_east) []).1 "KeyError".
Proof.
  apply (@attach_circle_fit_needs_kinds taxicab floor_sqrt null_minimizer
           counter_rng least_int64 whole_flight one_kind
           (float_dataset track_east) []).
Defined.

Lemma attach_circle_fit_no_circle_witness :
  @attach_circle_fit taxicab floor_sqrt null_minimizer counter_rng
    least_int64 whole_flight one_kind
    [ {[ "slice" := PyObj "leg"; "kinds" := PyObj "straight_leg" ]} ]
    (float_dataset track_east) []
  = (Ok [inl {[ "slice" := PyObj "leg"; "kinds" := PyObj "straight_leg" ]}], []).
Proof.
  apply (@attach_circle_fit_no_circle taxicab floor_sqrt null_minimizer
           counter_rng least_int64 whole_flight one_kind).
  repeat constructor. exists (PyObj "straight_leg"). split; reflexivity.
Defined.

Lemma attach_circle_fit_few_samples_witness :
  raises (@_attach_circle_fit taxicab floor_sqrt null_minimizer counter_rng
            least_int64 whole_flight one_kind
            {[ "slice" := PyObj "turn"; "kinds" := PyObj "circle" ]}
            (float_dataset track_east) []).1 "ValueError".
Proof.
  apply (@attach_circle_fit_few_samples taxicab floor_sqrt null_minimizer
           counter_rng least_int64 whole_flight one_kind _
           (float_dataset track_east) track_east []
           (PyObj "circle") (PyObj "turn")); try reflexivity.
  simpl. lia.
Defined.

Lemma attach_circle_fit_result_witness :
  ∃ r h',
    @_attach_circle_fit taxicab floor_sqrt null_minimizer counter_rng
      least_int64 whole_flight one_kind
      {[ "slice" := PyObj "turn"; "kinds" := PyObj "circle" ]}
      (float_dataset circle_track) []
    = (Ok r, h') ∧
    ((r = inl {[ "slice" := PyObj "turn"; "kinds" := PyObj "circle" ]} ∧ h' = []) ∨
     ∃ fitted sl cdata clat clon radius st,
       r = inr fitted ∧ h' = [] ++ [st] ∧
       ({[ "slice" := PyObj "turn"; "kinds" := PyObj "circle" ]}
          : gmap string pyval) !! "slice" = Some sl ∧
       @ds_sel whole_flight circle_track sl = Ok cdata ∧
       (@ransac_fit_circle taxicab floor_sqrt null_minimizer counter_rng
          least_int64 (NdArray float64 (s_lat <$> cdata))
          (NdArray float64 (s_lon <$> cdata)) 1000 100 []).1
       = Ok (clat, clon, radius) ∧
       fitted !! "clat" = Some (inr clat) ∧
       fitted !! "clon" = Some (inr clon) ∧
       fitted !! "radius" = Some (inr radius) ∧
       ∀ k, k ≠ "clat" → k ≠ "clon" → k ≠ "radius" →
            fitted !! k
            = inl <$> ({[ "slice" := PyObj "turn"; "kinds" := PyObj "circle" ]}
                         : gmap string pyval) !! k).
Proof.
  eexists _, _.
  assert (Hev : @_attach_circle_fit taxicab floor_sqrt null_minimizer counter_rng
                  least_int64 whole_flight one_kind
                  {[ "slice" := PyObj "turn"; "kinds" := PyObj "circle" ]}
                  (float_dataset circle_track) []
                = (Ok _, _))
    by (vm_compute; reflexivity).
  split; [exact Hev|].
  exact (@attach_circle_fit_result taxicab floor_sqrt null_minimizer counter_rng
           least_int64 whole_flight one_kind _ _ _ _ _ Hev).
Defined.
